(** * spoticamper: the reconciliation model of [spoticamper.py]

    The script keeps a JSON document of albums pulled from a Spotify
    playlist, looks each album up on Bandcamp once, and marks the albums
    whose Bandcamp address occurs in the user's purchase page.  This file
    embeds the script function by function and proves the properties of
    the reconciliation model. *)

From Stdlib Require Import Ascii String.
From stdpp Require Import gmap strings list.

Open Scope string_scope.
Open Scope list_scope.
Open Scope nat_scope.

(** ** Exceptions

    Every function of the script either returns or lets a Python exception
    escape; nothing is caught except the missing state file. *)

Inductive exn : Type :=
  | KeyError (key : string)
  | IndexError
  | ValueError
  | RuntimeError
  | ZeroDivisionError
  | RequestException.

Inductive result (A : Type) : Type :=
  | Ok (a : A)
  | Raise (e : exn).

Arguments Ok {A} a.
Arguments Raise {A} e.

#[global] Instance result_ret : MRet result := @Ok.

#[global] Instance result_bind : MBind result := fun A B k r =>
  match r with
  | Ok a => k a
  | Raise e => Raise e
  end.

(** ** Python string primitives used by [urllib.parse]

    A string is the sequence of its bytes in UTF-8.  Every character the
    code below looks for is ASCII, so the places found and the parts cut
    are those of Python's strings of code points. *)

Module Str.

(** [s.find(c)], with [None] for -1. *)
Fixpoint find (c : ascii) (s : string) : option nat :=
  match s with
  | EmptyString => None
  | String a s' => if Ascii.eqb a c then Some 0 else S <$> find c s'
  end.

(** [s.rfind(c)], with [None] for -1. *)
Fixpoint rfind (c : ascii) (s : string) : option nat :=
  match s with
  | EmptyString => None
  | String a s' =>
      match rfind c s' with
      | Some i => Some (S i)
      | None => if Ascii.eqb a c then Some 0 else None
      end
  end.

(** [s[:n]] *)
Fixpoint take (n : nat) (s : string) : string :=
  match n, s with
  | S n', String a s' => String a (take n' s')
  | _, _ => EmptyString
  end.

(** [s[n:]] *)
Fixpoint drop (n : nat) (s : string) : string :=
  match n, s with
  | S n', String _ s' => drop n' s'
  | _, _ => s
  end.

(** [s.find(c, start)] *)
Definition find_from (c : ascii) (start : nat) (s : string) : option nat :=
  (fun i => start + i) <$> find c (drop start s).

(** [c in s] *)
Definition contains (c : ascii) (s : string) : bool :=
  match find c s with Some _ => true | None => false end.

Fixpoint all (p : ascii -> bool) (s : string) : bool :=
  match s with
  | EmptyString => true
  | String a s' => p a && all p s'
  end.

Fixpoint filter (p : ascii -> bool) (s : string) : string :=
  match s with
  | EmptyString => EmptyString
  | String a s' => if p a then String a (filter p s') else filter p s'
  end.

(** [s.lstrip(chars)] for the set of characters accepted by [p]. *)
Fixpoint lstrip (p : ascii -> bool) (s : string) : string :=
  match s with
  | EmptyString => EmptyString
  | String a s' => if p a then lstrip p s' else s
  end.

Definition code (a : ascii) : nat := nat_of_ascii a.

Definition between (lo hi : nat) (a : ascii) : bool :=
  ((lo <=? code a) && (code a <=? hi))%nat.

Definition is_upper (a : ascii) : bool := between 65 90 a.
Definition is_lower (a : ascii) : bool := between 97 122 a.
Definition is_digit (a : ascii) : bool := between 48 57 a.
Definition is_ascii (a : ascii) : bool := between 0 127 a.
Definition is_ascii_alpha (a : ascii) : bool := is_upper a || is_lower a.

Definition lower_char (a : ascii) : ascii :=
  if is_upper a then ascii_of_nat (code a + 32) else a.

(** [s.lower()] on a string of ASCII characters. *)
Fixpoint lower (s : string) : string :=
  match s with
  | EmptyString => EmptyString
  | String a s' => String (lower_char a) (lower s')
  end.

(** [s.split(c, 1)] when [c in s]: the parts before and after the first
    occurrence. *)
Definition split1 (c : ascii) (s : string) : option (string * string) :=
  (fun i => (take i s, drop (S i) s)) <$> find c s.

End Str.

(** ** [urllib.parse.urlparse]

    The script calls the standard library's [urlparse] on the link of a
    search result (line 25) and on the playlist address (line 98).  The
    definitions below follow [urlsplit], [_splitnetloc], [_splitparams]
    and [urlparse] of CPython's [urllib/parse.py] statement by statement.
    The library's deeper validation of a host (of a bracketed IP literal by
    [_check_bracketed_netloc], of a non-ASCII host by [_checknetloc]) is
    not part of the script; it is the parameter [valid_netloc], consulted
    in exactly the two cases in which the library runs it. *)

Module urllib.

Record ParseResult : Type := {
  scheme : string;
  netloc : string;
  path : string;
  params : string;
  query : string;
  fragment : string
}.

Definition scheme_chars (a : ascii) : bool :=
  Str.is_lower a || Str.is_upper a || Str.is_digit a
  || Ascii.eqb a "+" || Ascii.eqb a "-" || Ascii.eqb a ".".

Definition uses_params : list string :=
  [""; "ftp"; "hdl"; "prospero"; "http"; "imap"; "https"; "shttp"; "rtsp";
   "rtspu"; "sip"; "sips"; "mms"; "sftp"; "tel"].

(** [_WHATWG_C0_CONTROL_OR_SPACE]: the characters 0 to 32. *)
Definition c0_control_or_space (a : ascii) : bool := Str.between 0 32 a.

(** [_UNSAFE_URL_BYTES_TO_REMOVE]: tab, carriage return, line feed. *)
Definition unsafe_url_byte (a : ascii) : bool :=
  ((Str.code a =? 9) || (Str.code a =? 13) || (Str.code a =? 10))%nat.

(** [_splitnetloc(url, start)]: the earliest of the delimiters [/?#] at or
    after [start] ends the network location. *)
Definition _splitnetloc (url : string) (start : nat) : string * string :=
  let delim :=
    foldl (fun delim c =>
             match Str.find_from c start url with
             | Some wdelim => delim `min` wdelim
             | None => delim
             end)
          (String.length url) ["/"; "?"; "#"]%char in
  (Str.drop start (Str.take delim url), Str.drop delim url).

Definition _splitparams (url : string) : string * string :=
  match Str.rfind "/" url with
  | Some slash =>
      match Str.find_from ";" slash url with
      | Some i => (Str.take i url, Str.drop (S i) url)
      | None => (url, "")
      end
  | None =>
      match Str.find ";" url with
      | Some i => (Str.take i url, Str.drop (S i) url)
      | None => (Str.take (String.length url - 1) url, url) (* i = -1 *)
      end
  end.

(** The scheme block of [urlsplit]: a first character that is an ASCII
    letter and nothing but scheme characters before the first colon. *)
Definition split_scheme (url : string) : string * string :=
  match Str.find ":" url, url with
  | Some (S _ as i), String a _ =>
      if Str.is_ascii a && Str.is_ascii_alpha a
         && Str.all scheme_chars (Str.take i url)
      then (Str.lower (Str.take i url), Str.drop (S i) url)
      else ("", url)
  | _, _ => ("", url)
  end.

(** [url.split('#', 1)] if ['#' in url] *)
Definition split_fragment (url : string) : string * string :=
  match Str.split1 "#" url with
  | Some (url, fragment) => (url, fragment)
  | None => (url, "")
  end.

(** [url.split('?', 1)] if ['?' in url] *)
Definition split_query (url : string) : string * string :=
  match Str.split1 "?" url with
  | Some (url, query) => (url, query)
  | None => (url, "")
  end.

Section parse.

Variable valid_netloc : string -> bool.

(** The block [if url[:2] == '//'] of [urlsplit]. *)
Definition split_netloc (url : string) : result (string * string) :=
  if String.eqb (Str.take 2 url) "//" then
    let '(netloc, url) := _splitnetloc url 2 in
    let lb := Str.contains "[" netloc in
    let rb := Str.contains "]" netloc in
    if (lb && negb rb) || (rb && negb lb) then Raise ValueError
    else if lb && rb && negb (valid_netloc netloc) then Raise ValueError
    else Ok (netloc, url)
  else Ok ("", url).

Definition urlsplit (url : string)
  : result (string * string * string * string * string) :=
  let url := Str.lstrip c0_control_or_space url in
  let url := Str.filter (fun a => negb (unsafe_url_byte a)) url in
  let '(scheme, url) := split_scheme url in
  '(netloc, url) ← split_netloc url;
  let '(url, fragment) := split_fragment url in
  let '(url, query) := split_query url in
  if negb (Str.all Str.is_ascii netloc) && negb (valid_netloc netloc)
  then Raise ValueError
  else Ok (scheme, netloc, url, query, fragment).

Definition urlparse (url : string) : result ParseResult :=
  '(scheme, netloc, url, query, fragment) ← urlsplit url;
  let '(url, params) :=
    if bool_decide (scheme ∈ uses_params) && Str.contains ";" url
    then _splitparams url
    else (url, "") in
  Ok {| scheme := scheme; netloc := netloc; path := url;
        params := params; query := query; fragment := fragment |}.

End parse.

End urllib.

(** [os.path.split(p)[-1]]: what follows the last slash. *)
Definition path_tail (p : string) : string :=
  match Str.rfind "/" p with
  | Some i => Str.drop (S i) p
  | None => p
  end.

(** ** The state document

    [state.json] holds two dictionaries.  [albums] is iterated by the
    resolver and by the reports, so it is kept as the ordered sequence of
    its items (a Python dictionary iterates in insertion order); the
    reverse index is only looked up and stored into, so it is a finite
    map. *)

Module Album.

Record t : Type := {
  key : string;
  id : string;
  name : string;
  artists : list string;
  purchased : bool;
  bandcamp_search_term : string;
  bandcamp_url_found : bool;
  bandcamp_url_searched : bool;
  bandcamp_url : string
}.

(** [album["purchased"] = v] *)
Definition set_purchased (v : bool) (a : t) : t :=
  {| key := key a; id := id a; name := name a; artists := artists a;
     purchased := v;
     bandcamp_search_term := bandcamp_search_term a;
     bandcamp_url_found := bandcamp_url_found a;
     bandcamp_url_searched := bandcamp_url_searched a;
     bandcamp_url := bandcamp_url a |}.

(** [album["bandcamp_url_searched"] = v] *)
Definition set_bandcamp_url_searched (v : bool) (a : t) : t :=
  {| key := key a; id := id a; name := name a; artists := artists a;
     purchased := purchased a;
     bandcamp_search_term := bandcamp_search_term a;
     bandcamp_url_found := bandcamp_url_found a;
     bandcamp_url_searched := v;
     bandcamp_url := bandcamp_url a |}.

(** [album["bandcamp_url_found"] = v] *)
Definition set_bandcamp_url_found (v : bool) (a : t) : t :=
  {| key := key a; id := id a; name := name a; artists := artists a;
     purchased := purchased a;
     bandcamp_search_term := bandcamp_search_term a;
     bandcamp_url_found := v;
     bandcamp_url_searched := bandcamp_url_searched a;
     bandcamp_url := bandcamp_url a |}.

(** [album["bandcamp_url"] = v] *)
Definition set_bandcamp_url (v : string) (a : t) : t :=
  {| key := key a; id := id a; name := name a; artists := artists a;
     purchased := purchased a;
     bandcamp_search_term := bandcamp_search_term a;
     bandcamp_url_found := bandcamp_url_found a;
     bandcamp_url_searched := bandcamp_url_searched a;
     bandcamp_url := v |}.

End Album.

(** Python dictionaries with string keys, as the sequence of their items. *)
Module Dict.
Section dict.
Context {V : Type}.

(** [d[k]], [None] standing for [KeyError]. *)
Fixpoint get (k : string) (d : list (string * V)) : option V :=
  match d with
  | [] => None
  | (k', v) :: d' => if String.eqb k' k then Some v else get k d'
  end.

(** [k in d] *)
Definition mem (k : string) (d : list (string * V)) : bool :=
  match get k d with Some _ => true | None => false end.

(** [d[k] = v]: the value of an existing key is replaced where it
    stands, a new key is appended. *)
Fixpoint set (k : string) (v : V) (d : list (string * V))
  : list (string * V) :=
  match d with
  | [] => [(k, v)]
  | (k', v') :: d' =>
      if String.eqb k' k then (k', v) :: d' else (k', v') :: set k v d'
  end.

Definition keys (d : list (string * V)) : list string := d.*1.
Definition values (d : list (string * V)) : list V := d.*2.
End dict.
End Dict.

Record State : Type := {
  albums : list (string * Album.t);
  bandcamp_url_to_album_key : gmap string string
}.

Definition set_albums (d : list (string * Album.t)) (state : State) : State :=
  {| albums := d;
     bandcamp_url_to_album_key := bandcamp_url_to_album_key state |}.

(** The document [load_state] makes when there is no [state.json]. *)
Definition new_state : State :=
  {| albums := []; bandcamp_url_to_album_key := ∅ |}.

(** One item of the playlist answer:
    [track(artists(name), album(id,name))]. *)
Record Track : Type := {
  track_artists : list string;
  track_album_id : string;
  track_album_name : string
}.

(** ** Purchase reconciler: the loop of [bandcamp_refresh_purchased]

    Lines 76 to 79, for one [url] of the purchase list. *)
Definition mark_purchased (url : string) (state : State)
    (new_purchase_count : nat) : State * result nat :=
  match bandcamp_url_to_album_key state !! url with
  | None => (state, Ok new_purchase_count)
  | Some album_key =>
      match Dict.get album_key (albums state) with
      | None => (state, Raise (KeyError album_key))
      | Some album =>
          if Album.purchased album then (state, Ok new_purchase_count)
          else
            (set_albums
               (Dict.set album_key (Album.set_purchased true album)
                  (albums state))
               state,
             Ok (S new_purchase_count))
      end
  end.

(** Lines 74 to 79: the loop over the purchase list.  The state is
    mutated in place, so it is returned also when an exception escapes. *)
Fixpoint mark_purchases (bandcamp_purchases : list string)
    (state : State) (new_purchase_count : nat) : State * result nat :=
  match bandcamp_purchases with
  | [] => (state, Ok new_purchase_count)
  | url :: rest =>
      match mark_purchased url state new_purchase_count with
      | (state, Ok n) => mark_purchases rest state n
      | (state, Raise e) => (state, Raise e)
      end
  end.

(** Lines 74 to 79 for the purchase list that line 73 fetched: the state
    left in memory and the count that line 81 prints. *)
Definition refresh (bandcamp_purchases : list string) (state : State)
    : State * result nat :=
  mark_purchases bandcamp_purchases state 0.

(** ** Playlist importer: the first loop of [pull_spotify_playlist] *)

Definition album_key_of (track : Track) : string :=
  track_album_name track +:+ ":" +:+ track_album_id track.

(** Lines 104 to 123, for one [track].  The dictionary literal of line 112
    is evaluated before it is stored, so [artists[0]] on an empty list
    raises with nothing stored. *)
Definition register_track (track : Track) (state : State)
    (registered_album_count : nat) : State * result nat :=
  let album_key := album_key_of track in
  if Dict.mem album_key (albums state) then (state, Ok registered_album_count)
  else
    let artists := track_artists track in
    match artists with
    | [] => (state, Raise IndexError)
    | artist0 :: _ =>
        (set_albums
           (Dict.set album_key
              {| Album.key := album_key;
                 Album.id := track_album_id track;
                 Album.name := track_album_name track;
                 Album.artists := artists;
                 Album.purchased := false;
                 Album.bandcamp_search_term :=
                   artist0 +:+ " " +:+ track_album_name track;
                 Album.bandcamp_url_found := false;
                 Album.bandcamp_url_searched := false;
                 Album.bandcamp_url := "" |}
              (albums state))
           state,
         Ok (S registered_album_count))
    end.

(** Lines 103 to 123: the loop over the playlist. *)
Fixpoint register_albums (playlist : list Track) (state : State)
    (registered_album_count : nat) : State * result nat :=
  match playlist with
  | [] => (state, Ok registered_album_count)
  | track :: rest =>
      match register_track track state registered_album_count with
      | (state, Ok n) => register_albums rest state n
      | (state, Raise e) => (state, Raise e)
      end
  end.

(** Lines 102 to 123 from line 102's counter. *)
Definition register (playlist : list Track) (state : State)
    : State * result nat :=
  register_albums playlist state 0.

(** ** Marketplace resolver: the last loop of [pull_spotify_playlist]

    [search_bandcamp_album_url] asks a remote service, so the loop takes it
    as the function [search]; its first argument counts the requests made
    before the call, which lets the service answer the same question
    differently at different times. *)

(** One call of [search_bandcamp_album_url] as the loop made it: the key
    the album is stored under, the two arguments and the answer. *)
Record Call : Type := {
  call_key : string;
  call_artist : string;
  call_album : string;
  call_answer : result string
}.

(** Lines 138 to 144 for the album met at position [i] of the dictionary,
    stored there under [k], once the search has answered [bandcamp_url].
    [album] is the stored object itself, so the assignments of lines 138 to
    141 change the item in place; line 144 then stores the object under
    [album["key"]].  In every document the script builds that is the key
    the object is stored under already ([store_search_result_invariant]
    below), and the store changes nothing.  In a document edited by hand
    it can be another key, which then holds the same record; the pass
    itself never changes a searched record again, so it cannot tell a
    shared object from an equal one. *)
Definition store_search_result (i : nat) (k : string) (album : Album.t)
    (bandcamp_url : string) (state : State) : State :=
  let album := Album.set_bandcamp_url_searched true album in
  let '(album, index) :=
    if String.eqb bandcamp_url "" then
      (album, bandcamp_url_to_album_key state)
    else
      let album := Album.set_bandcamp_url_found true album in
      let album := Album.set_bandcamp_url bandcamp_url album in
      (album,
       <[bandcamp_url := Album.key album]> (bandcamp_url_to_album_key state))
  in
  {| albums :=
       Dict.set (Album.key album) album (<[i := (k, album)]> (albums state));
     bandcamp_url_to_album_key := index |}.

(** Lines 135 to 147.  [for album in state["albums"].values()] walks the
    positions of the live dictionary: [i] is the position of the iterator,
    [fuel] bounds the positions left.  A store under a key the dictionary
    did not have makes it grow, and the iterator then raises
    [RuntimeError] when asked for the next album. *)
Fixpoint resolve_albums (search : nat -> string -> string -> result string)
    (fuel i clock : nat) (state : State) : State * list Call * result unit :=
  match fuel with
  | 0 => (state, [], Ok tt)
  | S fuel =>
      match albums state !! i with
      | None => (state, [], Ok tt)
      | Some (k, album) =>
          if Album.bandcamp_url_searched album then
            resolve_albums search fuel (S i) clock state
          else
            match Album.artists album with
            | [] => (state, [], Raise IndexError)
            | artist0 :: _ =>
                let answer := search clock artist0 (Album.name album) in
                let call :=
                  {| call_key := k; call_artist := artist0;
                     call_album := Album.name album;
                     call_answer := answer |} in
                match answer with
                | Raise e => (state, [call], Raise e)
                | Ok bandcamp_url =>
                    let state' :=
                      store_search_result i k album bandcamp_url state in
                    if (length (albums state') =? length (albums state))%nat
                    then
                      let '(state'', calls, r) :=
                        resolve_albums search fuel (S i) (S clock) state' in
                      (state'', call :: calls, r)
                    else (state', [call], Raise RuntimeError)
                end
            end
      end
  end.

(** The whole loop: the iterator starts at position 0. *)
Definition resolve (search : nat -> string -> string -> result string)
    (clock : nat) (state : State) : State * list Call * result unit :=
  resolve_albums search (length (albums state)) 0 clock state.

(** ** Reporting *)

(** What the script prints, one constructor per [print] statement.  The
    two percentages are floating-point values in the script; a line keeps
    the two counts they are computed from. *)
Inductive Line : Type :=
  | GeneratingNewState
  | RegisteredFromSpotify (registered_album_count : nat)
  | NewlyPurchased (new_purchase_count : nat)
  | UnpurchasedUrl (bandcamp_url : string)
  | AlbumsRegistered (album_count : nat)
  | AlbumsPurchased (purchased_count : nat)
  | AlbumsFound (url_found_count url_not_found_count : nat)
  | NotSearched (count : nat)
  | PercentPurchased (purchased_count album_count : nat)
  | PercentNotFound (url_not_found_count album_count : nat).

Definition print_unpurchased (state : State) : list Line :=
  omap (fun album =>
          if negb (Album.purchased album) && Album.bandcamp_url_found album
          then Some (UnpurchasedUrl (Album.bandcamp_url album))
          else None)
       (Dict.values (albums state)).

(** The four counters of lines 160 to 171. *)
Definition count_album (counts : nat * nat * nat * nat) (album : Album.t)
    : nat * nat * nat * nat :=
  let '(album_count, purchased_count, url_found_count, url_searched_count) :=
    counts in
  (S album_count,
   if Album.purchased album then S purchased_count else purchased_count,
   if Album.bandcamp_url_found album then S url_found_count
   else url_found_count,
   if Album.bandcamp_url_searched album then S url_searched_count
   else url_searched_count).

(** [print_stats]: the lines printed, and whether an exception escaped.
    [a / b] raises [ZeroDivisionError] when [b] is 0, and the line being
    formatted is then not printed. *)
Definition print_stats (state : State) : list Line * result unit :=
  let '(album_count, purchased_count, url_found_count, url_searched_count) :=
    foldl count_album (0, 0, 0, 0) (Dict.values (albums state)) in
  let url_not_found_count := album_count - url_found_count in
  let printed :=
    [AlbumsRegistered album_count;
     AlbumsPurchased purchased_count;
     AlbumsFound url_found_count url_not_found_count;
     NotSearched (album_count - url_searched_count)] in
  match album_count with
  | 0 => (printed, Raise ZeroDivisionError)
  | S _ =>
      (printed ++ [PercentPurchased purchased_count album_count;
                   PercentNotFound url_not_found_count album_count],
       Ok tt)
  end.

(** ** The world outside the process

    The script reads environment variables and talks to four remote
    endpoints.  A world fixes the environment and what each endpoint
    answers; the first argument of an endpoint is the number of requests
    the process has made before, so answers may change over time.
    [valid_netloc] is the host validation of the installed [urllib]. *)

Inductive Request : Type :=
  | TokenRequest (app_id app_secret : string)
  | PlaylistRequest (token id : string)
  | SearchRequest (q : string)
  | CollectionRequest (username identity : string).

Record World : Type := {
  environ : gmap string string;
  valid_netloc : string -> bool;
  (** the [access_token] of the token endpoint's answer *)
  spotify_token : nat -> string -> string -> result string;
  (** [tracks.items] of the playlist endpoint's answer *)
  spotify_playlist : nat -> string -> string -> result (list Track);
  (** the [.searchresult] elements of the search page, each given by the
      [href] values of its [a[href]] elements *)
  bandcamp_search : nat -> string -> result (list (list string));
  (** the [.item-link] elements of the collection page, each given by its
      [href] attribute if it has one *)
  bandcamp_collection :
    nat -> string -> string -> result (list (option string))
}.

(** Lines 18 to 28.  The rate limit only delays the call. *)
Definition search_bandcamp_album_url (w : World) (clock : nat)
    (artist album : string) : result string :=
  search_results ← bandcamp_search w clock (artist +:+ " " +:+ album);
  match search_results with
  | [] => Ok ""
  | first :: _ =>
      match first with
      | [] => Raise IndexError
      | href :: _ =>
          link ← urllib.urlparse (valid_netloc w) href;
          Ok ("https://" +:+ urllib.netloc link +:+ urllib.path link)
      end
  end.

(** ** The process

    What a run has done so far: the document in memory, the requests sent
    and the lines printed.  The document is one mutable object that every
    function receives and returns, so it lives in the process state. *)

Record Process : Type := {
  doc : State;
  sent : list Request;
  printed : list Line
}.

Definition Prog (A : Type) : Type := Process -> Process * result A.

#[global] Instance prog_ret : MRet Prog := fun A a p => (p, Ok a).

#[global] Instance prog_bind : MBind Prog := fun A B k m p =>
  match m p with
  | (p', Ok a) => k a p'
  | (p', Raise e) => (p', Raise e)
  end.

Definition lift {A} (r : result A) : Prog A := fun p => (p, r).

(** [os.environ[name]] *)
Definition getenv (w : World) (name : string) : Prog string :=
  lift (match environ w !! name with
        | Some v => Ok v
        | None => Raise (KeyError name)
        end).

(** Send a request and read the answer the world gives at this time. *)
Definition request {A} (r : Request) (answer : nat -> result A) : Prog A :=
  fun p =>
    ({| doc := doc p; sent := sent p ++ [r]; printed := printed p |},
     answer (length (sent p))).

Definition print (lines : list Line) : Prog unit :=
  fun p =>
    ({| doc := doc p; sent := sent p; printed := printed p ++ lines |},
     Ok tt).

(** Run a loop over the document. *)
Definition on_doc {A} (f : State -> State * result A) : Prog A :=
  fun p =>
    let '(state, r) := f (doc p) in
    ({| doc := state; sent := sent p; printed := printed p |}, r).

Definition get_spotify_auth_token (w : World) : Prog string :=
  app_id ← getenv w "SPOTIFY_APP_ID";
  app_secret ← getenv w "SPOTIFY_APP_SECRET";
  request (TokenRequest app_id app_secret)
          (fun clock => spotify_token w clock app_id app_secret).

Definition get_spotify_playlist (w : World) (token id : string)
    : Prog (list Track) :=
  request (PlaylistRequest token id)
          (fun clock => spotify_playlist w clock token id).

Definition get_bandcamp_purchases (w : World) : Prog (list string) :=
  username ← getenv w "BANDCAMP_USERNAME";
  identity ← getenv w "BANDCAMP_TOKEN";
  items ← request (CollectionRequest username identity)
                  (fun clock => bandcamp_collection w clock username identity);
  mret (omap (fun href : option string => href) items).

Definition bandcamp_refresh_purchased (w : World) : Prog unit :=
  bandcamp_purchases ← get_bandcamp_purchases w;
  new_purchase_count ← on_doc (refresh bandcamp_purchases);
  print [NewlyPurchased new_purchase_count].

Definition request_of_call (c : Call) : Request :=
  SearchRequest (call_artist c +:+ " " +:+ call_album c).

(** Lines 129 to 147, with the requests of the calls it made. *)
Definition resolve_unsearched (w : World) : Prog unit :=
  fun p =>
    let '(state, calls, r) :=
      resolve (search_bandcamp_album_url w) (length (sent p)) (doc p) in
    ({| doc := state;
        sent := sent p ++ (request_of_call <$> calls);
        printed := printed p |},
     r).

Definition pull_spotify_playlist (w : World) (playlist_url : string)
    : Prog unit :=
  s_token ← get_spotify_auth_token w;
  parsed_playlist_url ← lift (urllib.urlparse (valid_netloc w) playlist_url);
  playlist ←
    get_spotify_playlist w s_token
      (path_tail (urllib.path parsed_playlist_url));
  registered_album_count ← on_doc (register playlist);
  print [RegisteredFromSpotify registered_album_count];;
  resolve_unsearched w;;
  bandcamp_refresh_purchased w.

(** The parsed command line. *)
Module cli_args.
Record t : Type := {
  playlist : option string;
  unpurchased : bool;
  stats : bool;
  refresh_purchased : bool
}.
End cli_args.

Definition load_state (file : option State) : State * list Line :=
  match file with
  | Some state => (state, [])
  | None => (new_state, [GeneratingNewState])
  end.

Definition when (b : bool) (m : Prog unit) : Prog unit :=
  if b then m else mret tt.

(** Lines 189 to 199. *)
Definition script (w : World) (args : cli_args.t) : Prog unit :=
  match cli_args.playlist args with
  | Some (String a url) => pull_spotify_playlist w (String a url)
  | _ => mret tt
  end;;
  when (cli_args.unpurchased args)
       (fun p => print (print_unpurchased (doc p)) p);;
  when (cli_args.stats args)
       (fun p =>
          let '(lines, r) := print_stats (doc p) in
          (print lines;; lift r) p);;
  when (cli_args.refresh_purchased args) (bandcamp_refresh_purchased w).

(** The whole run on the content of [state.json], if the file exists:
    the file afterwards, the requests sent, the lines printed, and how the
    run ended.  [dump_state] is the last statement, so the file is written
    only by a run that no exception ended. *)
Definition main (w : World) (args : cli_args.t) (file : option State)
    : option State * list Request * list Line * result unit :=
  let '(state, lines) := load_state file in
  let '(p, r) :=
    script w args {| doc := state; sent := []; printed := lines |} in
  (match r with Ok _ => Some (doc p) | Raise _ => file end,
   sent p, printed p, r).

(** ** Reachable states

    The three passes over the document.  A pass that an exception ends
    leaves the document as it was at that moment, which is a step too. *)

Inductive step : State -> State -> Prop :=
  | step_register playlist state :
      step state (register playlist state).1
  | step_resolve search clock state :
      step state (resolve search clock state).1.1
  | step_refresh bandcamp_purchases state :
      step state (refresh bandcamp_purchases state).1.

(** [evolves state state']: the passes can take [state] to [state']. *)
Inductive evolves (state : State) : State -> Prop :=
  | evolves_refl : evolves state state
  | evolves_step state' state'' :
      evolves state state' -> step state' state'' -> evolves state state''.

(** The states the script can build, starting without a state file. *)
Definition reachable (state : State) : Prop := evolves new_state state.

(** ** The properties of the data model *)

(** Every pair of the reverse index names a stored album with that
    address. *)
Definition reverse_index_consistent (state : State) : Prop :=
  ∀ url album_key,
    bandcamp_url_to_album_key state !! url = Some album_key →
    ∃ album, Dict.get album_key (albums state) = Some album
             ∧ Album.bandcamp_url album = url.

(** An album not searched yet is neither found nor purchased. *)
Definition unsearched_is_blank (state : State) : Prop :=
  ∀ album_key album,
    (album_key, album) ∈ albums state →
    Album.bandcamp_url_searched album = false →
    Album.bandcamp_url_found album = false
    ∧ Album.purchased album = false.

(** Two records that differ at most in [purchased]. *)
Definition same_but_purchased (a a' : Album.t) : Prop :=
  Album.set_purchased true a = Album.set_purchased true a'.

(** Two dictionaries with the same keys in the same order whose records
    differ at most in [purchased], which only goes from false to true. *)
Definition only_purchased_raised (d d' : list (string * Album.t)) : Prop :=
  Forall2 (fun x y =>
             x.1 = y.1 ∧ same_but_purchased x.2 y.2
             ∧ (Album.purchased x.2 = true → Album.purchased y.2 = true))
          d d'.

(** The purchase of [url] changes nothing in [state]: no album is stored
    for it, or the album is marked already. *)
Definition settled (url : string) (state : State) : Prop :=
  match bandcamp_url_to_album_key state !! url with
  | None => True
  | Some k =>
      ∃ a, Dict.get k (albums state) = Some a ∧ Album.purchased a = true
  end.

(** The record of [album] after lines 138 to 141, for the answer
    [bandcamp_url] of the search. *)
Definition resolved (bandcamp_url : string) (album : Album.t) : Album.t :=
  if String.eqb bandcamp_url "" then
    Album.set_bandcamp_url_searched true album
  else
    Album.set_bandcamp_url bandcamp_url
      (Album.set_bandcamp_url_found true
         (Album.set_bandcamp_url_searched true album)).

(** What the passes maintain together. *)
Record invariant (state : State) : Prop := {
  inv_nodup : NoDup (Dict.keys (albums state));
  inv_key : ∀ k a, Dict.get k (albums state) = Some a → Album.key a = k;
  inv_unsearched : ∀ k a,
    Dict.get k (albums state) = Some a →
    Album.bandcamp_url_searched a = false →
    Album.bandcamp_url_found a = false
    ∧ Album.purchased a = false
    ∧ Album.bandcamp_url a = "";
  inv_index : ∀ url k,
    bandcamp_url_to_album_key state !! url = Some k →
    ∃ a, Dict.get k (albums state) = Some a
         ∧ Album.bandcamp_url a = url
         ∧ Album.bandcamp_url_searched a = true
}.

(** The record line 112 builds for [track] whose first artist is
    [artist0]. *)
Definition new_album (track : Track) (artist0 : string) : Album.t :=
  {| Album.key := track_album_name track +:+ ":" +:+ track_album_id track;
     Album.id := track_album_id track;
     Album.name := track_album_name track;
     Album.artists := track_artists track;
     Album.purchased := false;
     Album.bandcamp_search_term :=
       artist0 +:+ " " +:+ track_album_name track;
     Album.bandcamp_url_found := false;
     Album.bandcamp_url_searched := false;
     Album.bandcamp_url := "" |}.

(** ** Links *)

(** The normalisation the specification describes: the link without its
    query string. *)
Definition strip_query (link : string) : string :=
  match Str.split1 "?" link with
  | Some (before, _) => before
  | None => link
  end.

(** A host of ASCII characters without delimiters, brackets, tabs or line
    breaks. *)
Definition plain_host (host : string) : bool :=
  Str.all (fun a => Str.is_ascii a && negb (urllib.unsafe_url_byte a)
                    && negb (Str.contains a "/?#[]")) host.

(** A path that is empty or starts with a slash, without query, fragment
    or parameter delimiters, tabs or line breaks. *)
Definition plain_path (path : string) : bool :=
  match path with EmptyString => true | String a _ => Ascii.eqb a "/" end
  && Str.all (fun a => negb (urllib.unsafe_url_byte a)
                       && negb (Str.contains a "?#;")) path.

(** ** Configuration *)

(** The environment variables the script reads. *)
Definition spotify_variables : list string :=
  ["SPOTIFY_APP_ID"; "SPOTIFY_APP_SECRET"].

Definition bandcamp_variables : list string :=
  ["BANDCAMP_USERNAME"; "BANDCAMP_TOKEN"].

Definition missing (w : World) (names : list string) : Prop :=
  ∃ name, name ∈ names ∧ environ w !! name = None.

(** A run fails fast on its configuration: it ends with the error of a
    variable that is not set, and has sent no request. *)
Definition fails_fast (w : World) (args : cli_args.t) (file : option State)
    : Prop :=
  let '(_, requests, _, r) := main w args file in
  requests = []
  ∧ ∃ name, r = Raise (KeyError name) ∧ environ w !! name = None.

(** ** The resolver loop, case by case *)

(** Lines 129 to 132: the albums not searched yet, counted for the total of
    the progress bar. *)
Definition count_unsearched (l : list Album.t) : nat :=
  foldl (fun unsearched_count album =>
           if Album.bandcamp_url_searched album then unsearched_count
           else S unsearched_count) 0 l.

Definition unsearched_count (state : State) : nat :=
  count_unsearched (Dict.values (albums state)).

(** The state after lines 138 to 144 when the album is stored under its
    own key [k]. *)
Definition after_search (k : string) (album : Album.t) (url : string)
    (state : State) : State :=
  {| albums := Dict.set k (resolved url album) (albums state);
     bandcamp_url_to_album_key :=
       if String.eqb url "" then bandcamp_url_to_album_key state
       else <[url := k]> (bandcamp_url_to_album_key state) |}.

(** The call the loop makes for [album], stored under [k]. *)
Definition call_of (k : string) (album : Album.t) (artist0 : string)
    (answer : result string) : Call :=
  {| call_key := k; call_artist := artist0; call_album := Album.name album;
     call_answer := answer |}.

(** What a run of the loop from position [i] leaves behind. *)
Definition resolve_effect (i : nat) (state : State)
    (out : State * list Call * result unit) : Prop :=
  let '(state', calls, r) := out in
  Dict.keys (albums state') = Dict.keys (albums state)
  ∧ invariant state'
  ∧ (∀ u, is_Some (bandcamp_url_to_album_key state !! u) →
          is_Some (bandcamp_url_to_album_key state' !! u))
  ∧ (∀ k a, Dict.get k (albums state) = Some a →
       ∃ a', Dict.get k (albums state') = Some a'
             ∧ (a' = a
                ∨ (Album.bandcamp_url_searched a = false
                   ∧ ∃ url, a' = resolved url a
                            ∧ (url ≠ "" →
                               is_Some (bandcamp_url_to_album_key state'
                                          !! url)))))
  ∧ (r = Ok tt →
     ∀ j k a, i ≤ j → albums state' !! j = Some (k, a) →
              Album.bandcamp_url_searched a = true).

(** The calls of a run of the loop from position [i] and how it ends. *)
Definition resolve_calls (i : nat) (state : State)
    (out : State * list Call * result unit) : Prop :=
  let '(state', calls, r) := out in
  length calls ≤ count_unsearched (Dict.values (drop i (albums state)))
  ∧ (r = Ok tt →
     length calls = count_unsearched (Dict.values (drop i (albums state))))
  ∧ (∀ c, c ∈ calls →
       ∃ a others, Dict.get (call_key c) (albums state) = Some a
                   ∧ Album.artists a = call_artist c :: others
                   ∧ Album.name a = call_album c)
  ∧ match r with
    | Ok _ => True
    | Raise e =>
        (e = IndexError
         ∧ ∃ k a, Dict.get k (albums state) = Some a
                  ∧ Album.artists a = [])
        ∨ (∃ c, c ∈ calls ∧ call_answer c = Raise e)
    end.

(** ** More of what the passes maintain *)

(** How the records of a reachable state hang together. *)
Record shaped (state : State) : Prop := {
  shape_key : ∀ k a,
    Dict.get k (albums state) = Some a →
    k = Album.name a +:+ ":" +:+ Album.id a;
  shape_artists : ∀ k a,
    Dict.get k (albums state) = Some a →
    ∃ artist0 others,
      Album.artists a = artist0 :: others
      ∧ Album.bandcamp_search_term a = artist0 +:+ " " +:+ Album.name a;
  shape_found : ∀ k a,
    Dict.get k (albums state) = Some a →
    Album.bandcamp_url_found a = true →
    Album.bandcamp_url a ≠ ""
    ∧ is_Some (bandcamp_url_to_album_key state !! Album.bandcamp_url a);
  shape_not_found : ∀ k a,
    Dict.get k (albums state) = Some a →
    Album.bandcamp_url_found a = false →
    Album.bandcamp_url a = "" ∧ Album.purchased a = false;
  shape_index : ∀ url k,
    bandcamp_url_to_album_key state !! url = Some k →
    ∃ a, Dict.get k (albums state) = Some a
         ∧ Album.bandcamp_url_found a = true
}.

(** The albums accepted by [p], as [print_stats] counts them. *)
Fixpoint count_where (p : Album.t → bool) (l : list Album.t) : nat :=
  match l with
  | [] => 0
  | a :: l => (if p a then 1 else 0) + count_where p l
  end.

(** What a later state keeps of a record: the fields set at creation, a
    purchase, and the outcome of a search. *)
Definition carried (a a' : Album.t) : Prop :=
  Album.key a' = Album.key a
  ∧ Album.id a' = Album.id a
  ∧ Album.name a' = Album.name a
  ∧ Album.artists a' = Album.artists a
  ∧ Album.bandcamp_search_term a' = Album.bandcamp_search_term a
  ∧ (Album.purchased a = true → Album.purchased a' = true)
  ∧ (Album.bandcamp_url_searched a = true →
     Album.bandcamp_url_searched a' = true
     ∧ Album.bandcamp_url_found a' = Album.bandcamp_url_found a
     ∧ Album.bandcamp_url a' = Album.bandcamp_url a).

(** The address [url] is stored for the album under [k]: it is the
    [bandcamp_url] of the record, which is marked searched and found, and
    the reverse index leads from it to an album with this address. *)
Definition stored_for (url k : string) (state : State) : Prop :=
  (∃ a, Dict.get k (albums state) = Some a
        ∧ Album.bandcamp_url a = url
        ∧ Album.bandcamp_url_found a = true
        ∧ Album.bandcamp_url_searched a = true)
  ∧ ∃ k' a', bandcamp_url_to_album_key state !! url = Some k'
             ∧ Dict.get k' (albums state) = Some a'
             ∧ Album.bandcamp_url a' = url.

(** ** Dictionaries *)

Section dict_facts.
Context {V : Type}.
Implicit Types (d : list (string * V)) (k : string) (v : V).

Lemma eqb_decide k k' : String.eqb k k' = bool_decide (k = k').
Proof.
  destruct (String.eqb_spec k k');
    [by rewrite bool_decide_eq_true_2 | by rewrite bool_decide_eq_false_2].
Qed.

Lemma get_set d k k' v :
  Dict.get k' (Dict.set k v d) = if decide (k = k') then Some v
                                 else Dict.get k' d.
Proof.
  induction d as [|[k0 v0] d IH]; simpl.
  - rewrite eqb_decide. by repeat case_decide; case_bool_decide.
  - destruct (String.eqb_spec k0 k) as [->|Hk0]; simpl.
    + destruct (String.eqb_spec k k'); by case_decide.
    + rewrite IH. destruct (String.eqb_spec k0 k');
        by case_decide; subst.
Qed.

Lemma get_set_eq d k v : Dict.get k (Dict.set k v d) = Some v.
Proof. rewrite get_set. by case_decide. Qed.

Lemma get_set_ne d k k' v :
  k ≠ k' → Dict.get k' (Dict.set k v d) = Dict.get k' d.
Proof. intros. rewrite get_set. by case_decide. Qed.

Lemma get_None d k : Dict.get k d = None ↔ k ∉ Dict.keys d.
Proof.
  unfold Dict.keys. induction d as [|[k0 v0] d IH]; simpl.
  - split; [intros _; apply not_elem_of_nil | done].
  - rewrite not_elem_of_cons, <- IH.
    destruct (String.eqb_spec k0 k) as [->|Hne]; split.
    + done.
    + by intros [? _].
    + intros Hg. split; [congruence | done].
    + by intros [_ ?].
Qed.

Lemma get_Some_elem_of d k v : Dict.get k d = Some v → (k, v) ∈ d.
Proof.
  induction d as [|[k0 v0] d IH]; simpl; [done|].
  destruct (String.eqb_spec k0 k) as [->|]; intros Hg.
  - injection Hg as ->. apply elem_of_cons; by left.
  - apply elem_of_cons; right; auto.
Qed.

Lemma elem_of_get d k v :
  NoDup (Dict.keys d) → (k, v) ∈ d → Dict.get k d = Some v.
Proof.
  unfold Dict.keys. induction d as [|[k0 v0] d IH]; simpl.
  - intros _ Hin. by apply elem_of_nil in Hin.
  - intros Hnd Hin. apply NoDup_cons in Hnd as [Hk0 Hnd].
    apply elem_of_cons in Hin as [Heq|Hin].
    + injection Heq as -> ->. by rewrite String.eqb_refl.
    + destruct (String.eqb_spec k0 k) as [->|]; [|auto].
      destruct Hk0. apply (list_elem_of_fmap_2 fst) in Hin. done.
Qed.

Lemma lookup_get d i k v :
  NoDup (Dict.keys d) → d !! i = Some (k, v) → Dict.get k d = Some v.
Proof.
  intros Hnd Hi. apply elem_of_get; [done|].
  apply list_elem_of_lookup; eauto.
Qed.

Lemma keys_set_present d k v :
  is_Some (Dict.get k d) → Dict.keys (Dict.set k v d) = Dict.keys d.
Proof.
  unfold Dict.keys. induction d as [|[k0 v0] d IH]; simpl.
  - by intros [? ?].
  - destruct (String.eqb_spec k0 k) as [->|]; simpl; [done|].
    intros Hs. f_equal. by apply IH.
Qed.

Lemma set_absent d k v : Dict.get k d = None → Dict.set k v d = d ++ [(k, v)].
Proof.
  induction d as [|[k0 v0] d IH]; simpl; [done|].
  destruct (String.eqb_spec k0 k); [done|]. intros Hg. by rewrite IH.
Qed.

Lemma length_set_present d k v :
  is_Some (Dict.get k d) → length (Dict.set k v d) = length d.
Proof.
  intros Hs. rewrite <- (length_fmap fst (Dict.set k v d)).
  fold (Dict.keys (Dict.set k v d)). rewrite keys_set_present by done.
  apply length_fmap.
Qed.

Lemma set_id d k v : Dict.get k d = Some v → Dict.set k v d = d.
Proof.
  induction d as [|[k0 v0] d IH]; simpl; [done|].
  destruct (String.eqb_spec k0 k) as [->|].
  - by intros [= ->].
  - intros Hg. by rewrite IH.
Qed.

Lemma set_set d k v v' : Dict.set k v (Dict.set k v' d) = Dict.set k v d.
Proof.
  induction d as [|[k0 v0] d IH]; simpl.
  - by rewrite String.eqb_refl.
  - destruct (String.eqb_spec k0 k) as [->|Hne]; simpl.
    + by rewrite String.eqb_refl.
    + destruct (String.eqb_spec k0 k); [done|]. by rewrite IH.
Qed.

(** Changing the item at a position of a well-formed dictionary is a
    store under its key. *)
Lemma insert_set d i k v v' :
  NoDup (Dict.keys d) → d !! i = Some (k, v) →
  <[i := (k, v')]> d = Dict.set k v' d.
Proof.
  unfold Dict.keys. revert i.
  induction d as [|[k0 v0] d IH]; intros i Hnd Hi; [done|].
  apply NoDup_cons in Hnd as [Hk0 Hnd]. destruct i as [|i]; simpl in *.
  - injection Hi as -> ->. by rewrite String.eqb_refl.
  - destruct (String.eqb_spec k0 k) as [->|].
    + destruct Hk0. apply list_elem_of_lookup_2 in Hi.
      by apply (list_elem_of_fmap_2 fst) in Hi.
    + f_equal. by apply IH.
Qed.

End dict_facts.

(** ** The purchase reconciler *)

Lemma mark_purchased_cases url state n :
  (bandcamp_url_to_album_key state !! url = None
   ∧ mark_purchased url state n = (state, Ok n))
  ∨ (∃ k, bandcamp_url_to_album_key state !! url = Some k
          ∧ Dict.get k (albums state) = None
          ∧ mark_purchased url state n = (state, Raise (KeyError k)))
  ∨ (∃ k a, bandcamp_url_to_album_key state !! url = Some k
            ∧ Dict.get k (albums state) = Some a
            ∧ Album.purchased a = true
            ∧ mark_purchased url state n = (state, Ok n))
  ∨ (∃ k a, bandcamp_url_to_album_key state !! url = Some k
            ∧ Dict.get k (albums state) = Some a
            ∧ Album.purchased a = false
            ∧ mark_purchased url state n =
                (set_albums
                   (Dict.set k (Album.set_purchased true a) (albums state))
                   state,
                 Ok (S n))).
Proof.
  unfold mark_purchased.
  destruct (bandcamp_url_to_album_key state !! url) as [k|]; [|by left].
  destruct (Dict.get k (albums state)) as [a|] eqn:Hget;
    [|right; left; eauto].
  destruct (Album.purchased a) eqn:Hp.
  - right; right; left. by exists k, a.
  - right; right; right. by exists k, a.
Qed.

Lemma settled_mark_purchased url state n :
  settled url state → mark_purchased url state n = (state, Ok n).
Proof.
  unfold settled, mark_purchased.
  destruct (bandcamp_url_to_album_key state !! url) as [k|]; [|done].
  intros (a & -> & ->). done.
Qed.

Lemma mark_purchased_settles url state n state' m :
  mark_purchased url state n = (state', Ok m) → settled url state'.
Proof.
  unfold settled.
  destruct (mark_purchased_cases url state n)
    as [[Hi ->]|[(k & Hi & Hg & ->)|[(k & a & Hi & Hg & Hp & ->)
                                    |(k & a & Hi & Hg & Hp & ->)]]];
    intros [= <- <-]; simpl; rewrite Hi; [done|eauto|].
  exists (Album.set_purchased true a). by rewrite get_set_eq.
Qed.

Lemma mark_purchased_keeps_settled url u state n state' r :
  settled url state → mark_purchased u state n = (state', r) →
  settled url state'.
Proof.
  intros Hs.
  destruct (mark_purchased_cases u state n)
    as [[Hi ->]|[(k & Hi & Hg & ->)|[(k & a & Hi & Hg & Hp & ->)
                                    |(k & a & Hi & Hg & Hp & ->)]]];
    intros [= <- <-]; try done.
  unfold settled in *; simpl.
  destruct (bandcamp_url_to_album_key state !! url) as [k'|]; [|done].
  destruct Hs as (a' & Hg' & Hp'). rewrite get_set. case_decide; subst.
  - by exists (Album.set_purchased true a).
  - by exists a'.
Qed.

Lemma mark_purchases_keeps_settled url bandcamp_purchases :
  ∀ state n state' r,
    settled url state →
    mark_purchases bandcamp_purchases state n = (state', r) →
    settled url state'.
Proof.
  induction bandcamp_purchases as [|u rest IH]; simpl; intros state n state' r Hs.
  - by intros [= <- <-].
  - destruct (mark_purchased u state n) as [state1 [n1|e]] eqn:Hstep.
    + apply IH. eapply mark_purchased_keeps_settled; eauto.
    + intros [= <- <-]. eapply mark_purchased_keeps_settled; eauto.
Qed.

(** A second pass over the same list repeats nothing and stops where the
    first one stopped. *)
Lemma mark_purchases_again bandcamp_purchases :
  ∀ state n state' r,
    mark_purchases bandcamp_purchases state n = (state', r) →
    ∀ n', mark_purchases bandcamp_purchases state' n'
          = (state', match r with Ok _ => Ok n' | Raise e => Raise e end).
Proof.
  induction bandcamp_purchases as [|u rest IH]; simpl; intros state n state' r.
  - by intros [= <- <-].
  - destruct (mark_purchased u state n) as [state1 [n1|e]] eqn:Hstep.
    + intros Hrest n'.
      rewrite (settled_mark_purchased u state' n'); [by eapply IH|].
      eapply mark_purchases_keeps_settled; [|done].
      by eapply mark_purchased_settles.
    + intros [= <- <-] n'.
      destruct (mark_purchased_cases u state n)
        as [[Hi He]|[(k & Hi & Hg & He)|[(k & a & Hi & Hg & Hp & He)
                                        |(k & a & Hi & Hg & Hp & He)]]];
        rewrite He in Hstep; try done.
      injection Hstep as <- <-. unfold mark_purchased. by rewrite Hi, Hg.
Qed.

(** C1: running the purchase reconciler again on the state the first run
    left, with the same purchase list, leaves that state as it is and counts
    0 newly purchased albums; a run that a [KeyError] ended stops again at
    the same place, also without changing the state. *)
Theorem refresh_idempotent (bandcamp_purchases : list string) (state : State) :
  let '(state', r) := refresh bandcamp_purchases state in
  refresh bandcamp_purchases state'
  = (state', match r with Ok _ => Ok 0 | Raise e => Raise e end).
Proof.
  unfold refresh.
  destruct (mark_purchases bandcamp_purchases state 0) as [state' r] eqn:Hrun.
  by eapply mark_purchases_again.
Qed.

Lemma only_purchased_raised_refl d : only_purchased_raised d d.
Proof. apply Forall2_same_length_lookup_2; [done|]. by intros i x y -> [= ->]. Qed.

Lemma only_purchased_raised_trans d1 d2 d3 :
  only_purchased_raised d1 d2 → only_purchased_raised d2 d3 →
  only_purchased_raised d1 d3.
Proof.
  unfold only_purchased_raised, same_but_purchased. intros H12 H23.
  eapply Forall2_trans; [|done..]. simpl.
  intros x y z (-> & -> & Hxy) (-> & -> & Hyz). auto.
Qed.

Lemma only_purchased_raised_keys d d' :
  only_purchased_raised d d' → Dict.keys d' = Dict.keys d.
Proof.
  unfold Dict.keys. induction 1 as [|x y d d' (Hk & _) _ IH]; [done|].
  rewrite !fmap_cons. by rewrite Hk, IH.
Qed.

Lemma set_purchased_raises d k a :
  Dict.get k d = Some a →
  only_purchased_raised d (Dict.set k (Album.set_purchased true a) d).
Proof.
  induction d as [|[k0 a0] d IH]; simpl; [done|].
  destruct (String.eqb_spec k0 k) as [->|].
  - intros [= ->]. constructor; [done|apply only_purchased_raised_refl].
  - intros Hg. constructor; [done|by apply IH].
Qed.

Lemma mark_purchased_frame url state n :
  bandcamp_url_to_album_key (mark_purchased url state n).1
  = bandcamp_url_to_album_key state
  ∧ only_purchased_raised (albums state)
                          (albums (mark_purchased url state n).1).
Proof.
  destruct (mark_purchased_cases url state n)
    as [[Hi ->]|[(k & Hi & Hg & ->)|[(k & a & Hi & Hg & Hp & ->)
                                    |(k & a & Hi & Hg & Hp & ->)]]];
    simpl; (split; [done|]);
    [apply only_purchased_raised_refl..|by apply set_purchased_raises].
Qed.

Lemma mark_purchases_frame bandcamp_purchases :
  ∀ state n,
    bandcamp_url_to_album_key (mark_purchases bandcamp_purchases state n).1
    = bandcamp_url_to_album_key state
    ∧ only_purchased_raised
        (albums state)
        (albums (mark_purchases bandcamp_purchases state n).1).
Proof.
  induction bandcamp_purchases as [|u rest IH]; simpl; intros state n.
  - split; [done|apply only_purchased_raised_refl].
  - destruct (mark_purchased_frame u state n) as [Hi Hf].
    destruct (mark_purchased u state n) as [state1 [n1|e]]; simpl in *; [|done].
    destruct (IH state1 n1) as [Hi' Hf']. split; [congruence|].
    by eapply only_purchased_raised_trans.
Qed.

Lemma mark_purchases_app before after :
  ∀ state n,
    mark_purchases (before ++ after) state n
    = match mark_purchases before state n with
      | (state', Ok n') => mark_purchases after state' n'
      | (state', Raise e) => (state', Raise e)
      end.
Proof.
  induction before as [|u rest IH]; simpl; intros state n; [done|].
  destruct (mark_purchased u state n) as [state1 [n1|e]]; [apply IH|done].
Qed.

(** C9: the purchase reconciler changes nothing but [purchased] fields,
    and those only from false to true: the reverse index, the keys of the
    albums and their order, and every other field of every record stay as
    they were; and a purchased address that the reverse index does not
    hold can be struck from the purchase list without changing the
    outcome. *)
Theorem refresh_frame (bandcamp_purchases : list string) (state : State) :
  let state' := (refresh bandcamp_purchases state).1 in
  bandcamp_url_to_album_key state' = bandcamp_url_to_album_key state
  ∧ Dict.keys (albums state') = Dict.keys (albums state)
  ∧ only_purchased_raised (albums state) (albums state')
  ∧ ∀ before url after,
      bandcamp_purchases = before ++ url :: after →
      bandcamp_url_to_album_key state !! url = None →
      refresh bandcamp_purchases state = refresh (before ++ after) state.
Proof.
  unfold refresh.
  destruct (mark_purchases_frame bandcamp_purchases state 0) as [Hi Hf].
  repeat split; [done|by apply only_purchased_raised_keys|done|].
  intros before url after -> Hurl. rewrite !mark_purchases_app.
  destruct (mark_purchases_frame before state 0) as [Hi' _].
  destruct (mark_purchases before state 0) as [state1 [n1|e]]; [|done].
  simpl in *. unfold mark_purchased. by rewrite Hi', Hurl.
Qed.

Lemma refresh_frame_witness :
  let state :=
    {| albums := [("X:1", new_album {| track_artists := ["A"];
                                       track_album_id := "1";
                                       track_album_name := "X" |} "A")];
       bandcamp_url_to_album_key := ∅ |} in
  refresh ["u"] state = refresh [] state.
Proof.
  intros state.
  destruct (refresh_frame ["u"] state) as (_ & _ & _ & H).
  apply (H [] "u" []); reflexivity.
Defined.

(** ** The playlist importer *)

Lemma mem_false {V} (d : list (string * V)) k :
  Dict.mem k d = false ↔ Dict.get k d = None.
Proof. unfold Dict.mem. by destruct (Dict.get k d). Qed.

Lemma register_track_cases track state n :
  (Dict.mem (album_key_of track) (albums state) = true
   ∧ register_track track state n = (state, Ok n))
  ∨ (Dict.mem (album_key_of track) (albums state) = false
     ∧ track_artists track = []
     ∧ register_track track state n = (state, Raise IndexError))
  ∨ (∃ artist0 others,
       Dict.mem (album_key_of track) (albums state) = false
       ∧ track_artists track = artist0 :: others
       ∧ register_track track state n =
           (set_albums
              (Dict.set (album_key_of track) (new_album track artist0)
                 (albums state))
              state,
            Ok (S n))).
Proof.
  unfold register_track.
  destruct (Dict.mem (album_key_of track) (albums state)); [by left|].
  destruct (track_artists track) as [|artist0 others] eqn:Ha;
    [right; left; done|].
  right; right. exists artist0, others. unfold new_album. by rewrite Ha.
Qed.

Lemma register_track_keeps track state n k a :
  Dict.get k (albums state) = Some a →
  Dict.get k (albums (register_track track state n).1) = Some a.
Proof.
  intros Hg.
  destruct (register_track_cases track state n)
    as [[_ ->]|[(_ & _ & ->)|(artist0 & others & Hm & _ & ->)]]; simpl;
    [done..|].
  rewrite get_set_ne; [done|]. apply mem_false in Hm. congruence.
Qed.

Lemma register_albums_keeps playlist :
  ∀ state n k a,
    Dict.get k (albums state) = Some a →
    Dict.get k (albums (register_albums playlist state n).1) = Some a.
Proof.
  induction playlist as [|track rest IH]; simpl; intros state n k a Hg; [done|].
  pose proof (register_track_keeps track state n k a Hg) as Hstep.
  destruct (register_track track state n) as [state1 [n1|e]]; simpl in *;
    [by apply IH|done].
Qed.

Lemma register_albums_app before after :
  ∀ state n,
    register_albums (before ++ after) state n
    = match register_albums before state n with
      | (state', Ok n') => register_albums after state' n'
      | (state', Raise e) => (state', Raise e)
      end.
Proof.
  induction before as [|track rest IH]; simpl; intros state n; [done|].
  destruct (register_track track state n) as [state1 [n1|e]]; [apply IH|done].
Qed.

(** Tracks of albums other than [k] leave [k] out of the store. *)
Lemma register_albums_absent playlist k :
  ∀ state n,
    Dict.get k (albums state) = None →
    Forall (fun track => album_key_of track ≠ k) playlist →
    Dict.get k (albums (register_albums playlist state n).1) = None.
Proof.
  induction playlist as [|track rest IH]; simpl; intros state n Hg Hall; [done|].
  apply Forall_cons in Hall as [Hne Hall].
  assert (Dict.get k (albums (register_track track state n).1) = None) as Hstep.
  { destruct (register_track_cases track state n)
      as [[_ ->]|[(_ & _ & ->)|(artist0 & others & _ & _ & ->)]]; simpl;
      [done..|]. by rewrite get_set_ne. }
  destruct (register_track track state n) as [state1 [n1|e]]; simpl in *;
    [by apply IH|done].
Qed.

(** C7: a track whose album key is not in the store makes the importer
    store, under the key name:id, a record with [purchased],
    [bandcamp_url_searched] and [bandcamp_url_found] false, an empty
    [bandcamp_url], and the first artist, a space and the album name as
    [bandcamp_search_term]; a completed import of a playlist has stored
    that record for the first track of every album the store did not have.
    Importing album X with id 1 by artist A into the empty store gives
    [albums["X:1"]] with search term "A X", not purchased. *)
Theorem register_creates_album (track : Track) (state : State) (n : nat)
    (artist0 : string) (others : list string) :
  Dict.mem (track_album_name track +:+ ":" +:+ track_album_id track)
           (albums state) = false →
  track_artists track = artist0 :: others →
  (∃ state' album,
      register_track track state n = (state', Ok (S n))
      ∧ Dict.get (track_album_name track +:+ ":" +:+ track_album_id track)
                 (albums state') = Some album
      ∧ album = new_album track artist0
      ∧ Album.purchased album = false
      ∧ Album.bandcamp_url_searched album = false
      ∧ Album.bandcamp_url_found album = false
      ∧ Album.bandcamp_url album = ""
      ∧ Album.bandcamp_search_term album
        = artist0 +:+ " " +:+ track_album_name track)
  ∧ (∀ before after state' m,
        Forall (fun t => album_key_of t ≠ album_key_of track) before →
        register (before ++ track :: after) state = (state', Ok m) →
        Dict.get (track_album_name track +:+ ":" +:+ track_album_id track)
                 (albums state') = Some (new_album track artist0)).
Proof.
  intros Hmem Hartists. fold (album_key_of track) in *.
  destruct (register_track_cases track) with (state := state) (n := n)
    as [[Hm _]|[(_ & Ha & _)|(a0 & os & _ & Ha & Hstep)]]; [congruence..|].
  rewrite Hartists in Ha. injection Ha as <- <-. split.
  - eexists _, _. split; [done|]. simpl. by rewrite get_set_eq.
  - unfold register. intros before after state' m Hbefore.
    rewrite register_albums_app.
    pose proof (register_albums_absent before (album_key_of track) state 0
                  (proj1 (mem_false _ _) Hmem) Hbefore) as Habsent.
    destruct (register_albums before state 0) as [state1 [n1|e]]; [|done].
    simpl in *.
    destruct (register_track_cases track state1 n1)
      as [[Hm _]|[(_ & Ha & _)|(a0 & os & _ & Ha & ->)]].
    + apply mem_false in Habsent. congruence.
    + congruence.
    + rewrite Hartists in Ha. injection Ha as <- <-. intros Hrest.
      pose proof (register_albums_keeps after
                    (set_albums
                       (Dict.set (album_key_of track)
                          (new_album track artist0) (albums state1)) state1)
                    (S n1) (album_key_of track) (new_album track artist0))
        as Hkeep.
      rewrite Hrest in Hkeep. apply Hkeep. simpl. apply get_set_eq.
Qed.

Lemma register_creates_album_witness :
  let track := {| track_artists := ["A"]; track_album_id := "1";
                  track_album_name := "X" |} in
  ∃ state' album,
    register [track] new_state = (state', Ok 1)
    ∧ Dict.get "X:1" (albums state') = Some album
    ∧ Album.bandcamp_search_term album = "A X"
    ∧ Album.purchased album = false.
Proof.
  intros track.
  destruct (register_creates_album track new_state 0 "A" [])
    as [(state' & album & Hstep & Hget & _ & Hp & _ & _ & _ & Hterm) _];
    [reflexivity..|].
  exists state', album. unfold register. cbn [register_albums].
  rewrite Hstep. repeat split; [exact Hget | exact Hterm | exact Hp].
Defined.

(** C10: a track without artists whose album key is not in the store makes
    the importer raise [IndexError] at [artists[0]]; the store stays as it
    was when the track was reached, so the album is not registered, and the
    tracks after it are not looked at. *)
Theorem register_without_artist (track : Track) (state : State) (n : nat) :
  track_artists track = [] →
  Dict.mem (album_key_of track) (albums state) = false →
  register_track track state n = (state, Raise IndexError)
  ∧ ∀ before after state0 n0,
      register_albums before state0 n0 = (state, Ok n) →
      register_albums (before ++ track :: after) state0 n0
      = (state, Raise IndexError)
      ∧ Dict.mem (album_key_of track)
                 (albums (register_albums (before ++ track :: after)
                            state0 n0).1) = false.
Proof.
  intros Ha Hm.
  assert (register_track track state n = (state, Raise IndexError)) as Hstep.
  { unfold register_track. by rewrite Hm, Ha. }
  split; [done|]. intros before after state0 n0 Hbefore.
  rewrite register_albums_app, Hbefore. simpl. by rewrite Hstep.
Qed.

Lemma register_without_artist_witness :
  let track := {| track_artists := []; track_album_id := "1";
                  track_album_name := "X" |} in
  register [track] new_state = (new_state, Raise IndexError).
Proof.
  intros track.
  destruct (register_without_artist track new_state 0) as [_ H];
    [reflexivity..|].
  apply (H [] [] new_state 0). reflexivity.
Defined.

(** ** The marketplace resolver *)

Lemma resolved_key url a : Album.key (resolved url a) = Album.key a.
Proof. unfold resolved. by destruct (String.eqb url ""). Qed.

Lemma resolved_searched url a :
  Album.bandcamp_url_searched (resolved url a) = true.
Proof. unfold resolved. by destruct (String.eqb url ""). Qed.

Lemma resolved_url url a :
  url ≠ "" → Album.bandcamp_url (resolved url a) = url.
Proof.
  unfold resolved. destruct (String.eqb_spec url ""); [done|]. by intros _.
Qed.

(** In a state that satisfies the invariant the album met at position [i]
    is stored under its own key, so line 144 stores it where it is. *)
Lemma store_search_result_invariant state i k album url :
  invariant state → albums state !! i = Some (k, album) →
  store_search_result i k album url state
  = {| albums := Dict.set k (resolved url album) (albums state);
       bandcamp_url_to_album_key :=
         if String.eqb url "" then bandcamp_url_to_album_key state
         else <[url := k]> (bandcamp_url_to_album_key state) |}.
Proof.
  intros Hinv Hi.
  pose proof (lookup_get _ _ _ _ (inv_nodup _ Hinv) Hi) as Hget.
  pose proof (inv_key _ Hinv _ _ Hget) as Hkey.
  unfold store_search_result, resolved.
  destruct (String.eqb url ""); simpl; rewrite Hkey;
    by rewrite (insert_set _ _ _ _ _ (inv_nodup _ Hinv) Hi), set_set.
Qed.

Lemma store_search_result_step state i k album url :
  invariant state → albums state !! i = Some (k, album) →
  Album.bandcamp_url_searched album = false →
  let state' := store_search_result i k album url state in
  invariant state'
  ∧ length (albums state') = length (albums state)
  ∧ Dict.get k (albums state) = Some album
  ∧ Dict.get k (albums state') = Some (resolved url album)
  ∧ ∀ k', k' ≠ k → Dict.get k' (albums state') = Dict.get k' (albums state).
Proof.
  intros Hinv Hi Hunsearched.
  pose proof (lookup_get _ _ _ _ (inv_nodup _ Hinv) Hi) as Hget.
  rewrite store_search_result_invariant by done. simpl.
  assert (∀ k', k' ≠ k →
            Dict.get k' (Dict.set k (resolved url album) (albums state))
            = Dict.get k' (albums state)) as Hother.
  { intros k' Hk'. by rewrite get_set_ne. }
  assert (∀ u k', bandcamp_url_to_album_key state !! u = Some k' →
            ∃ a, Dict.get k' (Dict.set k (resolved url album) (albums state))
                 = Some a
                 ∧ Album.bandcamp_url a = u
                 ∧ Album.bandcamp_url_searched a = true) as Hold.
  { intros u k' Hu. destruct (inv_index _ Hinv _ _ Hu) as (a & Ha & Hurl & Hs).
    exists a. rewrite Hother; [done|]. intros ->. congruence. }
  split; [constructor; simpl|split_and!; simpl].
  - rewrite keys_set_present; [apply (inv_nodup _ Hinv)|eauto].
  - intros k' a'. rewrite get_set. case_decide as Hk; subst.
    + intros [= <-]. rewrite resolved_key. by apply (inv_key _ Hinv).
    + apply (inv_key _ Hinv).
  - intros k' a'. rewrite get_set. case_decide as Hk; subst.
    + intros [= <-]. by rewrite resolved_searched.
    + apply (inv_unsearched _ Hinv).
  - intros u k'. destruct (String.eqb_spec url "") as [->|Hurl];
      [by apply Hold|].
    rewrite lookup_insert. case_decide as Hu; [|by apply Hold].
    intros [= <-]. subst u. exists (resolved url album).
    by rewrite get_set_eq, resolved_url, resolved_searched.
  - apply length_set_present. eauto.
  - done.
  - apply get_set_eq.
  - done.
Qed.

(** The bound on the positions is never what ends the loop: any bound that
    reaches the end of the dictionary gives the same run. *)
Lemma resolve_albums_fuel search :
  ∀ fuel fuel' i clock state,
    length (albums state) ≤ i + fuel →
    length (albums state) ≤ i + fuel' →
    resolve_albums search fuel i clock state
    = resolve_albums search fuel' i clock state.
Proof.
  induction fuel as [|fuel IH]; intros fuel' i clock state Hfuel Hfuel'.
  - destruct fuel' as [|fuel']; simpl; [done|].
    rewrite (lookup_ge_None_2 (albums state) i) by lia. done.
  - destruct fuel' as [|fuel']; simpl.
    + rewrite (lookup_ge_None_2 (albums state) i) by lia. done.
    + destruct (albums state !! i) as [[k album]|]; [|done].
      destruct (Album.bandcamp_url_searched album); [apply IH; lia|].
      destruct (Album.artists album) as [|artist0 ?]; [done|].
      destruct (search clock artist0 (Album.name album)) as [url|e]; [|done].
      destruct (Nat.eqb_spec
                  (length (albums (store_search_result i k album url state)))
                  (length (albums state))) as [Hlen|]; [|done].
      rewrite (IH fuel' (S i) (S clock)); [done|lia..].
Qed.

(** The loop ended where it stood, without a call. *)
Ltac no_call :=
  intros [= <- <- <-];
  split_and!; [done|intros; apply not_elem_of_nil|done|];
  intros ? []%elem_of_nil.

(** What a pass of the resolver over a state that satisfies the invariant
    does: it keeps the invariant, asks only for albums not searched yet,
    leaves every album it did not ask for as it was, and stores the answer
    in the album it asked for. *)
Lemma resolve_albums_spec search :
  ∀ fuel i clock state state' calls r,
    invariant state →
    resolve_albums search fuel i clock state = (state', calls, r) →
    invariant state'
    ∧ (∀ k a, Dict.get k (albums state) = Some a →
              Album.bandcamp_url_searched a = true →
              k ∉ call_key <$> calls)
    ∧ (∀ k, k ∉ call_key <$> calls →
            Dict.get k (albums state') = Dict.get k (albums state))
    ∧ (∀ c, c ∈ calls →
            ∃ a, Dict.get (call_key c) (albums state) = Some a
                 ∧ Album.bandcamp_url_searched a = false
                 ∧ ∀ url, call_answer c = Ok url →
                          Dict.get (call_key c) (albums state')
                          = Some (resolved url a)).
Proof.
  induction fuel as [|fuel IH]; intros i clock state state' calls r Hinv; simpl.
  { no_call. }
  destruct (albums state !! i) as [[k album]|] eqn:Hi; [|no_call].
  destruct (Album.bandcamp_url_searched album) eqn:Hsearched; [by apply IH|].
  pose proof (lookup_get _ _ _ _ (inv_nodup _ Hinv) Hi) as Hget.
  destruct (Album.artists album) as [|artist0 others]; [no_call|].
  destruct (search clock artist0 (Album.name album)) as [url|e] eqn:Hanswer.
  2:{ intros [= <- <- <-]. split_and!; [done| |done|].
      - intros k0 a0 Hk0 Ha0. rewrite fmap_cons, fmap_nil. simpl.
        apply not_elem_of_cons. split; [|apply not_elem_of_nil].
        intros ->. congruence.
      - intros c Hc. apply list_elem_of_singleton in Hc as ->. simpl.
        exists album. by split_and!. }
  destruct (store_search_result_step state i k album url Hinv Hi Hsearched)
    as (Hinv1 & Hlen & _ & Hget1 & Hother).
  rewrite Hlen, Nat.eqb_refl.
  destruct (resolve_albums search fuel (S i) (S clock)
              (store_search_result i k album url state))
    as [[state2 calls2] r2] eqn:Hrest.
  intros [= <- <- <-].
  destruct (IH _ _ _ _ _ _ Hinv1 Hrest) as (Hinv2 & Hasked & Hkept & Hstored).
  assert (k ∉ call_key <$> calls2) as Hk.
  { eapply Hasked; [done|apply resolved_searched]. }
  split_and!; [done|..].
  - intros k0 a0 Hk0 Ha0. rewrite fmap_cons. simpl.
    assert (k0 ≠ k) by (intros ->; congruence).
    apply not_elem_of_cons. split; [done|].
    eapply Hasked; [|done]. by rewrite Hother.
  - intros k0. rewrite fmap_cons. simpl.
    intros [Hne Hk0]%not_elem_of_cons. by rewrite Hkept, Hother.
  - intros c [->|Hc]%elem_of_cons; simpl.
    + exists album. split_and!; [done..|].
      intros url' [= <-]. by rewrite Hkept.
    + destruct (Hstored c Hc) as (a & Ha & Hs & Hurl).
      exists a. split_and!; [|done..].
      rewrite <- Hother; [done|]. intros Heq. rewrite Heq, Hget1 in Ha.
      injection Ha as <-. by rewrite resolved_searched in Hs.
Qed.

(** ** The invariant holds in every reachable state *)

Lemma invariant_new_state : invariant new_state.
Proof.
  constructor; simpl; [constructor|done..].
Qed.

Lemma register_track_invariant track state n :
  invariant state → invariant (register_track track state n).1.
Proof.
  intros Hinv.
  destruct (register_track_cases track state n)
    as [[_ ->]|[(_ & _ & ->)|(artist0 & others & Hm & _ & ->)]]; simpl;
    [done..|].
  apply mem_false in Hm.
  constructor; simpl.
  - rewrite set_absent by done. unfold Dict.keys. rewrite fmap_app. simpl.
    apply NoDup_app. split_and!; [apply (inv_nodup _ Hinv)| |apply NoDup_singleton].
    intros k Hk [->|[]%elem_of_nil]%elem_of_cons. by apply get_None in Hm.
  - intros k a. rewrite get_set. case_decide; subst.
    + by intros [= <-].
    + apply (inv_key _ Hinv).
  - intros k a. rewrite get_set. case_decide; subst.
    + by intros [= <-].
    + apply (inv_unsearched _ Hinv).
  - intros url k Hurl.
    destruct (inv_index _ Hinv _ _ Hurl) as (a & Ha & Hu & Hs).
    exists a. rewrite get_set_ne; [done|]. intros <-. congruence.
Qed.

Lemma register_albums_invariant playlist :
  ∀ state n, invariant state → invariant (register_albums playlist state n).1.
Proof.
  induction playlist as [|track rest IH]; simpl; intros state n Hinv; [done|].
  pose proof (register_track_invariant track state n Hinv) as Hstep.
  destruct (register_track track state n) as [state1 [n1|e]]; simpl in *;
    [by apply IH|done].
Qed.

Lemma mark_purchased_invariant url state n :
  invariant state → invariant (mark_purchased url state n).1.
Proof.
  intros Hinv.
  destruct (mark_purchased_cases url state n)
    as [[Hi ->]|[(k & Hi & Hg & ->)|[(k & a & Hi & Hg & Hp & ->)
                                    |(k & a & Hi & Hg & Hp & ->)]]];
    simpl; [done..|].
  destruct (inv_index _ Hinv _ _ Hi) as (a' & Ha' & Hurl & Hsearched).
  rewrite Hg in Ha'. injection Ha' as <-.
  constructor; simpl.
  - rewrite keys_set_present; [apply (inv_nodup _ Hinv)|eauto].
  - intros k' a'. rewrite get_set. case_decide; subst.
    + intros [= <-]. simpl. by apply (inv_key _ Hinv).
    + apply (inv_key _ Hinv).
  - intros k' a'. rewrite get_set. case_decide; subst.
    + intros [= <-]. simpl. congruence.
    + apply (inv_unsearched _ Hinv).
  - intros u k' Hu.
    destruct (inv_index _ Hinv _ _ Hu) as (a' & Ha' & Hurl' & Hsearched').
    rewrite get_set. case_decide; subst.
    + rewrite Hg in Ha'. injection Ha' as <-.
      by exists (Album.set_purchased true a).
    + by exists a'.
Qed.

Lemma mark_purchases_invariant bandcamp_purchases :
  ∀ state n,
    invariant state → invariant (mark_purchases bandcamp_purchases state n).1.
Proof.
  induction bandcamp_purchases as [|u rest IH]; simpl; intros state n Hinv;
    [done|].
  pose proof (mark_purchased_invariant u state n Hinv) as Hstep.
  destruct (mark_purchased u state n) as [state1 [n1|e]]; simpl in *;
    [by apply IH|done].
Qed.

Lemma resolve_invariant search clock state :
  invariant state → invariant (resolve search clock state).1.1.
Proof.
  intros Hinv. unfold resolve.
  destruct (resolve_albums search (length (albums state)) 0 clock state)
    as [[state' calls] r] eqn:Hrun.
  by destruct (resolve_albums_spec _ _ _ _ _ _ _ _ Hinv Hrun) as [? _].
Qed.

Lemma step_invariant state state' :
  invariant state → step state state' → invariant state'.
Proof.
  intros Hinv Hstep.
  destruct Hstep as [playlist state|search clock state
                    |bandcamp_purchases state].
  - by apply (register_albums_invariant playlist state 0).
  - by apply resolve_invariant.
  - by apply (mark_purchases_invariant bandcamp_purchases state 0).
Qed.

Lemma evolves_invariant state state' :
  invariant state → evolves state state' → invariant state'.
Proof. induction 2; eauto using step_invariant. Qed.

Lemma reachable_invariant state : reachable state → invariant state.
Proof. apply evolves_invariant, invariant_new_state. Qed.

Lemma reachable_step state state' :
  reachable state → step state state' → reachable state'.
Proof. intros. by eapply evolves_step. Qed.

Lemma reachable_register playlist state :
  reachable state → reachable (register playlist state).1.
Proof. intros. eapply reachable_step; [done|constructor]. Qed.

Lemma reachable_resolve search clock state :
  reachable state → reachable (resolve search clock state).1.1.
Proof. intros. eapply reachable_step; [done|constructor]. Qed.

Lemma reachable_refresh bandcamp_purchases state :
  reachable state → reachable (refresh bandcamp_purchases state).1.
Proof. intros. eapply reachable_step; [done|constructor]. Qed.

(** C2: in every state the script can reach, each pair (url, key) of the
    reverse index names an album that is stored under key and whose
    [bandcamp_url] is url; so the property holds again after an import, a
    resolver pass or a purchase reconciliation from such a state. *)
Theorem reverse_index_consistency (state : State) :
  reachable state →
  reverse_index_consistent state
  ∧ (∀ playlist, reverse_index_consistent (register playlist state).1)
  ∧ (∀ search clock,
        reverse_index_consistent (resolve search clock state).1.1)
  ∧ (∀ bandcamp_purchases,
        reverse_index_consistent (refresh bandcamp_purchases state).1).
Proof.
  assert (∀ s, reachable s → reverse_index_consistent s) as Hcons.
  { intros s Hs url k Hurl.
    destruct (inv_index _ (reachable_invariant _ Hs) _ _ Hurl)
      as (a & Ha & Hu & _). eauto. }
  intros Hreach. split_and!; [by apply Hcons|..]; intros; apply Hcons;
    (eapply reachable_step; [done|constructor]).
Qed.

(** C3: in every state the script can reach, an album whose
    [bandcamp_url_searched] is false has [bandcamp_url_found] false and
    [purchased] false; the record the importer creates has all three false,
    and the property holds again after a resolver pass or a purchase
    reconciliation from such a state. *)
Theorem unsearched_albums_blank (state : State) :
  reachable state →
  unsearched_is_blank state
  ∧ (∀ playlist, unsearched_is_blank (register playlist state).1)
  ∧ (∀ search clock, unsearched_is_blank (resolve search clock state).1.1)
  ∧ (∀ bandcamp_purchases,
        unsearched_is_blank (refresh bandcamp_purchases state).1)
  ∧ (∀ track artist0,
        Album.bandcamp_url_searched (new_album track artist0) = false
        ∧ Album.bandcamp_url_found (new_album track artist0) = false
        ∧ Album.purchased (new_album track artist0) = false).
Proof.
  assert (∀ s, reachable s → unsearched_is_blank s) as Hblank.
  { intros s Hs k a Hin Hsearched.
    pose proof (reachable_invariant _ Hs) as Hinv.
    apply (elem_of_get _ _ _ (inv_nodup _ Hinv)) in Hin.
    destruct (inv_unsearched _ Hinv _ _ Hin Hsearched) as (? & ? & _). done. }
  intros Hreach. split_and!; [by apply Hblank|..|done]; intros; apply Hblank;
    (eapply reachable_step; [done|constructor]).
Qed.

Lemma reverse_index_consistency_witness :
  let track := {| track_artists := ["A"]; track_album_id := "1";
                  track_album_name := "X" |} in
  let search := fun (_ : nat) (_ _ : string) =>
                  Ok "https://a.bandcamp.com/album/x" in
  let state := (resolve search 0 (register [track] new_state).1).1.1 in
  bandcamp_url_to_album_key state !! "https://a.bandcamp.com/album/x"
  = Some "X:1"
  ∧ reverse_index_consistent state.
Proof.
  intros track search state. split; [vm_compute; reflexivity|].
  apply (reverse_index_consistency state).
  eapply evolves_step; [eapply evolves_step; [apply evolves_refl|]|].
  - apply (step_register [track]).
  - apply (step_resolve search 0).
Defined.

Lemma unsearched_albums_blank_witness :
  let track := {| track_artists := ["A"]; track_album_id := "1";
                  track_album_name := "X" |} in
  let state := (register [track] new_state).1 in
  Album.bandcamp_url_searched <$> Dict.get "X:1" (albums state) = Some false
  ∧ unsearched_is_blank state.
Proof.
  intros track state. split; [vm_compute; reflexivity|].
  apply (unsearched_albums_blank state).
  eapply evolves_step; [apply evolves_refl|apply (step_register [track])].
Defined.

(** ** Searched albums are never asked for again *)

Lemma same_but_purchased_fields a a' :
  same_but_purchased a a' →
  Album.key a = Album.key a'
  ∧ Album.bandcamp_url_searched a = Album.bandcamp_url_searched a'
  ∧ Album.bandcamp_url_found a = Album.bandcamp_url_found a'
  ∧ Album.bandcamp_url a = Album.bandcamp_url a'.
Proof.
  unfold same_but_purchased. intros H.
  split_and!;
    [apply (f_equal Album.key) in H
    |apply (f_equal Album.bandcamp_url_searched) in H
    |apply (f_equal Album.bandcamp_url_found) in H
    |apply (f_equal Album.bandcamp_url) in H]; exact H.
Qed.

Lemma only_purchased_raised_get d d' k a :
  only_purchased_raised d d' → Dict.get k d = Some a →
  ∃ a', Dict.get k d' = Some a' ∧ same_but_purchased a a'.
Proof.
  induction 1 as [|[k1 a1] [k2 a2] d d' (Hk & Hsame & _) _ IH]; simpl in *;
    [done|].
  subst k2. destruct (String.eqb k1 k); [|done].
  intros [= <-]. eauto.
Qed.

Lemma step_keeps_searched state state' k a :
  invariant state → step state state' →
  Dict.get k (albums state) = Some a →
  Album.bandcamp_url_searched a = true →
  ∃ a', Dict.get k (albums state') = Some a' ∧ same_but_purchased a a'.
Proof.
  intros Hinv Hstep. revert Hinv.
  destruct Hstep as [playlist state|search clock state
                    |bandcamp_purchases state]; intros Hinv Hget Hsearched.
  - exists a. split; [|done]. by apply register_albums_keeps.
  - exists a. split; [|done]. unfold resolve.
    destruct (resolve_albums search (length (albums state)) 0 clock state)
      as [[state' calls] r] eqn:Hrun.
    destruct (resolve_albums_spec _ _ _ _ _ _ _ _ Hinv Hrun)
      as (_ & Hasked & Hkept & _).
    simpl. rewrite Hkept; [done|]. by eapply Hasked.
  - eapply only_purchased_raised_get; [|done].
    apply (mark_purchases_frame bandcamp_purchases state 0).
Qed.

Lemma evolves_keeps_searched state state' k a :
  invariant state → evolves state state' →
  Dict.get k (albums state) = Some a →
  Album.bandcamp_url_searched a = true →
  ∃ a', Dict.get k (albums state') = Some a' ∧ same_but_purchased a a'.
Proof.
  intros Hinv Hev Hget Hsearched.
  induction Hev as [|state1 state2 Hev IH Hstep]; [by exists a|].
  destruct IH as (a1 & Hget1 & Hsame1).
  destruct (step_keeps_searched state1 state2 k a1) as (a2 & Hget2 & Hsame2);
    [by eapply evolves_invariant|done..| |].
  - destruct (same_but_purchased_fields _ _ Hsame1) as (_ & <- & _). done.
  - exists a2. split; [done|]. unfold same_but_purchased in *. congruence.
Qed.

Lemma search_bandcamp_album_url_empty w clock artist album :
  search_bandcamp_album_url w clock artist album = Ok ""
  ↔ bandcamp_search w clock (artist +:+ " " +:+ album) = Ok [].
Proof.
  unfold search_bandcamp_album_url.
  destruct (bandcamp_search w clock (artist +:+ " " +:+ album))
    as [[|[|href hrefs] results]|e]; simpl; [done..| |done].
  destruct (urllib.urlparse (valid_netloc w) href); simpl; done.
Qed.

(** C6: in a state the script can reach, an album whose
    [bandcamp_url_searched] is true keeps that flag through every later
    pass, and no later resolver pass calls the search for it or changes
    its record; a search that yields no result (the only way for the search
    to answer with the empty string) leaves the album with
    [bandcamp_url_searched] true, [bandcamp_url_found] false and an empty
    [bandcamp_url], which makes it such an album. *)
Theorem searched_never_requeried (state : State) :
  reachable state →
  (∀ k a,
      Dict.get k (albums state) = Some a →
      Album.bandcamp_url_searched a = true →
      ∀ state', evolves state state' →
        ∃ a', Dict.get k (albums state') = Some a'
              ∧ same_but_purchased a a'
              ∧ Album.bandcamp_url_searched a' = true
              ∧ ∀ search clock,
                  (k ∉ call_key <$> (resolve search clock state').1.2)
                  ∧ Dict.get k (albums (resolve search clock state').1.1)
                    = Some a')
  ∧ (∀ search clock c,
        c ∈ (resolve search clock state).1.2 →
        call_answer c = Ok "" →
        ∃ a', Dict.get (call_key c)
                       (albums (resolve search clock state).1.1) = Some a'
              ∧ Album.bandcamp_url_searched a' = true
              ∧ Album.bandcamp_url_found a' = false
              ∧ Album.bandcamp_url a' = "")
  ∧ (∀ w clock artist album,
        search_bandcamp_album_url w clock artist album = Ok ""
        ↔ bandcamp_search w clock (artist +:+ " " +:+ album) = Ok []).
Proof.
  intros Hreach. pose proof (reachable_invariant _ Hreach) as Hinv.
  split_and!.
  - intros k a Hget Hsearched state' Hev.
    destruct (evolves_keeps_searched _ _ _ _ Hinv Hev Hget Hsearched)
      as (a' & Hget' & Hsame).
    destruct (same_but_purchased_fields _ _ Hsame) as (_ & Hs & _).
    rewrite Hsearched in Hs. exists a'. split_and!; [done..|].
    intros search clock. unfold resolve.
    destruct (resolve_albums search (length (albums state')) 0 clock state')
      as [[state'' calls] r] eqn:Hrun. simpl.
    destruct (resolve_albums_spec _ _ _ _ _ _ _ _
                (evolves_invariant _ _ Hinv Hev) Hrun)
      as (_ & Hasked & Hkept & _).
    assert (k ∉ call_key <$> calls) by (by eapply Hasked).
    split; [done|]. by rewrite Hkept.
  - intros search clock c. unfold resolve.
    destruct (resolve_albums search (length (albums state)) 0 clock state)
      as [[state' calls] r] eqn:Hrun. simpl. intros Hc Hanswer.
    destruct (resolve_albums_spec _ _ _ _ _ _ _ _ Hinv Hrun)
      as (_ & _ & _ & Hstored).
    destruct (Hstored c Hc) as (a & Hget & Hunsearched & Hurl).
    destruct (inv_unsearched _ Hinv _ _ Hget Hunsearched)
      as (Hfound & _ & Hempty).
    exists (resolved "" a). split; [by apply Hurl|]. by simpl.
  - apply search_bandcamp_album_url_empty.
Qed.

Lemma searched_never_requeried_witness :
  let track := {| track_artists := ["A"]; track_album_id := "1";
                  track_album_name := "X" |} in
  let none := fun (_ : nat) (_ _ : string) => Ok "" in
  let some := fun (_ : nat) (_ _ : string) =>
                Ok "https://a.bandcamp.com/album/x" in
  let state := (resolve none 0 (register [track] new_state).1).1.1 in
  (resolve some 1 state).1.2 = []
  ∧ ∃ a, Dict.get "X:1" (albums state) = Some a
         ∧ ("X:1" ∉ call_key <$> (resolve some 1 state).1.2)
         ∧ Dict.get "X:1" (albums (resolve some 1 state).1.1) = Some a.
Proof.
  intros track none some state. split; [vm_compute; reflexivity|].
  assert (reachable state) as Hreach.
  { eapply evolves_step; [eapply evolves_step; [apply evolves_refl|]|].
    - apply (step_register [track]).
    - apply (step_resolve none 0). }
  destruct (searched_never_requeried state Hreach) as [Hkeep _].
  destruct (Hkeep "X:1" (resolved "" (new_album track "A")))
    with (state' := state) as (a' & Hget & _ & _ & Hpass);
    [vm_compute; reflexivity|reflexivity|apply evolves_refl|].
  exists a'. split; [exact Hget|]. apply (Hpass some 1).
Defined.

(** ** Reporting *)

Lemma count_album_count albums_ :
  ∀ counts,
    (foldl count_album counts albums_).1.1.1 = counts.1.1.1 + length albums_.
Proof.
  induction albums_ as [|album rest IH]; intros [[[n p] f] s_]; simpl;
    [lia|].
  rewrite IH. simpl. lia.
Qed.

(** With at least one album the statistics are printed to the end. *)
Lemma print_stats_some_albums state :
  albums state ≠ [] → (print_stats state).2 = Ok tt.
Proof.
  intros Hne. unfold print_stats.
  pose proof (count_album_count (Dict.values (albums state)) (0, 0, 0, 0))
    as Hcount.
  destruct (foldl count_album (0, 0, 0, 0) (Dict.values (albums state)))
    as [[[n p] f] s_].
  simpl in Hcount. unfold Dict.values in Hcount. rewrite length_fmap in Hcount.
  destruct n; [|done]. destruct (albums state); [done|simpl in *; lia].
Qed.

(** C4 fails on the code: with no album in the store, [print_stats] prints
    its first four lines and then raises [ZeroDivisionError] at line 178;
    a run with [-s] and no state file ends that way and writes no file. *)
Theorem print_stats_no_albums :
  (∀ index,
      print_stats {| albums := []; bandcamp_url_to_album_key := index |}
      = ([AlbumsRegistered 0; AlbumsPurchased 0; AlbumsFound 0 0;
          NotSearched 0],
         Raise ZeroDivisionError))
  ∧ (∀ w,
        main w {| cli_args.playlist := None; cli_args.unpurchased := false;
                  cli_args.stats := true;
                  cli_args.refresh_purchased := false |} None
        = (None, [],
           [GeneratingNewState; AlbumsRegistered 0; AlbumsPurchased 0;
            AlbumsFound 0 0; NotSearched 0],
           Raise ZeroDivisionError)).
Proof. split; reflexivity. Qed.

(** ** Configuration errors *)

Lemma getenv_missing w name p :
  environ w !! name = None → getenv w name p = (p, Raise (KeyError name)).
Proof. unfold getenv, lift. by intros ->. Qed.

Lemma get_spotify_auth_token_missing w p :
  missing w spotify_variables →
  ∃ name, get_spotify_auth_token w p = (p, Raise (KeyError name))
          ∧ environ w !! name = None.
Proof.
  intros (name & Hin & Hnone). unfold get_spotify_auth_token.
  unfold mbind, prog_bind, getenv, lift.
  destruct (environ w !! "SPOTIFY_APP_ID") eqn:Hid; [|by eauto].
  destruct (environ w !! "SPOTIFY_APP_SECRET") eqn:Hsecret; [|by eauto].
  apply elem_of_cons in Hin as [->|Hin]; [congruence|].
  apply list_elem_of_singleton in Hin as ->. congruence.
Qed.

Lemma get_bandcamp_purchases_missing w p :
  missing w bandcamp_variables →
  ∃ name, get_bandcamp_purchases w p = (p, Raise (KeyError name))
          ∧ environ w !! name = None.
Proof.
  intros (name & Hin & Hnone). unfold get_bandcamp_purchases.
  unfold mbind, prog_bind, getenv, lift.
  destruct (environ w !! "BANDCAMP_USERNAME") eqn:Hid; [|by eauto].
  destruct (environ w !! "BANDCAMP_TOKEN") eqn:Hsecret; [|by eauto].
  apply elem_of_cons in Hin as [->|Hin]; [congruence|].
  apply list_elem_of_singleton in Hin as ->. congruence.
Qed.

Lemma bandcamp_refresh_purchased_missing w p :
  missing w bandcamp_variables →
  ∃ name, bandcamp_refresh_purchased w p = (p, Raise (KeyError name))
          ∧ environ w !! name = None.
Proof.
  intros Hmissing.
  destruct (get_bandcamp_purchases_missing w p Hmissing) as (name & Hget & Hn).
  exists name. split; [|done].
  unfold bandcamp_refresh_purchased, mbind, prog_bind. by rewrite Hget.
Qed.

Lemma pull_spotify_playlist_missing w playlist_url p :
  missing w spotify_variables →
  ∃ name, pull_spotify_playlist w playlist_url p = (p, Raise (KeyError name))
          ∧ environ w !! name = None.
Proof.
  intros Hmissing.
  destruct (get_spotify_auth_token_missing w p Hmissing) as (name & Hget & Hn).
  exists name. split; [|done].
  unfold pull_spotify_playlist, mbind, prog_bind. by rewrite Hget.
Qed.

(** C8 fails on the code: with the two Spotify variables set and the
    Bandcamp variables not set, a playlist pull authenticates to Spotify,
    fetches the playlist and searches for its album before it fails at the
    first Bandcamp variable. *)
Lemma fails_fast_counterexample :
  let w :=
    {| environ := <["SPOTIFY_APP_ID" := "id"]>
                    (<["SPOTIFY_APP_SECRET" := "secret"]> ∅);
       valid_netloc := fun _ => true;
       spotify_token := fun _ _ _ => Ok "token";
       spotify_playlist := fun _ _ _ =>
         Ok [{| track_artists := ["A"]; track_album_id := "1";
                track_album_name := "X" |}];
       bandcamp_search := fun _ _ => Ok [];
       bandcamp_collection := fun _ _ _ => Ok [] |} in
  let args :=
    {| cli_args.playlist := Some "https://open.spotify.com/playlist/p";
       cli_args.unpurchased := false; cli_args.stats := false;
       cli_args.refresh_purchased := false |} in
  missing w (spotify_variables ++ bandcamp_variables)
  ∧ main w args None
    = (None,
       [TokenRequest "id" "secret"; PlaylistRequest "token" "p";
        SearchRequest "A X"],
       [GeneratingNewState; RegisteredFromSpotify 1],
       Raise (KeyError "BANDCAMP_USERNAME"))
  ∧ ¬ fails_fast w args None.
Proof.
  intros w args.
  assert (main w args None
          = (None,
             [TokenRequest "id" "secret"; PlaylistRequest "token" "p";
              SearchRequest "A X"],
             [GeneratingNewState; RegisteredFromSpotify 1],
             Raise (KeyError "BANDCAMP_USERNAME"))) as Hmain
    by (vm_compute; reflexivity).
  split_and!; [|done|].
  - exists "BANDCAMP_USERNAME". split; [|vm_compute; reflexivity].
    unfold spotify_variables, bandcamp_variables. simpl. repeat constructor.
  - unfold fails_fast. rewrite Hmain. by intros [? _].
Qed.

(** ** Links

    Facts about the string primitives, then about [urlparse]. *)

Section string_facts.
Implicit Types (s t : string) (c a : ascii) (p q : ascii -> bool).

Lemma str_append_nil t : "" +:+ t = t.
Proof. reflexivity. Qed.

Lemma str_append_cons a s t : String a s +:+ t = String a (s +:+ t).
Proof. reflexivity. Qed.

Lemma str_append_empty_r s : s +:+ "" = s.
Proof. induction s as [|a s IH]; [done|]. by rewrite str_append_cons, IH. Qed.

Lemma str_filter_append p s t :
  Str.filter p (s +:+ t) = Str.filter p s +:+ Str.filter p t.
Proof.
  induction s as [|a s IH]; [done|]. rewrite str_append_cons. simpl.
  destruct (p a); by rewrite ?str_append_cons, IH.
Qed.

Lemma str_filter_all p s : Str.all p s = true → Str.filter p s = s.
Proof.
  induction s as [|a s IH]; simpl; [done|].
  intros [-> Hs]%andb_prop. by rewrite IH.
Qed.

Lemma str_all_impl p q s :
  (∀ a, p a = true → q a = true) → Str.all p s = true → Str.all q s = true.
Proof.
  intros Hpq. induction s as [|a s IH]; simpl; [done|].
  intros [Ha Hs]%andb_prop. by rewrite (Hpq a Ha), IH.
Qed.

Lemma str_find_append_absent c s t :
  Str.all (fun a => negb (Ascii.eqb a c)) s = true →
  Str.find c (s +:+ t) = (fun i => String.length s + i) <$> Str.find c t.
Proof.
  induction s as [|a s IH].
  - intros _. rewrite str_append_nil. destruct (Str.find c t); reflexivity.
  - rewrite str_append_cons. simpl. intros [Ha Hs]%andb_prop.
    apply negb_true_iff in Ha.
    rewrite Ha, IH by done. destruct (Str.find c t); reflexivity.
Qed.

Lemma str_contains_absent c s :
  Str.all (fun a => negb (Ascii.eqb a c)) s = true → Str.contains c s = false.
Proof.
  intros Hs. unfold Str.contains.
  pose proof (str_find_append_absent c s "" Hs) as H.
  rewrite str_append_empty_r in H. by rewrite H.
Qed.

Lemma str_take_append s t n :
  Str.take (String.length s + n) (s +:+ t) = s +:+ Str.take n t.
Proof.
  induction s as [|a s IH]; [done|]. rewrite !str_append_cons. simpl.
  by rewrite IH.
Qed.

Lemma str_drop_append s t n :
  Str.drop (String.length s + n) (s +:+ t) = Str.drop n t.
Proof. induction s as [|a s IH]; [done|]. rewrite str_append_cons. apply IH. Qed.

Lemma str_take_0 s : Str.take 0 s = "".
Proof. by destruct s. Qed.

Lemma str_drop_0 s : Str.drop 0 s = s.
Proof. by destruct s. Qed.

Lemma str_find_here c t : Str.find c (String c t) = Some 0.
Proof. simpl. by rewrite Ascii.eqb_refl. Qed.

Lemma str_split1_append c s t :
  Str.all (fun a => negb (Ascii.eqb a c)) s = true →
  Str.split1 c (s +:+ String c t) = Some (s, t).
Proof.
  intros Hs. unfold Str.split1.
  rewrite str_find_append_absent, str_find_here by done.
  change ((fun i => String.length s + i) <$> Some 0)
    with (Some (String.length s + 0)).
  change (?f <$> Some ?x) with (Some (f x)). cbv beta.
  rewrite str_take_append, str_take_0, str_append_empty_r.
  replace (S (String.length s + 0)) with (String.length s + 1) by lia.
  by rewrite str_drop_append.
Qed.
End string_facts.

Section urlparse_facts.
Implicit Types (s t host rest : string) (c a r : ascii).

Lemma str_length_append s t :
  String.length (s +:+ t) = String.length s + String.length t.
Proof. induction s as [|a s IH]; [done|]. rewrite str_append_cons. simpl. by rewrite IH. Qed.

Lemma str_all_not_in c chars s :
  Str.contains c chars = true →
  Str.all (fun a => negb (Str.contains a chars)) s = true →
  Str.all (fun a => negb (Ascii.eqb a c)) s = true.
Proof.
  intros Hc. apply str_all_impl. intros a Ha.
  destruct (Ascii.eqb_spec a c) as [->|]; [|done].
  by rewrite Hc in Ha.
Qed.

Lemma str_contains_delimiter r :
  Str.contains r "/?#" = true → r = "/"%char ∨ r = "?"%char ∨ r = "#"%char.
Proof.
  unfold Str.contains. cbn [Str.find].
  destruct (Ascii.eqb_spec "/" r); [subst; auto|].
  destruct (Ascii.eqb_spec "?" r); [subst; auto|].
  destruct (Ascii.eqb_spec "#" r); [subst; auto|done].
Qed.

Lemma splitnetloc_host host r rest :
  Str.all (fun a => negb (Str.contains a "/?#")) host = true →
  Str.contains r "/?#" = true →
  urllib._splitnetloc ("//" +:+ host +:+ String r rest) 2
  = (host, String r rest).
Proof.
  intros Hhost Hr. unfold urllib._splitnetloc, Str.find_from.
  change (Str.drop 2 ("//" +:+ host +:+ String r rest))
    with (host +:+ String r rest).
  cbn [foldl].
  rewrite !str_find_append_absent
    by (eapply (str_all_not_in _ "/?#"); [reflexivity|exact Hhost]).
  assert (String.length ("//" +:+ host +:+ String r rest)
          = 2 + String.length host + S (String.length rest)) as ->.
  { rewrite (str_length_append "//"), str_length_append. simpl. lia. }
  assert (∀ n, n = 2 + (String.length host + 0) →
            (Str.drop 2 (Str.take n ("//" +:+ host +:+ String r rest)),
             Str.drop n ("//" +:+ host +:+ String r rest))
            = (host, String r rest)) as Hcut.
  { intros n ->.
    change (Str.drop 2 (Str.take (2 + (String.length host + 0))
                          ("//" +:+ host +:+ String r rest)))
      with (Str.take (String.length host + 0) (host +:+ String r rest)).
    change (Str.drop (2 + (String.length host + 0))
              ("//" +:+ host +:+ String r rest))
      with (Str.drop (String.length host + 0) (host +:+ String r rest)).
    by rewrite str_take_append, str_drop_append, str_take_0, str_append_empty_r. }
  destruct (str_contains_delimiter r Hr) as [-> | [-> | ->]]; simpl Str.find;
    destruct (Str.find "/" rest), (Str.find "?" rest), (Str.find "#" rest);
    apply Hcut; simpl; lia.
Qed.

Lemma plain_host_all host (q : ascii -> bool) :
  plain_host host = true →
  (∀ a, Str.is_ascii a && negb (urllib.unsafe_url_byte a)
        && negb (Str.contains a "/?#[]") = true → q a = true) →
  Str.all q host = true.
Proof.
  intros Hhost Hq. unfold plain_host in Hhost.
  eapply str_all_impl; [|exact Hhost]. exact Hq.
Qed.

Lemma str_contains_weaken a chars chars' :
  (∀ c, Str.contains c chars' = true → Str.contains c chars = true) →
  negb (Str.contains a chars) = true → negb (Str.contains a chars') = true.
Proof.
  intros Hsub Ha. destruct (Str.contains a chars') eqn:Hc; [|done].
  by rewrite (Hsub a Hc) in Ha.
Qed.

Lemma str_not_contains_neq a c chars :
  Str.contains c chars = true →
  negb (Str.contains a chars) = true → negb (Ascii.eqb a c) = true.
Proof.
  intros Hc Ha. destruct (Ascii.eqb_spec a c) as [->|]; [|done].
  by rewrite Hc in Ha.
Qed.

Lemma split_netloc_plain valid host r rest :
  plain_host host = true →
  Str.contains r "/?#" = true →
  urllib.split_netloc valid ("//" +:+ host +:+ String r rest)
  = Ok (host, String r rest).
Proof.
  intros Hhost Hr. unfold urllib.split_netloc.
  change (Str.take 2 ("//" +:+ host +:+ String r rest)) with "//".
  change (String.eqb "//" "//") with true. cbv iota.
  rewrite splitnetloc_host; [|apply (plain_host_all _ _ Hhost)|done].
  2:{ intros a [[_ _]%andb_prop Ha]%andb_prop. revert Ha.
      apply str_contains_weaken. clear. intros c Hc.
      destruct (str_contains_delimiter c Hc) as [-> | [-> | ->]]; reflexivity. }
  rewrite !str_contains_absent; [done|..];
    apply (plain_host_all _ _ Hhost);
    intros a [[_ _]%andb_prop Ha]%andb_prop;
    by apply (str_not_contains_neq a _ "/?#[]").
Qed.

Lemma split_fragment_path path query :
  Str.all (fun a => negb (Ascii.eqb a "#")) path = true →
  ∃ q f, urllib.split_fragment (path +:+ String "?" query)
         = (path +:+ String "?" q, f).
Proof.
  intros Hpath. unfold urllib.split_fragment, Str.split1.
  rewrite str_find_append_absent by done.
  change (Str.find "#" (String "?" query)) with (S <$> Str.find "#" query).
  destruct (Str.find "#" query) as [j|]; [|by exists query, ""].
  change ((fun i => String.length path + i) <$> (S <$> Some j))
    with (Some (String.length path + S j)).
  change (?f <$> Some ?x) with (Some (f x)). cbv beta.
  rewrite str_take_append. eexists (Str.take j query), _. reflexivity.
Qed.

Lemma split_query_path path query :
  Str.all (fun a => negb (Ascii.eqb a "?")) path = true →
  urllib.split_query (path +:+ String "?" query) = (path, query).
Proof.
  intros Hpath. unfold urllib.split_query. by rewrite str_split1_append.
Qed.

Lemma plain_path_all path (q : ascii -> bool) :
  plain_path path = true →
  (∀ a, negb (urllib.unsafe_url_byte a) && negb (Str.contains a "?#;") = true
        → q a = true) →
  Str.all q path = true.
Proof.
  intros [_ Hpath]%andb_prop Hq. eapply str_all_impl; [|exact Hpath]. exact Hq.
Qed.

Lemma plain_path_first path query :
  plain_path path = true →
  ∃ r rest, path +:+ String "?" query = String r rest
            ∧ Str.contains r "/?#" = true.
Proof.
  intros [Hfirst _]%andb_prop. destruct path as [|a path].
  - by exists "?"%char, query.
  - apply Ascii.eqb_eq in Hfirst as ->.
    by exists "/"%char, (path +:+ String "?" query).
Qed.

(** What [urlparse] makes of an https link with a plain host, a plain
    path and a query string. *)
Lemma urlparse_https valid host path query :
  plain_host host = true → plain_path path = true →
  ∃ q f,
    urllib.urlparse valid ("https://" +:+ host +:+ path +:+ "?" +:+ query)
    = Ok {| urllib.scheme := "https"; urllib.netloc := host;
            urllib.path := path; urllib.params := "";
            urllib.query := q; urllib.fragment := f |}.
Proof.
  intros Hhost Hpath.
  set (safe := fun a => negb (urllib.unsafe_url_byte a)).
  assert (Str.filter safe host = host) as Hfh.
  { apply str_filter_all, (plain_host_all _ _ Hhost).
    by intros a [[_ ?]%andb_prop _]%andb_prop. }
  assert (Str.filter safe path = path) as Hfp.
  { apply str_filter_all, (plain_path_all _ _ Hpath).
    by intros a [? _]%andb_prop. }
  destruct (plain_path_first path (Str.filter safe query) Hpath)
    as (r & rest & Hrest & Hr).
  destruct (split_fragment_path path (Str.filter safe query))
    as (q & f & Hfragment).
  { apply (plain_path_all _ _ Hpath). intros a [_ Ha]%andb_prop.
    by apply (str_not_contains_neq a _ "?#;"). }
  exists q, f. unfold urllib.urlparse, urllib.urlsplit.
  change (Str.lstrip urllib.c0_control_or_space
            ("https://" +:+ host +:+ path +:+ "?" +:+ query))
    with ("https://" +:+ host +:+ path +:+ "?" +:+ query).
  fold safe.
  change (Str.filter safe ("https://" +:+ host +:+ path +:+ "?" +:+ query))
    with ("https://" +:+ Str.filter safe (host +:+ path +:+ String "?" query)).
  rewrite !str_filter_append, Hfh, Hfp.
  change (Str.filter safe (String "?" query))
    with (String "?" (Str.filter safe query)).
  change (urllib.split_scheme
            ("https://" +:+ host +:+ path +:+ String "?" (Str.filter safe query)))
    with ("https", "//" +:+ host +:+ path +:+ String "?" (Str.filter safe query)).
  cbv iota beta. rewrite Hrest, split_netloc_plain by done.
  cbn [mbind result_bind]. rewrite <- Hrest, Hfragment.
  rewrite split_query_path.
  2:{ apply (plain_path_all _ _ Hpath). intros a [_ Ha]%andb_prop.
      by apply (str_not_contains_neq a _ "?#;"). }
  assert (Str.all Str.is_ascii host = true) as ->.
  { apply (plain_host_all _ _ Hhost).
    by intros a [[? _]%andb_prop _]%andb_prop. }
  cbn [negb andb mbind result_bind].
  rewrite str_contains_absent.
  2:{ apply (plain_path_all _ _ Hpath). intros a [_ Ha]%andb_prop.
      by apply (str_not_contains_neq a _ "?#;"). }
  by rewrite andb_false_r.
Qed.
End urlparse_facts.

Lemma str_all_append (p : ascii -> bool) s t :
  Str.all p s = true → Str.all p t = true → Str.all p (s +:+ t) = true.
Proof.
  intros Hs Ht. induction s as [|a s IH]; [done|].
  rewrite str_append_cons. simpl in *.
  apply andb_prop in Hs as [-> Hs]. by apply IH.
Qed.

Lemma str_append_assoc s t u : (s +:+ t) +:+ u = s +:+ t +:+ u.
Proof.
  induction s as [|a s IH]; [done|]. by rewrite !str_append_cons, IH.
Qed.

Lemma strip_query_https host path query :
  plain_host host = true → plain_path path = true →
  strip_query ("https://" +:+ host +:+ path +:+ "?" +:+ query)
  = "https://" +:+ host +:+ path.
Proof.
  intros Hhost Hpath. unfold strip_query.
  change ("?" +:+ query) with (String "?" query).
  rewrite <- (str_append_assoc host), <- (str_append_assoc "https://").
  rewrite str_split1_append; [done|].
  repeat apply str_all_append; [reflexivity|..].
  - apply (plain_host_all _ _ Hhost).
    intros a [[_ _]%andb_prop Ha]%andb_prop.
    by apply (str_not_contains_neq a _ "/?#[]").
  - apply (plain_path_all _ _ Hpath). intros a [_ Ha]%andb_prop.
    by apply (str_not_contains_neq a _ "?#;").
Qed.

(** C5 fails on the code: the scheme of the link is not kept.  For a first
    result whose link starts with http:// the search answers with an
    https:// address, and that is the address the resolver stores in the
    album and in the reverse index: not the link without its query
    string. *)
Lemma stored_url_counterexample :
  let link := "http://artist.bandcamp.com/album/x?from=search" in
  let w :=
    {| environ := ∅;
       valid_netloc := fun _ => true;
       spotify_token := fun _ _ _ => Ok "token";
       spotify_playlist := fun _ _ _ => Ok [];
       bandcamp_search := fun _ _ => Ok [[link]];
       bandcamp_collection := fun _ _ _ => Ok [] |} in
  let state :=
    (register [{| track_artists := ["A"]; track_album_id := "1";
                  track_album_name := "X" |}] new_state).1 in
  let state' := (resolve (search_bandcamp_album_url w) 0 state).1.1 in
  search_bandcamp_album_url w 0 "A" "X"
  = Ok "https://artist.bandcamp.com/album/x"
  ∧ strip_query link = "http://artist.bandcamp.com/album/x"
  ∧ search_bandcamp_album_url w 0 "A" "X" ≠ Ok (strip_query link)
  ∧ Album.bandcamp_url <$> Dict.get "X:1" (albums state')
    = Some "https://artist.bandcamp.com/album/x"
  ∧ bandcamp_url_to_album_key state' !! "https://artist.bandcamp.com/album/x"
    = Some "X:1"
  ∧ ¬ stored_for (strip_query link) "X:1" state'.
Proof.
  intros link w state state'.
  assert (search_bandcamp_album_url w 0 "A" "X"
          = Ok "https://artist.bandcamp.com/album/x") as Hsearch
    by (vm_compute; reflexivity).
  assert (strip_query link = "http://artist.bandcamp.com/album/x") as Hstrip
    by (vm_compute; reflexivity).
  split_and!; [done..| | | |].
  - rewrite Hsearch, Hstrip. by intros [=].
  - vm_compute. reflexivity.
  - vm_compute. reflexivity.
  - rewrite Hstrip. intros [(a & Hget & Hurl & _) _].
    assert (Album.bandcamp_url <$> Dict.get "X:1" (albums state')
            = Some "https://artist.bandcamp.com/album/x") as Hstored
      by (vm_compute; reflexivity).
    rewrite Hget in Hstored. simpl in Hstored. congruence.
Qed.

(** ** Runs of the script

    The passes above are the only code that changes the document, so the
    documents a run goes through, and the one it writes, are reachable
    from the document it loaded. *)

Lemma evolves_trans state1 state2 state3 :
  evolves state1 state2 → evolves state2 state3 → evolves state1 state3.
Proof. induction 2; eauto using evolves. Qed.

Lemma bind_evolves {A B} (m : Prog A) (k : A → Prog B) :
  (∀ p, evolves (doc p) (doc (m p).1)) →
  (∀ a p, evolves (doc p) (doc (k a p).1)) →
  ∀ p, evolves (doc p) (doc ((m ≫= k) p).1).
Proof.
  intros Hm Hk p. unfold mbind, prog_bind.
  pose proof (Hm p) as Hp. destruct (m p) as [p' [a|e]]; simpl in *; [|done].
  eapply evolves_trans; [exact Hp|apply Hk].
Qed.

Lemma getenv_evolves w name p : evolves (doc p) (doc (getenv w name p).1).
Proof. apply evolves_refl. Qed.

Lemma request_evolves {A} r (answer : nat → result A) p :
  evolves (doc p) (doc (request r answer p).1).
Proof. apply evolves_refl. Qed.

Lemma print_evolves lines p : evolves (doc p) (doc (print lines p).1).
Proof. apply evolves_refl. Qed.

Lemma get_bandcamp_purchases_evolves w p :
  evolves (doc p) (doc (get_bandcamp_purchases w p).1).
Proof.
  revert p. unfold get_bandcamp_purchases.
  repeat (apply bind_evolves; [|intros ?]);
    intros p; apply evolves_refl.
Qed.

Lemma bandcamp_refresh_purchased_evolves w p :
  evolves (doc p) (doc (bandcamp_refresh_purchased w p).1).
Proof.
  revert p. unfold bandcamp_refresh_purchased.
  apply bind_evolves; [apply get_bandcamp_purchases_evolves|].
  intros bandcamp_purchases. apply bind_evolves; [|intros; apply print_evolves].
  intros p. unfold on_doc.
  pose proof (step_refresh bandcamp_purchases (doc p)) as Hstep.
  destruct (refresh bandcamp_purchases (doc p)) as [state r]. simpl in *.
  eapply evolves_step; [apply evolves_refl|done].
Qed.

Lemma resolve_unsearched_evolves w p :
  evolves (doc p) (doc (resolve_unsearched w p).1).
Proof.
  unfold resolve_unsearched.
  pose proof (step_resolve (search_bandcamp_album_url w) (length (sent p))
                (doc p)) as Hstep.
  destruct (resolve (search_bandcamp_album_url w) (length (sent p)) (doc p))
    as [[state calls] r]. simpl in *.
  eapply evolves_step; [apply evolves_refl|done].
Qed.

Lemma pull_spotify_playlist_evolves w playlist_url p :
  evolves (doc p) (doc (pull_spotify_playlist w playlist_url p).1).
Proof.
  revert p. unfold pull_spotify_playlist.
  apply bind_evolves.
  { unfold get_spotify_auth_token.
    repeat (apply bind_evolves; [|intros ?]); intros p; apply evolves_refl. }
  intros s_token. apply bind_evolves; [intros p; apply evolves_refl|].
  intros parsed. apply bind_evolves; [intros p; apply evolves_refl|].
  intros playlist. apply bind_evolves.
  { intros p. unfold on_doc.
    pose proof (step_register playlist (doc p)) as Hstep.
    destruct (register playlist (doc p)) as [state r]. simpl in *.
    eapply evolves_step; [apply evolves_refl|done]. }
  intros n. apply bind_evolves; [apply print_evolves|]. intros _.
  apply bind_evolves; [apply resolve_unsearched_evolves|]. intros _.
  apply bandcamp_refresh_purchased_evolves.
Qed.

Lemma script_evolves w args p : evolves (doc p) (doc (script w args p).1).
Proof.
  revert p. unfold script, when.
  apply bind_evolves.
  { destruct (cli_args.playlist args) as [[|a url]|];
      [intros p; apply evolves_refl|intros p|intros p; apply evolves_refl].
    apply pull_spotify_playlist_evolves. }
  intros _. apply bind_evolves.
  { destruct (cli_args.unpurchased args); intros p; apply evolves_refl. }
  intros _. apply bind_evolves.
  { destruct (cli_args.stats args); intros p; [|apply evolves_refl].
    destruct (print_stats (doc p)) as [lines r]. apply evolves_refl. }
  intros _. destruct (cli_args.refresh_purchased args);
    [apply bandcamp_refresh_purchased_evolves|intros p; apply evolves_refl].
Qed.

(** A run that starts without a state file, or from a reachable document,
    leaves a reachable document in [state.json]. *)
Lemma main_reachable w args file :
  (∀ state, file = Some state → reachable state) →
  ∀ state', (main w args file).1.1.1 = Some state' → reachable state'.
Proof.
  intros Hfile state'. unfold main, load_state.
  destruct file as [state|].
  - pose proof (script_evolves w args
                  {| doc := state; sent := []; printed := [] |}) as Hev.
    destruct (script w args {| doc := state; sent := []; printed := [] |})
      as [p [[]|e]]; simpl in *; intros [= <-].
    + eapply evolves_trans; [by apply Hfile|done].
    + by apply Hfile.
  - pose proof (script_evolves w args
                  {| doc := new_state; sent := [];
                     printed := [GeneratingNewState] |}) as Hev.
    destruct (script w args {| doc := new_state; sent := [];
                                printed := [GeneratingNewState] |})
      as [p [[]|e]]; simpl in *; [|done]. by intros [= <-].
Qed.

(** [bandcamp_refresh_purchased] run again while the purchase page still
    shows the same links: the document stays as the first run left it and
    the line printed reports 0 albums. *)
Lemma bandcamp_refresh_purchased_twice w p p1 username identity items :
  environ w !! "BANDCAMP_USERNAME" = Some username →
  environ w !! "BANDCAMP_TOKEN" = Some identity →
  (∀ clock, bandcamp_collection w clock username identity = Ok items) →
  bandcamp_refresh_purchased w p = (p1, Ok tt) →
  bandcamp_refresh_purchased w p1
  = ({| doc := doc p1;
        sent := sent p1 ++ [CollectionRequest username identity];
        printed := printed p1 ++ [NewlyPurchased 0] |},
     Ok tt).
Proof.
  intros Huser Htoken Hitems.
  assert (∀ q, bandcamp_refresh_purchased w q
               = let '(state, r) :=
                   refresh (omap (fun href : option string => href) items)
                           (doc q) in
                 match r with
                 | Ok n =>
                     ({| doc := state;
                         sent := sent q ++ [CollectionRequest username identity];
                         printed := printed q ++ [NewlyPurchased n] |},
                      Ok tt)
                 | Raise e =>
                     ({| doc := state;
                         sent := sent q ++ [CollectionRequest username identity];
                         printed := printed q |},
                      Raise e)
                 end) as Hrun.
  { intros q.
    unfold bandcamp_refresh_purchased, get_bandcamp_purchases, getenv, lift,
      request, on_doc, print, mbind, prog_bind, mret, prog_ret.
    rewrite Huser, Htoken, Hitems. simpl.
    by destruct (refresh (omap (fun href : option string => href) items)
                   (doc q)) as [state [n|e]]. }
  rewrite !Hrun.
  destruct (refresh (omap (fun href : option string => href) items) (doc p))
    as [state [n|e]] eqn:Hfirst; [|done].
  intros [= <-]. simpl. unfold refresh in *.
  by rewrite (mark_purchases_again _ _ _ _ _ Hfirst 0).
Qed.

(** ** The resolver loop, case by case *)

Section resolve_cases.
Variable search : nat → string → string → result string.
Variable P : nat → nat → State → State * list Call * result unit → Prop.

Hypothesis at_end : ∀ i clock state,
  invariant state → length (albums state) ≤ i →
  P i clock state (state, [], Ok tt).
Hypothesis skip : ∀ i clock state k album out,
  invariant state → albums state !! i = Some (k, album) →
  Album.bandcamp_url_searched album = true →
  P (S i) clock state out → P i clock state out.
Hypothesis no_artist : ∀ i clock state k album,
  invariant state → albums state !! i = Some (k, album) →
  Album.bandcamp_url_searched album = false →
  Album.artists album = [] →
  P i clock state (state, [], Raise IndexError).
Hypothesis search_raises : ∀ i clock state k album artist0 others e,
  invariant state → albums state !! i = Some (k, album) →
  Album.bandcamp_url_searched album = false →
  Album.artists album = artist0 :: others →
  search clock artist0 (Album.name album) = Raise e →
  P i clock state (state, [call_of k album artist0 (Raise e)], Raise e).
Hypothesis search_answers :
  ∀ i clock state k album artist0 others url state' calls r,
  invariant state → albums state !! i = Some (k, album) →
  Dict.get k (albums state) = Some album →
  Album.bandcamp_url_searched album = false →
  Album.artists album = artist0 :: others →
  search clock artist0 (Album.name album) = Ok url →
  invariant (after_search k album url state) →
  P (S i) (S clock) (after_search k album url state) (state', calls, r) →
  P i clock state (state', call_of k album artist0 (Ok url) :: calls, r).

Lemma resolve_albums_cases :
  ∀ fuel i clock state,
    invariant state → length (albums state) ≤ i + fuel →
    P i clock state (resolve_albums search fuel i clock state).
Proof.
  induction fuel as [|fuel IH]; intros i clock state Hinv Hfuel; simpl.
  { apply at_end; [done|lia]. }
  destruct (albums state !! i) as [[k album]|] eqn:Hi.
  2:{ apply at_end; [done|]. by apply lookup_ge_None. }
  destruct (Album.bandcamp_url_searched album) eqn:Hsearched.
  { eapply skip; [done..|]. apply IH; [done|lia]. }
  destruct (Album.artists album) as [|artist0 others] eqn:Hartists.
  { by eapply no_artist. }
  destruct (search clock artist0 (Album.name album)) as [url|e] eqn:Hanswer.
  2:{ by eapply search_raises. }
  destruct (store_search_result_step state i k album url Hinv Hi Hsearched)
    as (Hinv1 & Hlen & Hget & _ & _).
  rewrite Hlen, Nat.eqb_refl.
  rewrite (store_search_result_invariant state i k album url Hinv Hi) in *.
  fold (after_search k album url state) in *.
  specialize (IH (S i) (S clock) (after_search k album url state) Hinv1).
  destruct (resolve_albums search fuel (S i) (S clock)
              (after_search k album url state)) as [[state' calls] r].
  eapply search_answers; [done..|]. apply IH. simpl in *. lia.
Qed.
End resolve_cases.

Lemma lookup_keys {V} (d : list (string * V)) i k v :
  d !! i = Some (k, v) → Dict.keys d !! i = Some k.
Proof. intros Hi. unfold Dict.keys. by rewrite list_lookup_fmap, Hi. Qed.

Lemma same_keys_lookup {V} (d d' : list (string * V)) i k v k' v' :
  Dict.keys d' = Dict.keys d →
  d !! i = Some (k, v) → d' !! i = Some (k', v') → k' = k.
Proof.
  intros Hkeys Hi Hi'. apply lookup_keys in Hi, Hi'.
  rewrite Hkeys in Hi'. congruence.
Qed.

Lemma resolve_albums_effect search fuel i clock state :
  invariant state → length (albums state) ≤ i + fuel →
  resolve_effect i state (resolve_albums search fuel i clock state).
Proof.
  apply (resolve_albums_cases search (fun i _ => resolve_effect i));
    clear fuel i clock state; unfold resolve_effect.
  - intros i clock state Hinv Hlen. split_and!; [done..|eauto|].
    intros _ j k a Hj Hlookup. apply lookup_lt_Some in Hlookup. lia.
  - intros i clock state k album [[state' calls] r] Hinv Hi Hsearched
      (Hkeys & Hinv' & Hindex & Hrecords & Hdone).
    split_and!; [done..|].
    intros Hr j k' a' Hj Hlookup.
    destruct (decide (j = i)) as [->|]; [|eapply Hdone; [done| |done]; lia].
    assert (k' = k) as -> by (by eapply (same_keys_lookup (albums state))).
    apply (lookup_get _ _ _ _ (inv_nodup _ Hinv')) in Hlookup.
    destruct (Hrecords k album) as (a'' & Hget'' & [->|[Hs _]]);
      [by eapply lookup_get, Hi; apply (inv_nodup _ Hinv)|..]; congruence.
  - intros i clock state k album Hinv Hi Hsearched Hartists.
    split_and!; [done..|eauto|done].
  - intros i clock state k album artist0 others e Hinv Hi Hsearched Hartists _.
    split_and!; [done..|eauto|done].
  - intros i clock state k album artist0 others url state' calls r
      Hinv Hi Hget Hsearched Hartists Hanswer Hinv1
      (Hkeys & Hinv' & Hindex & Hrecords & Hdone).
    assert (Dict.get k (albums (after_search k album url state))
            = Some (resolved url album)) as Hget1 by apply get_set_eq.
    destruct (Hrecords k (resolved url album) Hget1)
      as (a1 & Hk' & [->|[Hs _]]);
      [|by rewrite resolved_searched in Hs].
    assert (url ≠ "" → is_Some (bandcamp_url_to_album_key state' !! url))
      as Hurl.
    { intros Hne. apply Hindex. simpl.
      destruct (String.eqb_spec url ""); [done|].
      rewrite lookup_insert_eq. eauto. }
    split_and!.
    + rewrite Hkeys. simpl. apply keys_set_present. eauto.
    + done.
    + intros u Hu. apply Hindex. simpl.
      destruct (String.eqb url ""); [done|].
      rewrite lookup_insert. case_decide; eauto.
    + intros k0 a0 Hk0. destruct (decide (k0 = k)) as [->|Hne].
      * rewrite Hget in Hk0. injection Hk0 as <-.
        exists (resolved url album). split; [done|]. right. eauto.
      * destruct (Hrecords k0 a0) as (a' & Ha' & Hcase);
          [simpl; by rewrite get_set_ne|].
        exists a'. split; [done|]. done.
    + intros Hr j k' a' Hj Hlookup.
      destruct (decide (j = i)) as [->|]; [|eapply Hdone; [done| |done]; lia].
      assert (k' = k) as ->.
      { eapply (same_keys_lookup (albums state)); [|done..].
        rewrite Hkeys. simpl. apply keys_set_present. eauto. }
      apply (lookup_get _ _ _ _ (inv_nodup _ Hinv')) in Hlookup.
      rewrite Hk' in Hlookup. injection Hlookup as <-.
      apply resolved_searched.
Qed.

Lemma count_unsearched_cons album l :
  count_unsearched (album :: l)
  = (if Album.bandcamp_url_searched album then 0 else 1) + count_unsearched l.
Proof.
  unfold count_unsearched. simpl.
  assert (∀ l n,
            foldl (fun c a => if Album.bandcamp_url_searched a then c else S c)
                  n l
            = n + foldl (fun c a =>
                           if Album.bandcamp_url_searched a then c else S c)
                        0 l) as Hshift.
  { clear. induction l as [|a l IH]; intros n; simpl; [lia|].
    destruct (Album.bandcamp_url_searched a); [apply IH|].
    rewrite (IH (S n)), (IH 1). lia. }
  rewrite Hshift. by destruct (Album.bandcamp_url_searched album).
Qed.

Lemma drop_lookup_cons {A} (l : list A) i x :
  l !! i = Some x → drop i l = x :: drop (S i) l.
Proof. intros Hi. by rewrite (drop_S _ _ _ Hi). Qed.

Lemma resolved_artists url a :
  Album.artists (resolved url a) = Album.artists a
  ∧ Album.name (resolved url a) = Album.name a.
Proof. unfold resolved. by destruct (String.eqb url ""). Qed.

Lemma resolve_albums_calls search fuel i clock state :
  invariant state → length (albums state) ≤ i + fuel →
  resolve_calls i state (resolve_albums search fuel i clock state).
Proof.
  apply (resolve_albums_cases search (fun i _ => resolve_calls i));
    clear fuel i clock state; unfold resolve_calls.
  - intros i clock state Hinv Hlen. split_and!; [simpl; lia| |by intros ? ?%elem_of_nil|done].
    intros _. rewrite drop_ge by done. done.
  - intros i clock state k album [[state' calls] r] Hinv Hi Hsearched
      (Hle & Heq & Hcalls & Hr).
    rewrite (drop_lookup_cons _ _ _ Hi). unfold Dict.values. rewrite fmap_cons.
    rewrite count_unsearched_cons. simpl. rewrite Hsearched. done.
  - intros i clock state k album Hinv Hi Hsearched Hartists.
    split_and!; [simpl; lia|done|by intros ? ?%elem_of_nil|].
    left. split; [done|]. exists k, album. split; [|done].
    by eapply lookup_get, Hi; apply (inv_nodup _ Hinv).
  - intros i clock state k album artist0 others e Hinv Hi Hsearched Hartists
      Hanswer.
    rewrite (drop_lookup_cons _ _ _ Hi). unfold Dict.values. rewrite fmap_cons.
    rewrite count_unsearched_cons. simpl. rewrite Hsearched.
    split_and!; [lia|done| |].
    + intros c ->%list_elem_of_singleton. simpl. exists album, others.
      split_and!; [|done..].
      by eapply lookup_get, Hi; apply (inv_nodup _ Hinv).
    + right. eexists. split; [apply list_elem_of_singleton; done|done].
  - intros i clock state k album artist0 others url state' calls r
      Hinv Hi Hget Hsearched Hartists Hanswer Hinv1
      (Hle & Heq & Hcalls & Hr).
    assert (drop (S i) (albums (after_search k album url state))
            = drop (S i) (albums state)) as Hdrop.
    { simpl. rewrite <- (insert_set _ i k album) by (done || apply (inv_nodup _ Hinv)).
      apply drop_insert_lt. lia. }
    rewrite Hdrop in Hle, Heq.
    rewrite (drop_lookup_cons _ _ _ Hi). unfold Dict.values in *.
    rewrite fmap_cons, count_unsearched_cons. simpl. rewrite Hsearched.
    split_and!; [lia|intros Hok; rewrite Heq by done; lia| |].
    + intros c [->|Hc]%elem_of_cons.
      * simpl. by exists album, others.
      * destruct (Hcalls c Hc) as (a & others' & Ha & Hartists' & Hname).
        simpl in Ha. rewrite get_set in Ha. case_decide as Hk; [|eauto].
        injection Ha as <-. rewrite <- Hk, Hget.
        destruct (resolved_artists url album) as [Hra Hrn].
        rewrite Hra in Hartists'. rewrite Hrn in Hname. eauto.
    + destruct r as [|e]; [done|]. destruct Hr as [(-> & k0 & a0 & Hk0 & Ha0)|(c & Hc & He)].
      * left. split; [done|]. simpl in Hk0. rewrite get_set in Hk0.
        case_decide as Hk; [|eauto].
        injection Hk0 as <-. destruct (resolved_artists url album) as [Hra _].
        congruence.
      * right. exists c. split; [|done]. apply elem_of_cons. by right.
Qed.

Lemma shaped_new_state : shaped new_state.
Proof. constructor; simpl; done. Qed.

Lemma register_track_shaped track state n :
  shaped state → shaped (register_track track state n).1.
Proof.
  intros Hshape.
  destruct (register_track_cases track state n)
    as [[_ ->]|[(_ & _ & ->)|(artist0 & others & Hm & Ha & ->)]]; simpl;
    [done..|].
  apply mem_false in Hm.
  constructor; simpl.
  - intros k a. rewrite get_set. case_decide; subst.
    + by intros [= <-].
    + apply (shape_key _ Hshape).
  - intros k a. rewrite get_set. case_decide; subst.
    + intros [= <-]. simpl. eauto.
    + apply (shape_artists _ Hshape).
  - intros k a. rewrite get_set. case_decide; subst.
    + by intros [= <-].
    + apply (shape_found _ Hshape).
  - intros k a. rewrite get_set. case_decide; subst.
    + by intros [= <-].
    + apply (shape_not_found _ Hshape).
  - intros url k Hurl.
    destruct (shape_index _ Hshape _ _ Hurl) as (a & Hget & Hfound).
    exists a. rewrite get_set_ne; [done|]. intros <-. congruence.
Qed.

Lemma register_albums_shaped playlist :
  ∀ state n, shaped state → shaped (register_albums playlist state n).1.
Proof.
  induction playlist as [|track rest IH]; simpl; intros state n Hshape; [done|].
  pose proof (register_track_shaped track state n Hshape) as Hstep.
  destruct (register_track track state n) as [state1 [n1|e]]; simpl in *;
    [by apply IH|done].
Qed.

Lemma mark_purchased_shaped url state n :
  shaped state → shaped (mark_purchased url state n).1.
Proof.
  intros Hshape.
  destruct (mark_purchased_cases url state n)
    as [[Hi ->]|[(k & Hi & Hg & ->)|[(k & a & Hi & Hg & Hp & ->)
                                    |(k & a & Hi & Hg & Hp & ->)]]];
    simpl; [done..|].
  destruct (shape_index _ Hshape _ _ Hi) as (a' & Ha' & Hfound).
  rewrite Hg in Ha'. injection Ha' as <-.
  constructor; simpl.
  - intros k' a'. rewrite get_set. case_decide; subst.
    + intros [= <-]. simpl. by apply (shape_key _ Hshape).
    + apply (shape_key _ Hshape).
  - intros k' a'. rewrite get_set. case_decide; subst.
    + intros [= <-]. simpl. by apply (shape_artists _ Hshape k').
    + apply (shape_artists _ Hshape).
  - intros k' a'. rewrite get_set. case_decide; subst.
    + intros [= <-]. simpl. by apply (shape_found _ Hshape k').
    + apply (shape_found _ Hshape).
  - intros k' a'. rewrite get_set. case_decide; subst.
    + intros [= <-]. simpl. congruence.
    + apply (shape_not_found _ Hshape).
  - intros u k' Hu.
    destruct (shape_index _ Hshape _ _ Hu) as (a' & Ha' & Hfound').
    rewrite get_set. case_decide; subst.
    + rewrite Hg in Ha'. injection Ha' as <-.
      by exists (Album.set_purchased true a).
    + by exists a'.
Qed.

Lemma mark_purchases_shaped bandcamp_purchases :
  ∀ state n,
    shaped state → shaped (mark_purchases bandcamp_purchases state n).1.
Proof.
  induction bandcamp_purchases as [|u rest IH]; simpl; intros state n Hshape;
    [done|].
  pose proof (mark_purchased_shaped u state n Hshape) as Hstep.
  destruct (mark_purchased u state n) as [state1 [n1|e]]; simpl in *;
    [by apply IH|done].
Qed.

Lemma after_search_shaped k album url state :
  invariant state → shaped state →
  Dict.get k (albums state) = Some album →
  Album.bandcamp_url_searched album = false →
  shaped (after_search k album url state).
Proof.
  intros Hinv Hshape Hget Hsearched.
  destruct (inv_unsearched _ Hinv _ _ Hget Hsearched) as (Hnf & Hnp & Hnu).
  assert (∀ u, is_Some (bandcamp_url_to_album_key state !! u) →
            is_Some (bandcamp_url_to_album_key
                       (after_search k album url state) !! u)) as Hindex.
  { intros u Hu. simpl. destruct (String.eqb url ""); [done|].
    rewrite lookup_insert. case_decide; eauto. }
  constructor.
  - simpl. intros k' a'. rewrite get_set. case_decide; subst.
    + intros [= <-]. unfold resolved.
      destruct (String.eqb url ""); simpl; by apply (shape_key _ Hshape).
    + apply (shape_key _ Hshape).
  - simpl. intros k' a'. rewrite get_set. case_decide; subst.
    + intros [= <-]. unfold resolved.
      destruct (String.eqb url ""); simpl; by apply (shape_artists _ Hshape k').
    + apply (shape_artists _ Hshape).
  - intros k' a' Hk' Hfound. simpl in Hk'. rewrite get_set in Hk'.
    case_decide; subst.
    + injection Hk' as <-. unfold resolved in *. simpl.
      destruct (String.eqb_spec url "") as [->|Hne]; simpl in *; [congruence|].
      split; [done|]. rewrite lookup_insert_eq. eauto.
    + destruct (shape_found _ Hshape _ _ Hk' Hfound). split; [done|].
      by apply Hindex.
  - simpl. intros k' a'. rewrite get_set. case_decide; subst.
    + intros [= <-]. unfold resolved.
      destruct (String.eqb_spec url ""); simpl; [done|]. by intros [=].
    + apply (shape_not_found _ Hshape).
  - simpl. intros u k'.
    assert (bandcamp_url_to_album_key state !! u = Some k' →
            ∃ a, Dict.get k' (Dict.set k (resolved url album) (albums state))
                 = Some a ∧ Album.bandcamp_url_found a = true) as Hold.
    { intros Hu. destruct (shape_index _ Hshape _ _ Hu) as (a & Ha & Hf).
      exists a. rewrite get_set_ne; [done|]. intros ->. congruence. }
    destruct (String.eqb_spec url "") as [->|Hne]; [done|].
    rewrite lookup_insert. case_decide; [|done]. intros [= <-].
    exists (resolved url album). rewrite get_set_eq. split; [done|].
    unfold resolved. by destruct (String.eqb_spec url "").
Qed.

Lemma resolve_albums_shaped search fuel i clock state :
  invariant state → length (albums state) ≤ i + fuel →
  shaped state → shaped (resolve_albums search fuel i clock state).1.1.
Proof.
  apply (resolve_albums_cases search
           (fun _ _ state out => shaped state → shaped out.1.1));
    clear fuel i clock state; simpl; try done.
  intros i clock state k album artist0 others url state' calls r
    Hinv Hi Hget Hsearched _ _ _ IH Hshape.
  by apply IH, after_search_shaped.
Qed.

Lemma step_shaped state state' :
  invariant state → shaped state → step state state' → shaped state'.
Proof.
  intros Hinv Hshape Hstep. revert Hinv Hshape.
  destruct Hstep as [playlist state|search clock state
                    |bandcamp_purchases state]; intros Hinv Hshape.
  - by apply (register_albums_shaped playlist state 0).
  - apply resolve_albums_shaped; [done|lia|done].
  - by apply (mark_purchases_shaped bandcamp_purchases state 0).
Qed.

Lemma evolves_shaped state state' :
  invariant state → shaped state → evolves state state' → shaped state'.
Proof.
  intros Hinv Hshape. induction 1 as [|state1 state2 Hev IH Hstep]; [done|].
  eapply step_shaped; [by eapply evolves_invariant|done..].
Qed.

Lemma reachable_shaped state : reachable state → shaped state.
Proof. apply evolves_shaped; [apply invariant_new_state|apply shaped_new_state]. Qed.

(** ** More about the importer, the reconciler and the reports *)

Lemma get_app_None {V} (d e : list (string * V)) k :
  Dict.get k (d ++ e) = None → Dict.get k d = None.
Proof.
  induction d as [|[k0 v0] d IH]; [done|]. simpl.
  by destruct (String.eqb k0 k).
Qed.

Lemma register_track_extends track state n :
  ∃ added,
    albums (register_track track state n).1 = albums state ++ added
    ∧ bandcamp_url_to_album_key (register_track track state n).1
      = bandcamp_url_to_album_key state
    ∧ Forall (fun x => x.1 = album_key_of track
                       ∧ Dict.get x.1 (albums state) = None
                       ∧ ∃ artist0 others,
                           track_artists track = artist0 :: others
                           ∧ x.2 = new_album track artist0) added
    ∧ match (register_track track state n).2 with
      | Ok m => m = n + length added
      | Raise _ => added = []
      end.
Proof.
  destruct (register_track_cases track state n)
    as [[_ ->]|[(_ & _ & ->)|(artist0 & others & Hm & Hartists & ->)]]; simpl.
  - exists []. rewrite app_nil_r. split_and!; [done..|simpl; lia].
  - exists []. by rewrite app_nil_r.
  - apply mem_false in Hm. eexists [_]. rewrite set_absent by done.
    split_and!; [done..| |simpl; lia].
    constructor; [|done]. simpl. split_and!; [done..|]. eauto.
Qed.

Lemma register_albums_extends playlist :
  ∀ state n,
    ∃ added,
      albums (register_albums playlist state n).1 = albums state ++ added
      ∧ bandcamp_url_to_album_key (register_albums playlist state n).1
        = bandcamp_url_to_album_key state
      ∧ Forall (fun x => ∃ track artist0 others,
                  track ∈ playlist
                  ∧ track_artists track = artist0 :: others
                  ∧ x.1 = album_key_of track
                  ∧ x.2 = new_album track artist0
                  ∧ Dict.get x.1 (albums state) = None) added
      ∧ ∀ m, (register_albums playlist state n).2 = Ok m →
             m = n + length added.
Proof.
  induction playlist as [|track rest IH]; intros state n; simpl.
  { exists []. rewrite app_nil_r. split_and!; [done..|]. intros m [= <-]. simpl. lia. }
  destruct (register_track_extends track state n)
    as (added1 & Halbums1 & Hindex1 & Hnew1 & Hcount1).
  destruct (register_track track state n) as [state1 [n1|e]]; simpl in *.
  - destruct (IH state1 n1) as (added & Halbums & Hindex & Hnew & Hcount).
    exists (added1 ++ added). rewrite Halbums, Halbums1, Hindex, Hindex1.
    split_and!; [by rewrite app_assoc|done| |].
    + apply Forall_app. split.
      * eapply Forall_impl; [done|].
        intros x (Hk & Hnone & artist0 & others & Hartists & Hx).
        exists track, artist0, others.
        split_and!; [|done..]. apply elem_of_cons; by left.
      * eapply Forall_impl; [done|].
        intros x (t & artist0 & others & Ht & Hartists & Hk & Hx & Hnone).
        exists t, artist0, others.
        split_and!; [apply elem_of_cons; by right|done..|].
        rewrite Halbums1 in Hnone. by apply get_app_None in Hnone.
    + intros m Hm. rewrite length_app, (Hcount m Hm), Hcount1. lia.
  - exists []. subst added1. rewrite app_nil_r in Halbums1.
    rewrite app_nil_r. split_and!; done.
Qed.

Lemma register_albums_mem playlist :
  ∀ state n state' m,
    register_albums playlist state n = (state', Ok m) →
    ∀ track, track ∈ playlist →
             Dict.mem (album_key_of track) (albums state') = true.
Proof.
  induction playlist as [|track rest IH]; simpl; intros state n state' m Hrun t Ht.
  { by apply elem_of_nil in Ht. }
  destruct (register_track track state n) as [state1 [n1|e]] eqn:Hstep; [|done].
  apply elem_of_cons in Ht as [->|Ht]; [|by eapply IH].
  assert (is_Some (Dict.get (album_key_of track) (albums state1))) as [a Ha].
  { destruct (register_track_cases track state n)
      as [[Hm He]|[(_ & _ & He)|(artist0 & others & _ & _ & He)]];
      rewrite He in Hstep; simplify_eq.
    - unfold Dict.mem in Hm. destruct (Dict.get _ _); [eauto|done].
    - simpl. rewrite get_set_eq. eauto. }
  pose proof (register_albums_keeps rest state1 n1 _ _ Ha) as Hkeep.
  rewrite Hrun in Hkeep. unfold Dict.mem. simpl in Hkeep. by rewrite Hkeep.
Qed.

Lemma register_albums_known playlist :
  ∀ state n,
    (∀ track, track ∈ playlist →
              Dict.mem (album_key_of track) (albums state) = true) →
    register_albums playlist state n = (state, Ok n).
Proof.
  induction playlist as [|track rest IH]; simpl; intros state n Hknown; [done|].
  unfold register_track. rewrite Hknown by (apply elem_of_cons; by left).
  apply IH. intros t Ht. apply Hknown, elem_of_cons. by right.
Qed.

Lemma mark_purchases_settles bandcamp_purchases :
  ∀ state n state' m,
    mark_purchases bandcamp_purchases state n = (state', Ok m) →
    ∀ url, url ∈ bandcamp_purchases → settled url state'.
Proof.
  induction bandcamp_purchases as [|u rest IH]; simpl;
    intros state n state' m Hrun url Hurl.
  { by apply elem_of_nil in Hurl. }
  destruct (mark_purchased u state n) as [state1 [n1|e]] eqn:Hstep; [|done].
  apply elem_of_cons in Hurl as [->|Hurl]; [|by eapply IH].
  eapply mark_purchases_keeps_settled; [|done].
  by eapply mark_purchased_settles.
Qed.

Lemma count_purchased_set d k a :
  Dict.get k d = Some a → Album.purchased a = false →
  count_where Album.purchased
    (Dict.values (Dict.set k (Album.set_purchased true a) d))
  = S (count_where Album.purchased (Dict.values d)).
Proof.
  unfold Dict.values. induction d as [|[k0 a0] d IH]; [done|].
  cbn [Dict.get Dict.set]. destruct (String.eqb_spec k0 k) as [->|].
  - intros [= ->] Hp. rewrite !fmap_cons. cbn [count_where snd].
    rewrite Hp. reflexivity.
  - intros Hg Hp. rewrite !fmap_cons. cbn [count_where snd].
    rewrite IH by done. lia.
Qed.

Lemma mark_purchases_count bandcamp_purchases :
  ∀ state n state' m,
    mark_purchases bandcamp_purchases state n = (state', Ok m) →
    n ≤ m ∧ m ≤ n + length bandcamp_purchases
    ∧ count_where Album.purchased (Dict.values (albums state')) + n
      = count_where Album.purchased (Dict.values (albums state)) + m.
Proof.
  induction bandcamp_purchases as [|u rest IH]; simpl;
    intros state n state' m Hrun.
  { injection Hrun as <- <-. lia. }
  destruct (mark_purchased u state n) as [state1 [n1|e]] eqn:Hstep; [|done].
  destruct (IH _ _ _ _ Hrun) as (Hle & Hge & Hcount).
  destruct (mark_purchased_cases u state n)
    as [[Hi He]|[(k & Hi & Hg & He)|[(k & a & Hi & Hg & Hp & He)
                                    |(k & a & Hi & Hg & Hp & He)]]];
    rewrite He in Hstep; simplify_eq; [lia..|].
  simpl in Hcount. rewrite count_purchased_set in Hcount by done. lia.
Qed.

Lemma mark_purchases_only bandcamp_purchases :
  ∀ state n state' r,
    invariant state →
    mark_purchases bandcamp_purchases state n = (state', r) →
    ∀ k a', Dict.get k (albums state') = Some a' →
            Album.purchased a' = true →
            (∃ a, Dict.get k (albums state) = Some a
                  ∧ Album.purchased a = true)
            ∨ (Album.bandcamp_url a' ∈ bandcamp_purchases
               ∧ bandcamp_url_to_album_key state !! Album.bandcamp_url a'
                 = Some k).
Proof.
  induction bandcamp_purchases as [|u rest IH]; simpl;
    intros state n state' r Hinv Hrun k a' Hget Hp.
  { injection Hrun as <- _. left. eauto. }
  pose proof (mark_purchased_invariant u state n Hinv) as Hinv1.
  destruct (mark_purchased_frame u state n) as [Hindex1 _].
  destruct (mark_purchased u state n) as [state1 [n1|e]] eqn:Hstep;
    simpl in Hinv1, Hindex1.
  - destruct (mark_purchases_frame rest state1 n1) as [_ Hframe].
    rewrite Hrun in Hframe. simpl in Hframe.
    destruct (IH _ _ _ _ Hinv1 Hrun k a' Hget Hp)
      as [(a1 & Hget1 & Hp1)|[Hin Hi]].
    2:{ right. rewrite <- Hindex1. split; [|done]. apply elem_of_cons. by right. }
    destruct (mark_purchased_cases u state n)
      as [[_ He]|[(k0 & _ & _ & He)|[(k0 & a0 & _ & _ & _ & He)
                                    |(k0 & a0 & Hi & Hg & Hp0 & He)]]];
      rewrite He in Hstep; simplify_eq; [left; eauto..|].
    simpl in Hget1. rewrite get_set in Hget1. case_decide as Hk.
    + subst k0. injection Hget1 as <-. right.
      destruct (only_purchased_raised_get _ _ k _ Hframe
                  ltac:(simpl; apply get_set_eq)) as (a2 & Hget2 & Hsame).
      rewrite Hget in Hget2. injection Hget2 as <-.
      apply same_but_purchased_fields in Hsame as (_ & _ & _ & Hurl).
      simpl in Hurl. rewrite <- Hurl.
      destruct (inv_index _ Hinv _ _ Hi) as (a & Ha & Hu & _).
      rewrite Hg in Ha. injection Ha as <-. rewrite Hu.
      split; [apply elem_of_cons; by left|done].
    + left. eauto.
  - injection Hrun as <- _.
    destruct (mark_purchased_cases u state n)
      as [[_ He]|[(k0 & _ & _ & He)|[(k0 & a0 & _ & _ & _ & He)
                                    |(k0 & a0 & Hi & Hg & Hp0 & He)]]];
      rewrite He in Hstep; simplify_eq. left. eauto.
Qed.

Lemma mark_purchases_raises bandcamp_purchases :
  ∀ state n state' e,
    mark_purchases bandcamp_purchases state n = (state', Raise e) →
    ∃ url k, url ∈ bandcamp_purchases
             ∧ bandcamp_url_to_album_key state' !! url = Some k
             ∧ Dict.get k (albums state') = None
             ∧ e = KeyError k.
Proof.
  induction bandcamp_purchases as [|u rest IH]; simpl;
    intros state n state' e Hrun; [done|].
  destruct (mark_purchased u state n) as [state1 [n1|e1]] eqn:Hstep.
  - destruct (IH _ _ _ _ Hrun) as (url & k & Hurl & Hrest).
    exists url, k. split; [apply elem_of_cons; by right|done].
  - injection Hrun as <- <-.
    destruct (mark_purchased_cases u state n)
      as [[Hi He]|[(k & Hi & Hg & He)|[(k & a & Hi & Hg & Hp & He)
                                      |(k & a & Hi & Hg & Hp & He)]]];
      rewrite He in Hstep; simplify_eq.
    exists u, k.
    split; [apply elem_of_cons; by left|done].
Qed.

Lemma count_where_le p l : count_where p l ≤ length l.
Proof. induction l as [|a l IH]; simpl; [lia|]. destruct (p a); lia. Qed.

Lemma count_where_mono (p q : Album.t → bool) l :
  Forall (fun a => p a = true → q a = true) l →
  count_where p l ≤ count_where q l.
Proof.
  induction 1 as [|a l Ha _ IH]; simpl; [lia|].
  destruct (p a); [rewrite Ha by done|destruct (q a)]; lia.
Qed.

Lemma count_where_all p l :
  Forall (fun a => p a = true) l → count_where p l = length l.
Proof.
  induction 1 as [|a l Ha _ IH]; simpl; [done|]. by rewrite Ha, IH.
Qed.

Lemma count_album_counts l :
  ∀ n p f s,
    foldl count_album (n, p, f, s) l
    = (n + length l,
       p + count_where Album.purchased l,
       f + count_where Album.bandcamp_url_found l,
       s + count_where Album.bandcamp_url_searched l).
Proof.
  induction l as [|a l IH]; intros n p f s; cbn [foldl length count_where].
  { by rewrite !Nat.add_0_r. }
  change (count_album (n, p, f, s) a)
    with (S n,
          if Album.purchased a then S p else p,
          if Album.bandcamp_url_found a then S f else f,
          if Album.bandcamp_url_searched a then S s else s).
  rewrite IH.
  destruct (Album.purchased a), (Album.bandcamp_url_found a),
    (Album.bandcamp_url_searched a);
    repeat match goal with |- (_, _) = (_, _) => apply (f_equal2 pair) end;
    simpl; lia.
Qed.

Lemma count_unsearched_where l :
  count_unsearched l + count_where Album.bandcamp_url_searched l = length l.
Proof.
  induction l as [|a l IH]; [done|].
  rewrite count_unsearched_cons. simpl.
  destruct (Album.bandcamp_url_searched a); lia.
Qed.

Lemma print_stats_counts state :
  let l := Dict.values (albums state) in
  let n := length l in
  let p := count_where Album.purchased l in
  let f := count_where Album.bandcamp_url_found l in
  let s := count_where Album.bandcamp_url_searched l in
  print_stats state
  = ([AlbumsRegistered n; AlbumsPurchased p; AlbumsFound f (n - f);
      NotSearched (n - s)]
       ++ match n with
          | 0 => []
          | S _ => [PercentPurchased p n; PercentNotFound (n - f) n]
          end,
     match n with 0 => Raise ZeroDivisionError | S _ => Ok tt end).
Proof.
  intros l n p f s. unfold print_stats. fold l.
  rewrite count_album_counts. simpl. fold n p f s. by destruct n.
Qed.

Lemma carried_refl a : carried a a.
Proof. by unfold carried. Qed.

Lemma carried_trans a1 a2 a3 : carried a1 a2 → carried a2 a3 → carried a1 a3.
Proof.
  unfold carried.
  intros (-> & -> & -> & -> & -> & Hp1 & Hs1) (-> & -> & -> & -> & -> & Hp2 & Hs2).
  split_and!; [done..|auto|].
  intros Hs. destruct (Hs1 Hs) as (Hs' & <- & <-). auto.
Qed.

Lemma resolved_carried url a :
  Album.bandcamp_url_searched a = false → carried a (resolved url a).
Proof.
  intros Hs. unfold carried, resolved.
  destruct (String.eqb url ""); simpl; split_and!; try done; congruence.
Qed.

Lemma only_purchased_raised_carried d d' k a :
  only_purchased_raised d d' → Dict.get k d = Some a →
  ∃ a', Dict.get k d' = Some a' ∧ carried a a'.
Proof.
  induction 1 as [|[k1 a1] [k2 a2] d d' (Hk & Hsame & Hp) _ IH]; simpl in *;
    [done|].
  subst k2. destruct (String.eqb k1 k); [|done].
  intros [= <-]. exists a2. split; [done|].
  unfold same_but_purchased in Hsame. unfold carried.
  split_and!;
    [by apply (f_equal Album.key) in Hsame
    |by apply (f_equal Album.id) in Hsame
    |by apply (f_equal Album.name) in Hsame
    |by apply (f_equal Album.artists) in Hsame
    |by apply (f_equal Album.bandcamp_search_term) in Hsame
    |done|].
  intros Hs. split_and!;
    [apply (f_equal Album.bandcamp_url_searched) in Hsame
    |apply (f_equal Album.bandcamp_url_found) in Hsame
    |apply (f_equal Album.bandcamp_url) in Hsame]; simpl in Hsame; congruence.
Qed.

Lemma step_carries state state' k a :
  invariant state → step state state' →
  Dict.get k (albums state) = Some a →
  Dict.keys (albums state) `prefix_of` Dict.keys (albums state')
  ∧ ∃ a', Dict.get k (albums state') = Some a' ∧ carried a a'.
Proof.
  intros Hinv Hstep. revert Hinv.
  destruct Hstep as [playlist state|search clock state
                    |bandcamp_purchases state]; intros Hinv Hget.
  - split.
    + destruct (register_albums_extends playlist state 0)
        as (added & Halbums & _).
      unfold register, Dict.keys. rewrite Halbums, fmap_app.
      by apply prefix_app_r.
    + exists a. split; [by apply register_albums_keeps|apply carried_refl].
  - pose proof (resolve_albums_effect search (length (albums state)) 0 clock
                  state Hinv ltac:(lia)) as Heffect.
    unfold resolve.
    destruct (resolve_albums search (length (albums state)) 0 clock state)
      as [[state' calls] r].
    destruct Heffect as (Hkeys & _ & _ & Hrecords & _). simpl.
    split; [by rewrite Hkeys|].
    destruct (Hrecords k a Hget) as (a' & Ha' & [->|(Hs & url & -> & _)]).
    + exists a. split; [done|apply carried_refl].
    + eexists. split; [done|]. by apply resolved_carried.
  - destruct (mark_purchases_frame bandcamp_purchases state 0) as [_ Hframe].
    split.
    + unfold refresh. by rewrite (only_purchased_raised_keys _ _ Hframe).
    + by eapply only_purchased_raised_carried.
Qed.

Lemma evolves_carries state state' k a :
  invariant state → evolves state state' →
  Dict.get k (albums state) = Some a →
  Dict.keys (albums state) `prefix_of` Dict.keys (albums state')
  ∧ ∃ a', Dict.get k (albums state') = Some a' ∧ carried a a'.
Proof.
  intros Hinv Hev Hget.
  induction Hev as [|state1 state2 Hev IH Hstep].
  { split; [done|]. exists a. split; [done|apply carried_refl]. }
  destruct IH as (Hprefix & a1 & Hget1 & Hcarried1).
  destruct (step_carries state1 state2 k a1) as (Hprefix2 & a2 & Hget2 & Hc2);
    [by eapply evolves_invariant|done..|].
  split; [by etrans|]. exists a2. split; [done|]. by eapply carried_trans.
Qed.

(** ** No query string survives [urlparse] *)

Section absent.
Implicit Types (s t url : string) (c : ascii) (n i : nat).

Lemma str_contains_cons c a s :
  Str.contains c (String a s) = Ascii.eqb a c || Str.contains c s.
Proof.
  unfold Str.contains. cbn [Str.find]. destruct (Ascii.eqb a c); [done|].
  by destruct (Str.find c s).
Qed.

Lemma str_contains_append c s t :
  Str.contains c (s +:+ t) = Str.contains c s || Str.contains c t.
Proof.
  induction s as [|a s IH]; [done|].
  rewrite str_append_cons, !str_contains_cons, IH. by rewrite orb_assoc.
Qed.

Lemma str_contains_take c n s :
  Str.contains c s = false → Str.contains c (Str.take n s) = false.
Proof.
  revert n. induction s as [|a s IH]; intros [|n]; try done.
  cbn [Str.take]. rewrite !str_contains_cons.
  intros [-> Hs]%orb_false_elim. by rewrite IH.
Qed.

(** Nothing before the first occurrence. *)
Lemma str_contains_take_find c n s :
  match Str.find c s with Some i => n ≤ i | None => True end →
  Str.contains c (Str.take n s) = false.
Proof.
  revert n. induction s as [|a s IH]; intros [|n]; try done.
  cbn [Str.take Str.find]. rewrite str_contains_cons.
  destruct (Ascii.eqb a c); [simpl; lia|].
  intros Hn. apply IH. destruct (Str.find c s); simpl in *; [lia|done].
Qed.

Lemma str_drop_take n m s :
  Str.drop n (Str.take m s) = Str.take (m - n) (Str.drop n s).
Proof.
  revert n m. induction s as [|a s IH]; intros [|n] [|m]; simpl; try done.
  by destruct (m - n).
Qed.

Lemma str_split1_before c s before after :
  Str.split1 c s = Some (before, after) → Str.contains c before = false.
Proof.
  unfold Str.split1. destruct (Str.find c s) as [i|] eqn:Hfind; [|done].
  intros [= <- _]. apply str_contains_take_find. by rewrite Hfind.
Qed.

Lemma str_split1_none c s : Str.split1 c s = None → Str.contains c s = false.
Proof.
  unfold Str.split1, Str.contains. by destruct (Str.find c s).
Qed.

Lemma str_split1_prefix c s before after :
  Str.split1 c s = Some (before, after) → ∃ n, before = Str.take n s.
Proof.
  unfold Str.split1. destruct (Str.find c s) as [i|]; [|done].
  intros [= <- _]. eauto.
Qed.

Lemma split_fragment_absent url :
  Str.contains "#" (urllib.split_fragment url).1 = false.
Proof.
  unfold urllib.split_fragment.
  destruct (Str.split1 "#" url) as [[u f]|] eqn:Hsplit; simpl.
  - by eapply str_split1_before.
  - by apply str_split1_none.
Qed.

Lemma split_query_absent url :
  Str.contains "?" (urllib.split_query url).1 = false
  ∧ (Str.contains "#" url = false →
     Str.contains "#" (urllib.split_query url).1 = false).
Proof.
  unfold urllib.split_query.
  destruct (Str.split1 "?" url) as [[u q]|] eqn:Hsplit; simpl.
  - split; [by eapply str_split1_before|].
    destruct (str_split1_prefix _ _ _ _ Hsplit) as [n ->]. apply str_contains_take.
  - split; [by apply str_split1_none|done].
Qed.

Lemma splitparams_absent c url :
  Str.contains c url = false →
  Str.contains c (urllib._splitparams url).1 = false.
Proof.
  intros Hc. unfold urllib._splitparams.
  destruct (Str.rfind "/" url);
    [destruct (Str.find_from ";" _ url)|destruct (Str.find ";" url)]; simpl;
    done || by apply str_contains_take.
Qed.

Lemma splitnetloc_absent c url :
  Str.contains c "/?#" = true →
  Str.contains c (urllib._splitnetloc url 2).1 = false.
Proof.
  intros Hc. unfold urllib._splitnetloc. cbn [fst foldl].
  rewrite str_drop_take. apply str_contains_take_find.
  unfold Str.find_from.
  destruct (str_contains_delimiter c Hc) as [-> | [-> | ->]];
    destruct (Str.find "/" (Str.drop 2 url)),
      (Str.find "?" (Str.drop 2 url)), (Str.find "#" (Str.drop 2 url));
    simpl; lia.
Qed.

Lemma split_netloc_absent valid c url netloc rest :
  Str.contains c "/?#" = true →
  urllib.split_netloc valid url = Ok (netloc, rest) →
  Str.contains c netloc = false.
Proof.
  intros Hc. unfold urllib.split_netloc.
  destruct (String.eqb (Str.take 2 url) "//"); [|by intros [= <- _]].
  pose proof (splitnetloc_absent c url Hc) as Habsent.
  destruct (urllib._splitnetloc url 2) as [n r]. simpl in Habsent.
  repeat case_match; try done. by intros [= <- _].
Qed.

Lemma urlparse_absent valid href link :
  urllib.urlparse valid href = Ok link →
  Str.contains "?" (urllib.netloc link +:+ urllib.path link) = false
  ∧ Str.contains "#" (urllib.netloc link +:+ urllib.path link) = false
  ∧ Str.contains "/" (urllib.netloc link) = false.
Proof.
  unfold urllib.urlparse, urllib.urlsplit.
  destruct (urllib.split_scheme _) as [scheme url1].
  destruct (urllib.split_netloc valid url1) as [[netloc url2]|e] eqn:Hnetloc;
    [|done].
  cbn [mbind result_bind].
  pose proof (split_fragment_absent url2) as Hf.
  destruct (urllib.split_fragment url2) as [url3 fragment]. simpl in Hf.
  destruct (split_query_absent url3) as [Hq Hqf]. specialize (Hqf Hf).
  destruct (urllib.split_query url3) as [url4 query]. simpl in Hq, Hqf.
  destruct (negb _ && negb _); [done|]. cbn [mbind result_bind].
  pose proof (splitparams_absent "?" url4 Hq) as Hpq.
  pose proof (splitparams_absent "#" url4 Hqf) as Hpf.
  destruct (bool_decide _ && Str.contains ";" url4);
    [destruct (urllib._splitparams url4) as [url5 params]|];
    intros [= <-]; cbn [urllib.netloc urllib.path];
    rewrite !str_contains_append;
    rewrite (split_netloc_absent valid "?" _ _ _ eq_refl Hnetloc),
      (split_netloc_absent valid "#" _ _ _ eq_refl Hnetloc),
      (split_netloc_absent valid "/" _ _ _ eq_refl Hnetloc); simpl in *;
    by rewrite ?Hq, ?Hqf, ?Hpq, ?Hpf.
Qed.
End absent.

(** ** The playlist address *)

Section playlist_id.
Implicit Types (s t dir id : string) (c : ascii).

Lemma str_rfind_absent c s : Str.contains c s = false → Str.rfind c s = None.
Proof.
  induction s as [|a s IH]; [done|]. rewrite str_contains_cons.
  intros [Ha Hs]%orb_false_elim. cbn [Str.rfind]. by rewrite IH, Ha.
Qed.

Lemma str_rfind_append c s t j :
  Str.rfind c t = Some j → Str.rfind c (s +:+ t) = Some (String.length s + j).
Proof.
  intros Ht. induction s as [|a s IH]; [done|].
  rewrite str_append_cons. cbn [Str.rfind]. by rewrite IH.
Qed.

Lemma path_tail_last dir id :
  Str.contains "/" id = false → path_tail (dir +:+ String "/" id) = id.
Proof.
  intros Hid. unfold path_tail.
  rewrite (str_rfind_append "/" dir (String "/" id) 0).
  2:{ cbn [Str.rfind]. by rewrite str_rfind_absent. }
  replace (S (String.length dir + 0)) with (String.length dir + 1) by lia.
  by rewrite str_drop_append.
Qed.

Lemma urlparse_https_path valid host path :
  plain_host host = true → plain_path (String "/" path) = true →
  urllib.urlparse valid ("https://" +:+ host +:+ String "/" path)
  = Ok {| urllib.scheme := "https"; urllib.netloc := host;
          urllib.path := String "/" path; urllib.params := "";
          urllib.query := ""; urllib.fragment := "" |}.
Proof.
  intros Hhost Hpath.
  set (safe := fun a => negb (urllib.unsafe_url_byte a)).
  assert (Str.filter safe host = host) as Hfh.
  { apply str_filter_all, (plain_host_all _ _ Hhost).
    by intros a [[_ ?]%andb_prop _]%andb_prop. }
  assert (Str.filter safe (String "/" path) = String "/" path) as Hfp.
  { apply str_filter_all, (plain_path_all _ _ Hpath).
    by intros a [? _]%andb_prop. }
  assert (∀ c, Str.contains c "?#;" = true →
               Str.contains c (String "/" path) = false) as Habsent.
  { intros c Hc. apply str_contains_absent, (plain_path_all _ _ Hpath).
    intros a [_ Ha]%andb_prop. by apply (str_not_contains_neq a _ "?#;"). }
  unfold urllib.urlparse, urllib.urlsplit.
  change (Str.lstrip urllib.c0_control_or_space
            ("https://" +:+ host +:+ String "/" path))
    with ("https://" +:+ host +:+ String "/" path).
  fold safe.
  change (Str.filter safe ("https://" +:+ host +:+ String "/" path))
    with ("https://" +:+ Str.filter safe (host +:+ String "/" path)).
  rewrite str_filter_append, Hfh, Hfp.
  change (urllib.split_scheme ("https://" +:+ host +:+ String "/" path))
    with ("https", "//" +:+ host +:+ String "/" path).
  cbv iota beta. rewrite split_netloc_plain by done.
  cbn [mbind result_bind].
  unfold urllib.split_fragment, urllib.split_query, Str.split1.
  pose proof (Habsent "#"%char eq_refl) as Hf.
  pose proof (Habsent "?"%char eq_refl) as Hq.
  pose proof (Habsent ";"%char eq_refl) as Hp.
  unfold Str.contains in Hf, Hq.
  destruct (Str.find "#" (String "/" path)); [done|]. cbn [fmap option_fmap option_map].
  destruct (Str.find "?" (String "/" path)); [done|]. cbn [fmap option_fmap option_map].
  assert (Str.all Str.is_ascii host = true) as ->.
  { apply (plain_host_all _ _ Hhost).
    by intros a [[? _]%andb_prop _]%andb_prop. }
  cbn [negb andb mbind result_bind]. rewrite Hp. by rewrite andb_false_r.
Qed.
End playlist_id.

Lemma bind_ok {A B} (m : Prog A) (k : A → Prog B) p p' b :
  (m ≫= k) p = (p', Ok b) → ∃ a p1, m p = (p1, Ok a) ∧ k a p1 = (p', Ok b).
Proof.
  unfold mbind, prog_bind. destruct (m p) as [p1 [a|e]]; [eauto|done].
Qed.

Lemma only_purchased_raised_searched d d' :
  only_purchased_raised d d' →
  (∀ k a, (k, a) ∈ d → Album.bandcamp_url_searched a = true) →
  ∀ k a, (k, a) ∈ d' → Album.bandcamp_url_searched a = true.
Proof.
  induction 1 as [|[k1 a1] [k2 a2] d d' (Hk & Hsame & _) _ IH]; intros Hd k a.
  { by intros ?%elem_of_nil. }
  simpl in Hk, Hsame. intros [[= -> ->]|Hin]%elem_of_cons.
  - destruct (same_but_purchased_fields _ _ Hsame) as (_ & <- & _).
    apply (Hd k1). apply elem_of_cons. by left.
  - eapply IH; [|done]. intros k' a' Hin'. apply (Hd k').
    apply elem_of_cons. by right.
Qed.

Lemma count_unsearched_zero l :
  Forall (fun a => Album.bandcamp_url_searched a = true) l →
  count_unsearched l = 0.
Proof.
  intros Hall. pose proof (count_unsearched_where l) as Hsum.
  rewrite (count_where_all _ _ Hall) in Hsum. lia.
Qed.

(** ** Properties of the passes *)

Lemma all_searched_values state :
  (∀ k a, (k, a) ∈ albums state → Album.bandcamp_url_searched a = true) →
  Forall (fun a => Album.bandcamp_url_searched a = true)
         (Dict.values (albums state)).
Proof.
  intros Hall. apply Forall_forall. intros a Ha.
  apply list_elem_of_fmap in Ha as ([k a'] & -> & Hin). by apply (Hall k).
Qed.

Lemma resolve_completed search clock state state' calls :
  invariant state →
  resolve search clock state = (state', calls, Ok tt) →
  (∀ k a, (k, a) ∈ albums state' → Album.bandcamp_url_searched a = true)
  ∧ length calls = unsearched_count state.
Proof.
  intros Hinv Hrun. unfold resolve in Hrun.
  pose proof (resolve_albums_effect search (length (albums state)) 0 clock
                state Hinv ltac:(lia)) as Heffect.
  pose proof (resolve_albums_calls search (length (albums state)) 0 clock
                state Hinv ltac:(lia)) as Hcalls.
  rewrite Hrun in Heffect, Hcalls.
  destruct Heffect as (_ & _ & _ & _ & Hdone).
  destruct Hcalls as (_ & Hcount & _). split.
  - intros k a [j Hj]%list_elem_of_lookup. eapply (Hdone eq_refl j); [lia|done].
  - by rewrite Hcount.
Qed.

(** X1: a resolver pass that runs to its end from a reachable state leaves
    every album searched; it made as many calls of the search as lines 129
    to 132 counted albums not searched, and a new count gives 0. *)
Theorem resolve_completed_searches_all (search : nat → string → string → result string)
    (clock : nat) (state state' : State) (calls : list Call) :
  reachable state →
  resolve search clock state = (state', calls, Ok tt) →
  (∀ k a, (k, a) ∈ albums state' → Album.bandcamp_url_searched a = true)
  ∧ length calls = unsearched_count state
  ∧ unsearched_count state' = 0.
Proof.
  intros Hreach Hrun.
  destruct (resolve_completed search clock state state' calls
              (reachable_invariant _ Hreach) Hrun) as [Hall Hcount].
  split_and!; [done..|].
  by apply count_unsearched_zero, all_searched_values.
Qed.

(** X2: from a reachable state the resolver makes at most as many calls as
    there are albums not searched, and an exception that ends it is the one
    a call of the search raised: the loop itself raises neither
    [IndexError] nor [RuntimeError]. *)
Theorem resolve_fails_only_with_search (search : nat → string → string → result string)
    (clock : nat) (state : State) :
  reachable state →
  length (resolve search clock state).1.2 ≤ unsearched_count state
  ∧ match (resolve search clock state).2 with
    | Ok _ => True
    | Raise e =>
        ∃ c, c ∈ (resolve search clock state).1.2 ∧ call_answer c = Raise e
    end.
Proof.
  intros Hreach. pose proof (reachable_invariant _ Hreach) as Hinv.
  pose proof (resolve_albums_calls search (length (albums state)) 0 clock
                state Hinv ltac:(lia)) as Hcalls.
  unfold resolve.
  destruct (resolve_albums search (length (albums state)) 0 clock state)
    as [[state' calls] r].
  destruct Hcalls as (Hle & _ & _ & Hr). simpl. split; [done|].
  destruct r as [|e]; [done|].
  destruct Hr as [(_ & k & a & Hget & Hartists)|Hc]; [|done].
  destruct (shape_artists _ (reachable_shaped _ Hreach) _ _ Hget)
    as (artist0 & others & Ha & _). congruence.
Qed.

(** X3: a resolver pass from a reachable state keeps the keys of the
    albums and their order and keeps every address of the reverse index;
    of a record it changes at most the three search fields, never
    [purchased] and never a record that was searched already. *)
Theorem resolve_frame (search : nat → string → string → result string)
    (clock : nat) (state : State) :
  reachable state →
  let state' := (resolve search clock state).1.1 in
  Dict.keys (albums state') = Dict.keys (albums state)
  ∧ (∀ url, is_Some (bandcamp_url_to_album_key state !! url) →
            is_Some (bandcamp_url_to_album_key state' !! url))
  ∧ ∀ k a, Dict.get k (albums state) = Some a →
      ∃ a', Dict.get k (albums state') = Some a'
            ∧ carried a a'
            ∧ Album.purchased a' = Album.purchased a
            ∧ (Album.bandcamp_url_searched a = true → a' = a).
Proof.
  intros Hreach. pose proof (reachable_invariant _ Hreach) as Hinv.
  pose proof (resolve_albums_effect search (length (albums state)) 0 clock
                state Hinv ltac:(lia)) as Heffect.
  unfold resolve.
  destruct (resolve_albums search (length (albums state)) 0 clock state)
    as [[state' calls] r].
  destruct Heffect as (Hkeys & _ & Hindex & Hrecords & _). simpl.
  split_and!; [done..|]. intros k a Hget.
  destruct (Hrecords k a Hget) as (a' & Ha' & [->|(Hs & url & -> & _)]).
  - exists a. split_and!; [done|apply carried_refl|done..].
  - eexists. split_and!; [done|by apply resolved_carried| |congruence].
    unfold resolved. by destruct (String.eqb url "").
Qed.

(** X4: the query the resolver sends for an album of a reachable state,
    built from [artists[0]] and [name] at line 137, is the
    [bandcamp_search_term] stored when the album was created. *)
Theorem search_query_is_search_term (search : nat → string → string → result string)
    (clock : nat) (state : State) (c : Call) :
  reachable state →
  c ∈ (resolve search clock state).1.2 →
  ∃ a, Dict.get (call_key c) (albums state) = Some a
       ∧ Album.bandcamp_url_searched a = false
       ∧ request_of_call c = SearchRequest (Album.bandcamp_search_term a).
Proof.
  intros Hreach. pose proof (reachable_invariant _ Hreach) as Hinv.
  pose proof (resolve_albums_calls search (length (albums state)) 0 clock
                state Hinv ltac:(lia)) as Hcalls.
  pose proof (resolve_albums_spec search (length (albums state)) 0 clock state)
    as Hspec.
  unfold resolve.
  destruct (resolve_albums search (length (albums state)) 0 clock state)
    as [[state' calls] r].
  destruct Hcalls as (_ & _ & Hmade & _). simpl. intros Hc.
  destruct (Hspec _ _ _ Hinv eq_refl) as (_ & _ & _ & Hstored).
  destruct (Hstored c Hc) as (a0 & Hget0 & Hs & _).
  destruct (Hmade c Hc) as (a & others & Hget & Hartists & Hname).
  rewrite Hget0 in Hget. injection Hget as <-.
  exists a0. split_and!; [done..|].
  destruct (shape_artists _ (reachable_shaped _ Hreach) _ _ Hget0)
    as (artist0 & others' & Ha & ->).
  unfold request_of_call. rewrite Ha in Hartists. injection Hartists as -> _.
  by rewrite Hname.
Qed.

(** X5: the importer only appends: the reverse index and the albums
    already stored stay as they are; every record added is the record line
    112 builds for a track of the playlist and the first of that track's
    artists, stored under the track's name:id, which no album stored before
    had; and the count it reports is the number of records added. *)
Theorem register_extends (playlist : list Track) (state : State) :
  let state' := (register playlist state).1 in
  bandcamp_url_to_album_key state' = bandcamp_url_to_album_key state
  ∧ ∃ added,
      albums state' = albums state ++ added
      ∧ Forall (fun x => ∃ track artist0 others,
                  track ∈ playlist
                  ∧ track_artists track = artist0 :: others
                  ∧ x.1 = album_key_of track
                  ∧ x.2 = new_album track artist0
                  ∧ Album.bandcamp_search_term x.2
                    = artist0 +:+ " " +:+ track_album_name track
                  ∧ Dict.get x.1 (albums state) = None) added
      ∧ (∀ n, (register playlist state).2 = Ok n → n = length added)
      ∧ ∀ k a, Dict.get k (albums state) = Some a →
               Dict.get k (albums state') = Some a.
Proof.
  unfold register.
  destruct (register_albums_extends playlist state 0)
    as (added & Halbums & Hindex & Hnew & Hcount).
  split; [done|]. exists added. split_and!; [done| | |].
  - eapply Forall_impl; [done|].
    intros x (track & artist0 & others & Ht & Hartists & Hk & Hx & Hnone).
    exists track, artist0, others. split_and!; [done..| |done].
    by rewrite Hx.
  - intros n Hn. by rewrite (Hcount n Hn).
  - intros k a. apply register_albums_keeps.
Qed.

(** X6: after an import that ran to its end every track of the playlist
    has its album in the store, the count is at most the length of the
    playlist, and importing the same playlist again changes nothing and
    counts 0. *)
Theorem register_again (playlist : list Track) (state state' : State)
    (n : nat) :
  register playlist state = (state', Ok n) →
  (∀ track, track ∈ playlist →
            Dict.mem (album_key_of track) (albums state') = true)
  ∧ n ≤ length playlist
  ∧ register playlist state' = (state', Ok 0).
Proof.
  unfold register. intros Hrun.
  pose proof (register_albums_mem _ _ _ _ _ Hrun) as Hmem.
  split_and!; [done| |by apply register_albums_known].
  destruct (register_albums_extends playlist state 0)
    as (added & _ & _ & _ & Hcount).
  rewrite Hrun in Hcount. specialize (Hcount n eq_refl).
  clear -Hrun. revert state n Hrun.
  assert (∀ state m n, register_albums playlist state m = (state', Ok n) →
                       n ≤ m + length playlist) as Hbound.
  { induction playlist as [|track rest IH]; simpl; intros state m n Hrun.
    { injection Hrun as _ <-. lia. }
    destruct (register_track_cases track state m)
      as [[_ He]|[(_ & _ & He)|(artist0 & others & _ & _ & He)]];
      rewrite He in Hrun; [|done|];
      apply IH in Hrun; lia. }
  intros state n Hrun. apply Hbound in Hrun. lia.
Qed.

(** X7: after a purchase pass over a reachable state, every purchased
    address the reverse index knows has its album marked purchased, and an
    album is purchased afterwards only if it was before or its address is
    one of the purchases and the reverse index leads from it to the album;
    the count reported is at most the number of purchases and is exactly
    the number of albums that became purchased.  In a reachable state
    every record is stored under its own key and nowhere else, so that the
    assignment of line 78 changes one album. *)
Theorem refresh_marks_purchases (bandcamp_purchases : list string)
    (state state' : State) (n : nat) :
  reachable state →
  refresh bandcamp_purchases state = (state', Ok n) →
  (∀ url k, url ∈ bandcamp_purchases →
            bandcamp_url_to_album_key state !! url = Some k →
            ∃ a, Dict.get k (albums state') = Some a
                 ∧ Album.purchased a = true)
  ∧ (∀ k a', Dict.get k (albums state') = Some a' →
             Album.purchased a' = true →
             (∃ a, Dict.get k (albums state) = Some a
                   ∧ Album.purchased a = true)
             ∨ (Album.bandcamp_url a' ∈ bandcamp_purchases
                ∧ bandcamp_url_to_album_key state !! Album.bandcamp_url a'
                  = Some k))
  ∧ n ≤ length bandcamp_purchases
  ∧ count_where Album.purchased (Dict.values (albums state'))
    = count_where Album.purchased (Dict.values (albums state)) + n.
Proof.
  unfold refresh. intros Hreach Hrun.
  destruct (mark_purchases_count _ _ _ _ _ Hrun) as (_ & Hle & Hcount).
  split_and!; [| |lia..].
  - intros url k Hurl Hindex.
    pose proof (mark_purchases_settles _ _ _ _ _ Hrun url Hurl) as Hsettled.
    destruct (mark_purchases_frame bandcamp_purchases state 0) as [Hi _].
    rewrite Hrun in Hi. simpl in Hi. unfold settled in Hsettled.
    by rewrite Hi, Hindex in Hsettled.
  - by apply (mark_purchases_only _ _ _ _ _ (reachable_invariant _ Hreach)
                Hrun).
Qed.

(** X8: the purchase pass raises only [KeyError], for a purchased address
    that the reverse index maps to a key without album; in a reachable state
    there is no such entry and the pass always runs to its end. *)
Theorem refresh_raises_on_dangling (bandcamp_purchases : list string)
    (state : State) :
  (∀ state' e,
      refresh bandcamp_purchases state = (state', Raise e) →
      ∃ url k, url ∈ bandcamp_purchases
               ∧ bandcamp_url_to_album_key state !! url = Some k
               ∧ Dict.get k (albums state) = None
               ∧ e = KeyError k)
  ∧ (reachable state →
     ∃ n, (refresh bandcamp_purchases state).2 = Ok n).
Proof.
  unfold refresh.
  assert (∀ state' e,
            mark_purchases bandcamp_purchases state 0 = (state', Raise e) →
            ∃ url k, url ∈ bandcamp_purchases
                     ∧ bandcamp_url_to_album_key state !! url = Some k
                     ∧ Dict.get k (albums state) = None
                     ∧ e = KeyError k) as Hraise.
  { intros state' e Hrun.
    destruct (mark_purchases_raises _ _ _ _ _ Hrun)
      as (url & k & Hurl & Hindex & Hget & ->).
    destruct (mark_purchases_frame bandcamp_purchases state 0) as [Hi Hframe].
    rewrite Hrun in Hi, Hframe. simpl in Hi, Hframe.
    exists url, k. split_and!; [done|by rewrite <- Hi| |done].
    apply get_None. apply get_None in Hget.
    by rewrite <- (only_purchased_raised_keys _ _ Hframe). }
  split; [done|]. intros Hreach.
  destruct (mark_purchases bandcamp_purchases state 0) as [state' [n|e]] eqn:Hrun;
    [eauto|].
  destruct (Hraise _ _ eq_refl) as (url & k & _ & Hindex & Hget & _).
  destruct (inv_index _ (reachable_invariant _ Hreach) _ _ Hindex)
    as (a & Ha & _). congruence.
Qed.

(** X9: albums are never removed or reordered and their records keep
    what they had: from a reachable state, any later state has the old keys
    as a prefix of its keys, and every old record is still stored under its
    key with the same key, id, name, artists and search term, still
    purchased if it was, and still searched with the same outcome. *)
Theorem albums_persist (state state' : State) :
  reachable state → evolves state state' →
  Dict.keys (albums state) `prefix_of` Dict.keys (albums state')
  ∧ ∀ k a, Dict.get k (albums state) = Some a →
      ∃ a', Dict.get k (albums state') = Some a' ∧ carried a a'.
Proof.
  intros Hreach Hev. pose proof (reachable_invariant _ Hreach) as Hinv.
  split.
  - clear Hreach. induction Hev as [|state1 state2 Hev IH Hstep]; [done|].
    etrans; [exact IH|].
    pose proof (evolves_invariant _ _ Hinv Hev) as Hinv1.
    destruct (albums state1) as [|[k a] d] eqn:Hd.
    { apply prefix_nil. }
    destruct (step_carries state1 state2 k a Hinv1 Hstep) as [Hp _].
    { rewrite Hd. simpl. by rewrite String.eqb_refl. }
    by rewrite Hd in Hp.
  - intros k a Hget. by destruct (evolves_carries _ _ _ _ Hinv Hev Hget).
Qed.

Lemma elem_of_values_get state a :
  invariant state → a ∈ Dict.values (albums state) →
  ∃ k, (k, a) ∈ albums state ∧ Dict.get k (albums state) = Some a.
Proof.
  intros Hinv ([k a'] & -> & Hin)%list_elem_of_fmap. exists k.
  split; [done|]. by apply elem_of_get; [apply (inv_nodup _ Hinv)|].
Qed.

(** X10: every line [print_unpurchased] prints for a reachable state is
    the address of a stored album that is not purchased; the address is not
    empty and is a key of the reverse index. *)
Theorem print_unpurchased_lines (state : State) (line : Line) :
  reachable state →
  line ∈ print_unpurchased state →
  ∃ k a, (k, a) ∈ albums state
         ∧ line = UnpurchasedUrl (Album.bandcamp_url a)
         ∧ Album.purchased a = false
         ∧ Album.bandcamp_url a ≠ ""
         ∧ is_Some (bandcamp_url_to_album_key state !! Album.bandcamp_url a).
Proof.
  intros Hreach. unfold print_unpurchased.
  intros (a & Ha & Hline)%list_elem_of_omap.
  destruct (elem_of_values_get _ _ (reachable_invariant _ Hreach) Ha)
    as (k & Hin & Hget).
  destruct (Album.purchased a) eqn:Hp; [done|].
  destruct (Album.bandcamp_url_found a) eqn:Hf; [|done].
  injection Hline as <-.
  destruct (shape_found _ (reachable_shaped _ Hreach) _ _ Hget Hf).
  exists k, a. by split_and!.
Qed.

(** X11: every record of a reachable state is stored under name:id, which
    is also its [key] field; it has a first artist, and its search term is
    that artist, a space and the name; it is found exactly when its address
    is not empty; a purchased record is found and a found record is
    searched. *)
Theorem stored_record_shape (state : State) (k : string) (a : Album.t) :
  reachable state → (k, a) ∈ albums state →
  k = Album.name a +:+ ":" +:+ Album.id a
  ∧ Album.key a = k
  ∧ (∃ artist0 others,
        Album.artists a = artist0 :: others
        ∧ Album.bandcamp_search_term a = artist0 +:+ " " +:+ Album.name a)
  ∧ (Album.bandcamp_url_found a = true ↔ Album.bandcamp_url a ≠ "")
  ∧ (Album.purchased a = true → Album.bandcamp_url_found a = true)
  ∧ (Album.bandcamp_url_found a = true →
     Album.bandcamp_url_searched a = true).
Proof.
  intros Hreach Hin. pose proof (reachable_invariant _ Hreach) as Hinv.
  pose proof (reachable_shaped _ Hreach) as Hshape.
  apply (elem_of_get _ _ _ (inv_nodup _ Hinv)) in Hin.
  split_and!.
  - by apply (shape_key _ Hshape).
  - by apply (inv_key _ Hinv).
  - by apply (shape_artists _ Hshape k).
  - split.
    + intros Hf. by destruct (shape_found _ Hshape _ _ Hin Hf).
    + intros Hurl. destruct (Album.bandcamp_url_found a) eqn:Hf; [done|].
      by destruct (shape_not_found _ Hshape _ _ Hin Hf).
  - intros Hp. destruct (Album.bandcamp_url_found a) eqn:Hf; [done|].
    destruct (shape_not_found _ Hshape _ _ Hin Hf). congruence.
  - intros Hf. destruct (Album.bandcamp_url_searched a) eqn:Hs; [done|].
    destruct (inv_unsearched _ Hinv _ _ Hin Hs). congruence.
Qed.

(** X12: [print_stats] prints the number of albums, of purchased albums,
    of found and of not found albums and of albums not searched; none of
    the counts exceeds the number of albums, so the differences are the
    true ones; the two percentages follow unless there is no album, and
    then the function raises [ZeroDivisionError]. *)
Theorem print_stats_lines (state : State) :
  let l := Dict.values (albums state) in
  let n := length (albums state) in
  let p := count_where Album.purchased l in
  let f := count_where Album.bandcamp_url_found l in
  let s := count_where Album.bandcamp_url_searched l in
  p ≤ n ∧ f ≤ n ∧ s ≤ n
  ∧ n - s = unsearched_count state
  ∧ print_stats state
    = ([AlbumsRegistered n; AlbumsPurchased p; AlbumsFound f (n - f);
        NotSearched (n - s)]
         ++ match n with
            | 0 => []
            | S _ => [PercentPurchased p n; PercentNotFound (n - f) n]
            end,
       match n with 0 => Raise ZeroDivisionError | S _ => Ok tt end).
Proof.
  intros l n p f s.
  assert (length l = n) as Hn by apply length_fmap.
  pose proof (count_where_le Album.purchased l).
  pose proof (count_where_le Album.bandcamp_url_found l).
  pose proof (count_where_le Album.bandcamp_url_searched l).
  pose proof (count_unsearched_where l).
  split_and!; [unfold p, f, s, unsearched_count; fold l; lia..|].
  rewrite print_stats_counts. fold l. by rewrite Hn.
Qed.

(** X13: for a reachable state the counts that [print_stats] prints are
    ordered: purchased at most found, found at most searched, searched at
    most the number of albums. *)
Theorem stats_counts_ordered (state : State) :
  reachable state →
  let l := Dict.values (albums state) in
  count_where Album.purchased l ≤ count_where Album.bandcamp_url_found l
  ∧ count_where Album.bandcamp_url_found l
    ≤ count_where Album.bandcamp_url_searched l
  ∧ count_where Album.bandcamp_url_searched l ≤ length (albums state)
  ∧ take 4 (print_stats state).1
    = [AlbumsRegistered (length (albums state));
       AlbumsPurchased (count_where Album.purchased l);
       AlbumsFound (count_where Album.bandcamp_url_found l)
         (length (albums state) - count_where Album.bandcamp_url_found l);
       NotSearched (length (albums state)
                    - count_where Album.bandcamp_url_searched l)].
Proof.
  intros Hreach l.
  assert (Forall (fun a =>
                    (Album.purchased a = true →
                     Album.bandcamp_url_found a = true)
                    ∧ (Album.bandcamp_url_found a = true →
                       Album.bandcamp_url_searched a = true)) l) as Hall.
  { apply Forall_forall. intros a Ha.
    destruct (elem_of_values_get _ _ (reachable_invariant _ Hreach) Ha)
      as (k & Hin & Hget).
    pose proof (reachable_shaped _ Hreach) as Hshape.
    pose proof (reachable_invariant _ Hreach) as Hinv. split.
    - intros Hp. destruct (Album.bandcamp_url_found a) eqn:Hf; [done|].
      destruct (shape_not_found _ Hshape _ _ Hget Hf). congruence.
    - intros Hf. destruct (Album.bandcamp_url_searched a) eqn:Hs; [done|].
      destruct (inv_unsearched _ Hinv _ _ Hget Hs). congruence. }
  split_and!.
  - apply count_where_mono. eapply Forall_impl; [done|]. by intros a [? _].
  - apply count_where_mono. eapply Forall_impl; [done|]. by intros a [_ ?].
  - rewrite <- (length_fmap snd (albums state)). apply count_where_le.
  - rewrite print_stats_counts. fold l. unfold l at 1 4 6.
    unfold Dict.values. rewrite length_fmap. done.
Qed.

(** ** The address the resolver stores *)

(** The answer of the [j]-th call of a pass is what the search says at
    that time. *)
Lemma resolve_albums_answers search :
  ∀ fuel i clock state j c,
    (resolve_albums search fuel i clock state).1.2 !! j = Some c →
    call_answer c = search (clock + j) (call_artist c) (call_album c).
Proof.
  induction fuel as [|fuel IH]; intros i clock state j c; simpl; [done|].
  destruct (albums state !! i) as [[k album]|]; [|done].
  destruct (Album.bandcamp_url_searched album); [apply IH|].
  destruct (Album.artists album) as [|artist0 others]; [done|].
  destruct (search clock artist0 (Album.name album)) as [url|e] eqn:Hanswer.
  2:{ simpl. destruct j; [|done]. intros [= <-]. simpl.
      by rewrite Nat.add_0_r. }
  destruct (length (albums (store_search_result i k album url state))
            =? length (albums state)).
  2:{ simpl. destruct j; [|done]. intros [= <-]. simpl.
      by rewrite Nat.add_0_r. }
  specialize (IH (S i) (S clock) (store_search_result i k album url state)).
  destruct (resolve_albums search fuel (S i) (S clock)
              (store_search_result i k album url state))
    as [[state2 calls2] r2].
  simpl in *. destruct j as [|j]; simpl.
  - intros [= <-]. simpl. by rewrite Nat.add_0_r.
  - intros Hj. rewrite (IH j c Hj). f_equal. lia.
Qed.

Lemma resolved_found url a :
  url ≠ "" → Album.bandcamp_url_found (resolved url a) = true.
Proof.
  unfold resolved. destruct (String.eqb_spec url ""); [done|]. by intros _.
Qed.

(** An address the search has answered with is stored when the pass ends,
    however it ends. *)
Lemma resolve_stores search clock state j c url :
  reachable state →
  (resolve search clock state).1.2 !! j = Some c →
  call_answer c = Ok url → url ≠ "" →
  stored_for url (call_key c) (resolve search clock state).1.1.
Proof.
  intros Hreach Hj Hanswer Hne.
  pose proof (reachable_invariant _ Hreach) as Hinv.
  pose proof (resolve_albums_spec search (length (albums state)) 0 clock
                state) as Hspec.
  pose proof (resolve_albums_effect search (length (albums state)) 0 clock
                state Hinv ltac:(lia)) as Heffect.
  unfold resolve in *.
  destruct (resolve_albums search (length (albums state)) 0 clock state)
    as [[state' calls] r].
  simpl in *.
  destruct (Hspec _ _ _ Hinv eq_refl) as (Hinv' & _ & _ & Hstored).
  destruct (Hstored c (list_elem_of_lookup_2 _ _ _ Hj))
    as (a & Hget & Hs & Hurl).
  specialize (Hurl url Hanswer).
  destruct Heffect as (_ & _ & _ & Hrecords & _).
  destruct (Hrecords _ _ Hget) as (a' & Ha' & Hcase).
  rewrite Hurl in Ha'. injection Ha' as <-.
  assert (is_Some (bandcamp_url_to_album_key state' !! url)) as [k' Hk'].
  { destruct Hcase as [Heq|(_ & url0 & Heq & Hindex)].
    - apply (f_equal Album.bandcamp_url_searched) in Heq.
      rewrite resolved_searched in Heq. congruence.
    - destruct (String.eqb_spec url0 "") as [->|Hne0].
      + apply (f_equal Album.bandcamp_url_found) in Heq.
        rewrite resolved_found in Heq by done.
        unfold resolved in Heq. simpl in Heq.
        destruct (inv_unsearched _ Hinv _ _ Hget Hs) as (Hf & _).
        congruence.
      + apply (f_equal Album.bandcamp_url) in Heq.
        rewrite !resolved_url in Heq by done. subst url0. by apply Hindex. }
  split.
  - exists (resolved url a).
    by rewrite resolved_url, resolved_found, resolved_searched.
  - destruct (inv_index _ Hinv' _ _ Hk') as (a'' & Ha'' & Hu & _). eauto.
Qed.

Lemma resolve_asks search clock state j c :
  reachable state →
  (resolve search clock state).1.2 !! j = Some c →
  ∃ a, Dict.get (call_key c) (albums state) = Some a
       ∧ Album.bandcamp_url_searched a = false
       ∧ Album.bandcamp_search_term a
         = call_artist c +:+ " " +:+ call_album c.
Proof.
  intros Hreach Hj.
  pose proof (reachable_invariant _ Hreach) as Hinv.
  pose proof (resolve_albums_spec search (length (albums state)) 0 clock
                state) as Hspec.
  pose proof (resolve_albums_calls search (length (albums state)) 0 clock
                state Hinv ltac:(lia)) as Hcalls.
  unfold resolve in *.
  destruct (resolve_albums search (length (albums state)) 0 clock state)
    as [[state' calls] r].
  simpl in *. apply list_elem_of_lookup_2 in Hj.
  destruct (Hspec _ _ _ Hinv eq_refl) as (_ & _ & _ & Hstored).
  destruct (Hstored c Hj) as (a & Hget & Hs & _).
  destruct Hcalls as (_ & _ & Hmade & _).
  destruct (Hmade c Hj) as (a0 & others & Hget0 & Hartists & Hname).
  rewrite Hget in Hget0. injection Hget0 as <-.
  exists a. split_and!; [done..|].
  destruct (shape_artists _ (reachable_shaped _ Hreach) _ _ Hget)
    as (artist0 & others' & Ha & ->).
  rewrite Ha in Hartists. injection Hartists as -> _. by rewrite Hname.
Qed.

(** C5 as the code has it: when the first result of a search has a link
    that [urlparse] accepts, the search answers with https:// followed by
    the host and the path of that link, whatever its scheme; the query
    string and the fragment are dropped.  For an https link with a plain
    host and path that is the link without its query string.  A resolver
    pass over a reachable state stores this answer: every call it makes is
    a call of the search at its time for an album that was not searched,
    with the album's search term, and the address so built is afterwards
    the [bandcamp_url] of that album, marked searched and found, and a key
    of the reverse index that leads to an album with this address; the
    link https://artist.bandcamp.com/album/x?from=search is stored as
    https://artist.bandcamp.com/album/x. *)
Theorem stored_url_normalized (w : World) (clock : nat)
    (artist album : string) :
  (∀ href hrefs results link,
      bandcamp_search w clock (artist +:+ " " +:+ album)
      = Ok ((href :: hrefs) :: results) →
      urllib.urlparse (valid_netloc w) href = Ok link →
      search_bandcamp_album_url w clock artist album
      = Ok ("https://" +:+ urllib.netloc link +:+ urllib.path link))
  ∧ (∀ host path query hrefs results,
        plain_host host = true → plain_path path = true →
        bandcamp_search w clock (artist +:+ " " +:+ album)
        = Ok ((("https://" +:+ host +:+ path +:+ "?" +:+ query) :: hrefs)
                :: results) →
        search_bandcamp_album_url w clock artist album
        = Ok ("https://" +:+ host +:+ path)
        ∧ strip_query ("https://" +:+ host +:+ path +:+ "?" +:+ query)
          = "https://" +:+ host +:+ path)
  ∧ (∀ hrefs results,
        bandcamp_search w clock (artist +:+ " " +:+ album)
        = Ok (("https://artist.bandcamp.com/album/x?from=search" :: hrefs)
                :: results) →
        search_bandcamp_album_url w clock artist album
        = Ok "https://artist.bandcamp.com/album/x")
  ∧ (∀ state j c,
        reachable state →
        (resolve (search_bandcamp_album_url w) clock state).1.2 !! j
        = Some c →
        let state' :=
          (resolve (search_bandcamp_album_url w) clock state).1.1 in
        let q := call_artist c +:+ " " +:+ call_album c in
        (∃ a, Dict.get (call_key c) (albums state) = Some a
              ∧ Album.bandcamp_url_searched a = false
              ∧ Album.bandcamp_search_term a = q)
        ∧ call_answer c
          = search_bandcamp_album_url w (clock + j) (call_artist c)
              (call_album c)
        ∧ (∀ href hrefs results link,
              bandcamp_search w (clock + j) q
              = Ok ((href :: hrefs) :: results) →
              urllib.urlparse (valid_netloc w) href = Ok link →
              stored_for
                ("https://" +:+ urllib.netloc link +:+ urllib.path link)
                (call_key c) state')
        ∧ (∀ host path query hrefs results,
              plain_host host = true → plain_path path = true →
              bandcamp_search w (clock + j) q
              = Ok ((("https://" +:+ host +:+ path +:+ "?" +:+ query)
                       :: hrefs) :: results) →
              stored_for
                (strip_query
                   ("https://" +:+ host +:+ path +:+ "?" +:+ query))
                (call_key c) state')
        ∧ (∀ hrefs results,
              bandcamp_search w (clock + j) q
              = Ok (("https://artist.bandcamp.com/album/x?from=search"
                       :: hrefs) :: results) →
              stored_for "https://artist.bandcamp.com/album/x"
                (call_key c) state')).
Proof.
  assert (∀ t artist album href hrefs results link,
            bandcamp_search w t (artist +:+ " " +:+ album)
            = Ok ((href :: hrefs) :: results) →
            urllib.urlparse (valid_netloc w) href = Ok link →
            search_bandcamp_album_url w t artist album
            = Ok ("https://" +:+ urllib.netloc link +:+ urllib.path link))
    as Hgeneral.
  { intros t artist' album' href hrefs results link Hresults Hlink.
    unfold search_bandcamp_album_url. rewrite Hresults.
    cbn [mbind result_bind]. by rewrite Hlink. }
  assert (∀ t artist album host path query hrefs results,
            plain_host host = true → plain_path path = true →
            bandcamp_search w t (artist +:+ " " +:+ album)
            = Ok ((("https://" +:+ host +:+ path +:+ "?" +:+ query) :: hrefs)
                    :: results) →
            search_bandcamp_album_url w t artist album
            = Ok ("https://" +:+ host +:+ path)) as Hplain.
  { intros t artist' album' host path query hrefs results Hhost Hpath
      Hresults.
    destruct (urlparse_https (valid_netloc w) host path query Hhost Hpath)
      as (q & f & Hlink).
    by rewrite (Hgeneral _ _ _ _ _ _ _ Hresults Hlink). }
  split_and!.
  - apply Hgeneral.
  - intros host path query hrefs results Hhost Hpath Hresults.
    split; [by eapply Hplain|by apply strip_query_https].
  - intros hrefs results Hresults.
    by apply (Hplain clock artist album "artist.bandcamp.com" "/album/x"
                "from=search" hrefs results).
  - intros state j c Hreach Hj state' q.
    pose proof (resolve_albums_answers (search_bandcamp_album_url w)
                  (length (albums state)) 0 clock state j c Hj) as Hanswer.
    assert (∀ url,
              search_bandcamp_album_url w (clock + j) (call_artist c)
                (call_album c) = Ok ("https://" +:+ url) →
              stored_for ("https://" +:+ url) (call_key c) state')
      as Hstored.
    { intros url Hurl. rewrite Hurl in Hanswer.
      by apply (resolve_stores _ _ _ j). }
    split_and!; [by eapply resolve_asks|done|..].
    + intros href hrefs results link Hresults Hlink.
      apply Hstored. by eapply Hgeneral.
    + intros host path query hrefs results Hhost Hpath Hresults.
      rewrite strip_query_https by done.
      apply Hstored. by eapply Hplain.
    + intros hrefs results Hresults.
      apply (Hstored "artist.bandcamp.com/album/x").
      by apply (Hplain _ _ _ "artist.bandcamp.com" "/album/x"
                  "from=search" hrefs results).
Qed.

Lemma stored_url_normalized_witness :
  let w :=
    {| environ := ∅;
       valid_netloc := fun _ => true;
       spotify_token := fun _ _ _ => Ok "token";
       spotify_playlist := fun _ _ _ => Ok [];
       bandcamp_search := fun _ _ =>
         Ok [["https://artist.bandcamp.com/album/x?from=search"; "/more"];
             ["https://other.bandcamp.com/album/y"]];
       bandcamp_collection := fun _ _ _ => Ok [] |} in
  let state :=
    (register [{| track_artists := ["A"]; track_album_id := "1";
                  track_album_name := "X" |}] new_state).1 in
  search_bandcamp_album_url w 0 "A" "X"
  = Ok "https://artist.bandcamp.com/album/x"
  ∧ stored_for "https://artist.bandcamp.com/album/x" "X:1"
      (resolve (search_bandcamp_album_url w) 0 state).1.1.
Proof.
  intros w state.
  destruct (stored_url_normalized w 0 "A" "X") as (_ & Hplain & _ & Hstored).
  split.
  - apply (Hplain "artist.bandcamp.com" "/album/x" "from=search" ["/more"]
             [["https://other.bandcamp.com/album/y"]]); reflexivity.
  - destruct (Hstored state 0
                {| call_key := "X:1"; call_artist := "A"; call_album := "X";
                   call_answer := Ok "https://artist.bandcamp.com/album/x" |})
      as (_ & _ & _ & _ & Hscenario).
    + apply reachable_register, evolves_refl.
    + vm_compute. reflexivity.
    + apply (Hscenario ["/more"] [["https://other.bandcamp.com/album/y"]]).
      reflexivity.
Defined.

(** ** Properties of the search and of the requests *)

(** X16: a non-empty answer of [search_bandcamp_album_url] is https://
    followed by a host without slash and a path, and contains neither a
    question mark nor a hash sign after the scheme: no query string or
    fragment of any link is ever stored. *)
Theorem stored_url_no_query (w : World) (clock : nat) (artist album url : string) :
  search_bandcamp_album_url w clock artist album = Ok url →
  url ≠ "" →
  ∃ netloc path,
    url = "https://" +:+ netloc +:+ path
    ∧ Str.contains "?" (netloc +:+ path) = false
    ∧ Str.contains "#" (netloc +:+ path) = false
    ∧ Str.contains "/" netloc = false.
Proof.
  unfold search_bandcamp_album_url.
  destruct (bandcamp_search w clock (artist +:+ " " +:+ album))
    as [[|[|href hrefs] results]|e]; cbn [mbind result_bind]; try done.
  { by intros [= <-]. }
  destruct (urllib.urlparse (valid_netloc w) href) as [link|e] eqn:Hlink;
    [|done].
  cbn [mbind result_bind]. intros [= <-] _.
  exists (urllib.netloc link), (urllib.path link).
  split; [done|]. by eapply urlparse_absent.
Qed.

Lemma bind_sent {A B} (m : Prog A) (k : A → Prog B) :
  (∀ p, sent p `prefix_of` sent (m p).1) →
  (∀ a p, sent p `prefix_of` sent (k a p).1) →
  ∀ p, sent p `prefix_of` sent ((m ≫= k) p).1.
Proof.
  intros Hm Hk p. unfold mbind, prog_bind.
  pose proof (Hm p) as Hp. destruct (m p) as [p' [a|e]]; simpl in *; [|done].
  etrans; [exact Hp|apply Hk].
Qed.

Lemma request_sent {A} r (answer : nat → result A) p :
  sent p `prefix_of` sent (request r answer p).1.
Proof. simpl. by apply prefix_app_r. Qed.

Lemma get_bandcamp_purchases_sent w p :
  sent p `prefix_of` sent (get_bandcamp_purchases w p).1.
Proof.
  revert p. unfold get_bandcamp_purchases.
  repeat (apply bind_sent; [|intros ?]); intros p;
    done || apply request_sent.
Qed.

Lemma bandcamp_refresh_purchased_sent w p :
  sent p `prefix_of` sent (bandcamp_refresh_purchased w p).1.
Proof.
  revert p. unfold bandcamp_refresh_purchased.
  apply bind_sent; [apply get_bandcamp_purchases_sent|].
  intros ps. apply bind_sent; [|by intros ? ?].
  intros p. unfold on_doc. by destruct (refresh ps (doc p)).
Qed.

Lemma resolve_unsearched_sent w p :
  sent p `prefix_of` sent (resolve_unsearched w p).1.
Proof.
  unfold resolve_unsearched.
  destruct (resolve _ _ _) as [[state calls] r]. simpl. by apply prefix_app_r.
Qed.

Lemma plain_path_slash s :
  plain_path s = true → s ≠ "" → ∃ rest, s = String "/" rest.
Proof.
  intros [Hfirst _]%andb_prop Hne. destruct s as [|a s]; [done|].
  apply Ascii.eqb_eq in Hfirst as ->. eauto.
Qed.

Lemma playlist_id_of_link valid host dir id :
  plain_host host = true → plain_path (dir +:+ "/" +:+ id) = true →
  Str.contains "/" id = false →
  (∃ link, urllib.urlparse valid ("https://" +:+ host +:+ dir +:+ "/" +:+ id)
           = Ok link
           ∧ path_tail (urllib.path link) = id)
  ∧ ∀ query,
      ∃ link,
        urllib.urlparse valid
          ("https://" +:+ host +:+ (dir +:+ "/" +:+ id) +:+ "?" +:+ query)
        = Ok link
        ∧ path_tail (urllib.path link) = id.
Proof.
  intros Hhost Hpath Hid. split.
  - destruct (plain_path_slash _ Hpath) as [rest Hrest].
    { by destruct dir. }
    rewrite Hrest.
    rewrite urlparse_https_path by (done || by rewrite <- Hrest).
    eexists. split; [done|]. simpl. rewrite <- Hrest.
    by apply path_tail_last.
  - intros query.
    destruct (urlparse_https valid host (dir +:+ "/" +:+ id) query Hhost Hpath)
      as (q & f & ->).
    eexists. split; [done|]. simpl. by apply path_tail_last.
Qed.

Lemma bind_step {A B} (m : Prog A) (k : A → Prog B) p p1 a :
  m p = (p1, Ok a) → (m ≫= k) p = k a p1.
Proof. intros Hm. unfold mbind, prog_bind. by rewrite Hm. Qed.

Lemma get_spotify_auth_token_ok w p app_id app_secret :
  environ w !! "SPOTIFY_APP_ID" = Some app_id →
  environ w !! "SPOTIFY_APP_SECRET" = Some app_secret →
  ∀ token, spotify_token w (length (sent p)) app_id app_secret = Ok token →
  get_spotify_auth_token w p
  = ({| doc := doc p; sent := sent p ++ [TokenRequest app_id app_secret];
        printed := printed p |}, Ok token).
Proof.
  intros Hid Hsecret token Htoken.
  unfold get_spotify_auth_token, getenv, lift, request, mbind, prog_bind.
  by rewrite Hid, Hsecret, Htoken.
Qed.

(** X17: with the Spotify variables set and a token granted, a playlist
    pull for https://host/dir/id, with or without a query string, asks the
    playlist endpoint for id, the last segment of the path, right after the
    token request. *)
Theorem pull_requests_playlist_id (w : World) (p : Process)
    (app_id app_secret token host dir id url : string) :
  environ w !! "SPOTIFY_APP_ID" = Some app_id →
  environ w !! "SPOTIFY_APP_SECRET" = Some app_secret →
  spotify_token w (length (sent p)) app_id app_secret = Ok token →
  plain_host host = true → plain_path (dir +:+ "/" +:+ id) = true →
  Str.contains "/" id = false →
  (url = "https://" +:+ host +:+ dir +:+ "/" +:+ id
   ∨ ∃ query,
       url = "https://" +:+ host +:+ (dir +:+ "/" +:+ id) +:+ "?" +:+ query) →
  (sent p ++ [TokenRequest app_id app_secret; PlaylistRequest token id])
    `prefix_of` sent (pull_spotify_playlist w url p).1.
Proof.
  intros Hid Hsecret Htoken Hhost Hpath Hslash Hurl.
  destruct (playlist_id_of_link (valid_netloc w) host dir id Hhost Hpath Hslash)
    as [(link1 & Hlink1 & Htail1) Hquery].
  assert (∃ link, urllib.urlparse (valid_netloc w) url = Ok link
                  ∧ path_tail (urllib.path link) = id)
    as (link & Hlink & Htail).
  { destruct Hurl as [->|[query ->]]; [eauto|apply Hquery]. }
  unfold pull_spotify_playlist.
  rewrite (bind_step _ _ _ _ _
             (get_spotify_auth_token_ok w p app_id app_secret Hid Hsecret
                token Htoken)).
  rewrite (bind_step (lift _) _ _ _ link) by (unfold lift; by rewrite Hlink).
  rewrite Htail. unfold get_spotify_playlist, request at 1.
  unfold mbind at 1. unfold prog_bind at 1. cbn [sent doc printed].
  destruct (spotify_playlist w _ token id) as [playlist|e]; cbv iota beta.
  2:{ simpl. by rewrite <- app_assoc. }
  match goal with
  | |- _ `prefix_of` sent (?m ?q).1 =>
      assert (sent q `prefix_of` sent (m q).1) as Hrest
  end.
  { apply bind_sent.
    - intros q. unfold on_doc. by destruct (register playlist (doc q)).
    - intros n. apply bind_sent; [by intros ?|]. intros _.
      apply bind_sent; [apply resolve_unsearched_sent|]. intros _.
      apply bandcamp_refresh_purchased_sent. }
  etrans; [|exact Hrest]. simpl. by rewrite <- app_assoc.
Qed.

(** ** Configuration errors in a playlist pull *)

Lemma collection_not_search username identity (calls : list Call) :
  CollectionRequest username identity ∉ request_of_call <$> calls.
Proof. by intros (c & Hc & _)%list_elem_of_fmap. Qed.

(** A pull whose Spotify requests, import and searches go through
    continues with the purchase pass on the process they leave. *)
Lemma pull_spotify_playlist_reaches w playlist_url p app_id app_secret token
    link playlist state1 n state2 calls :
  environ w !! "SPOTIFY_APP_ID" = Some app_id →
  environ w !! "SPOTIFY_APP_SECRET" = Some app_secret →
  spotify_token w (length (sent p)) app_id app_secret = Ok token →
  urllib.urlparse (valid_netloc w) playlist_url = Ok link →
  spotify_playlist w (S (length (sent p))) token
    (path_tail (urllib.path link)) = Ok playlist →
  register playlist (doc p) = (state1, Ok n) →
  resolve (search_bandcamp_album_url w) (length (sent p) + 2) state1
  = (state2, calls, Ok tt) →
  pull_spotify_playlist w playlist_url p
  = bandcamp_refresh_purchased w
      {| doc := state2;
         sent := sent p ++ TokenRequest app_id app_secret
                   :: PlaylistRequest token (path_tail (urllib.path link))
                   :: (request_of_call <$> calls);
         printed := printed p ++ [RegisteredFromSpotify n] |}.
Proof.
  intros Hid Hsecret Htoken Hlink Hplaylist Hregister Hresolve.
  unfold pull_spotify_playlist.
  rewrite (bind_step _ _ _ _ _
             (get_spotify_auth_token_ok w p app_id app_secret Hid Hsecret
                token Htoken)).
  rewrite (bind_step (lift _) _ _ _ link) by (unfold lift; by rewrite Hlink).
  unfold get_spotify_playlist, request at 1.
  unfold mbind at 1. unfold prog_bind at 1. cbn [sent doc printed].
  rewrite length_app, Nat.add_1_r, Hplaylist. cbv iota beta.
  unfold on_doc at 1. unfold mbind at 1. unfold prog_bind at 1.
  cbn [sent doc printed]. rewrite Hregister. cbv iota beta.
  unfold print at 1. unfold mbind at 1. unfold prog_bind at 1.
  cbn [sent doc printed]. 
  unfold resolve_unsearched at 1. unfold mbind at 1. unfold prog_bind at 1.
  cbn [sent doc printed].
  rewrite !length_app. cbn [length].
  replace (length (sent p) + 1 + 1) with (length (sent p) + 2) by lia.
  rewrite Hresolve. cbv iota beta.
  by rewrite <- !app_assoc.
Qed.

(** The purchase pass stops at a variable that is not set, or sends the
    request for the purchase page as its only request. *)
Lemma bandcamp_refresh_purchased_cases w p :
  (∃ name, name ∈ bandcamp_variables ∧ environ w !! name = None
           ∧ bandcamp_refresh_purchased w p = (p, Raise (KeyError name)))
  ∨ (∃ username identity,
       environ w !! "BANDCAMP_USERNAME" = Some username
       ∧ environ w !! "BANDCAMP_TOKEN" = Some identity
       ∧ sent (bandcamp_refresh_purchased w p).1
         = sent p ++ [CollectionRequest username identity]).
Proof.
  unfold bandcamp_refresh_purchased, get_bandcamp_purchases, getenv, lift,
    request, on_doc, print, mbind, prog_bind, mret, prog_ret,
    bandcamp_variables.
  destruct (environ w !! "BANDCAMP_USERNAME") as [username|] eqn:Hu.
  2:{ left. exists "BANDCAMP_USERNAME". split_and!; [repeat constructor|done..]. }
  destruct (environ w !! "BANDCAMP_TOKEN") as [identity|] eqn:Hi.
  2:{ left. exists "BANDCAMP_TOKEN". split_and!; [repeat constructor|done..]. }
  right. exists username, identity. split_and!; [done..|].
  destruct (bandcamp_collection w _ username identity) as [items|e]; [|done].
  cbn [doc sent printed].
  by destruct (refresh _ (doc p)) as [state [m|e]].
Qed.

(** The requests listed are not for the purchase page. *)
Ltac no_collection :=
  let Hin := fresh "Hin" in
  intros ? ? Hin;
  repeat (apply elem_of_cons in Hin as [Hin|Hin]; [done|]);
  by (apply elem_of_nil in Hin || apply collection_not_search in Hin).

(** A pull fails before the purchase pass, without a request for the
    purchase page, or reaches it. *)
Lemma pull_spotify_playlist_cases w playlist_url p :
  (∃ requests e p',
      pull_spotify_playlist w playlist_url p = (p', Raise e)
      ∧ sent p' = sent p ++ requests
      ∧ ∀ username identity, CollectionRequest username identity ∉ requests)
  ∨ (∃ app_id app_secret token link playlist state1 n state2 calls,
       environ w !! "SPOTIFY_APP_ID" = Some app_id
       ∧ environ w !! "SPOTIFY_APP_SECRET" = Some app_secret
       ∧ spotify_token w (length (sent p)) app_id app_secret = Ok token
       ∧ urllib.urlparse (valid_netloc w) playlist_url = Ok link
       ∧ spotify_playlist w (S (length (sent p))) token
           (path_tail (urllib.path link)) = Ok playlist
       ∧ register playlist (doc p) = (state1, Ok n)
       ∧ resolve (search_bandcamp_album_url w) (length (sent p) + 2) state1
         = (state2, calls, Ok tt)).
Proof.
  destruct (environ w !! "SPOTIFY_APP_ID") as [app_id|] eqn:Hid.
  2:{ left. exists [], (KeyError "SPOTIFY_APP_ID"), p.
      split_and!; [|by rewrite app_nil_r|no_collection].
      unfold pull_spotify_playlist, get_spotify_auth_token, getenv, lift,
        mbind, prog_bind.
      by rewrite Hid. }
  destruct (environ w !! "SPOTIFY_APP_SECRET") as [app_secret|] eqn:Hsecret.
  2:{ left. exists [], (KeyError "SPOTIFY_APP_SECRET"), p.
      split_and!; [|by rewrite app_nil_r|no_collection].
      unfold pull_spotify_playlist, get_spotify_auth_token, getenv, lift,
        mbind, prog_bind.
      by rewrite Hid, Hsecret. }
  destruct (spotify_token w (length (sent p)) app_id app_secret)
    as [token|e] eqn:Htoken.
  2:{ left. exists [TokenRequest app_id app_secret], e. eexists.
      split_and!; [| |no_collection].
      - unfold pull_spotify_playlist, get_spotify_auth_token, getenv, lift,
          request, mbind, prog_bind.
        by rewrite Hid, Hsecret, Htoken.
      - reflexivity. }
  pose proof (get_spotify_auth_token_ok w p app_id app_secret Hid Hsecret
                token Htoken) as Hstep1.
  destruct (urllib.urlparse (valid_netloc w) playlist_url)
    as [link|e] eqn:Hlink.
  2:{ left. exists [TokenRequest app_id app_secret], e. eexists.
      split_and!; [| |no_collection].
      - unfold pull_spotify_playlist.
        rewrite (bind_step _ _ _ _ _ Hstep1).
        unfold lift, mbind, prog_bind. by rewrite Hlink.
      - reflexivity. }
  destruct (spotify_playlist w (S (length (sent p))) token
              (path_tail (urllib.path link))) as [playlist|e] eqn:Hplaylist.
  2:{ left.
      exists [TokenRequest app_id app_secret;
              PlaylistRequest token (path_tail (urllib.path link))], e.
      eexists. split_and!; [| |no_collection].
      - unfold pull_spotify_playlist.
        rewrite (bind_step _ _ _ _ _ Hstep1).
        rewrite (bind_step (lift _) _ _ _ link)
          by (unfold lift; by rewrite Hlink).
        unfold get_spotify_playlist, request, mbind, prog_bind.
        cbn [sent doc printed].
        rewrite length_app, Nat.add_1_r, Hplaylist. reflexivity.
      - cbn [sent]. by rewrite <- app_assoc. }
  destruct (register playlist (doc p)) as [state1 [n|e]] eqn:Hregister.
  2:{ left.
      exists [TokenRequest app_id app_secret;
              PlaylistRequest token (path_tail (urllib.path link))], e.
      eexists. split_and!; [| |no_collection].
      - unfold pull_spotify_playlist.
        rewrite (bind_step _ _ _ _ _ Hstep1).
        rewrite (bind_step (lift _) _ _ _ link)
          by (unfold lift; by rewrite Hlink).
        unfold get_spotify_playlist, request, on_doc, mbind, prog_bind.
        cbn [sent doc printed].
        rewrite length_app, Nat.add_1_r, Hplaylist. cbv iota beta.
        cbn [sent doc printed]. rewrite Hregister. reflexivity.
      - cbn [sent]. by rewrite <- app_assoc. }
  destruct (resolve (search_bandcamp_album_url w) (length (sent p) + 2)
              state1) as [[state2 calls] [[]|e]] eqn:Hresolve.
  { right. by exists app_id, app_secret, token, link, playlist, state1, n,
             state2, calls. }
  left.
  exists (TokenRequest app_id app_secret
            :: PlaylistRequest token (path_tail (urllib.path link))
            :: (request_of_call <$> calls)), e.
  eexists. split_and!; [| |no_collection].
  - unfold pull_spotify_playlist.
    rewrite (bind_step _ _ _ _ _ Hstep1).
    rewrite (bind_step (lift _) _ _ _ link) by (unfold lift; by rewrite Hlink).
    unfold get_spotify_playlist, request at 1.
    unfold mbind at 1. unfold prog_bind at 1. cbn [sent doc printed].
    rewrite length_app, Nat.add_1_r, Hplaylist. cbv iota beta.
    unfold on_doc at 1. unfold mbind at 1. unfold prog_bind at 1.
    cbn [sent doc printed]. rewrite Hregister. cbv iota beta.
    unfold print at 1. unfold mbind at 1. unfold prog_bind at 1.
    cbn [sent doc printed].
    unfold resolve_unsearched at 1. unfold mbind at 1. unfold prog_bind at 1.
    cbn [sent doc printed].
    rewrite !length_app. cbn [length].
    replace (length (sent p) + 1 + 1) with (length (sent p) + 2) by lia.
    rewrite Hresolve. reflexivity.
  - cbn [sent]. by rewrite <- !app_assoc.
Qed.

(** C8 as the code has it: each variable is read where it is used, and a
    variable that is not set raises [KeyError] there, before the request
    that needs it is sent.  Without a Spotify variable a playlist pull
    fails before any request and the run writes no file.  Without a
    Bandcamp variable the fetch of the purchases fails before its request,
    so a run that only refreshes the purchases sends nothing, and a
    playlist pull never ends normally and never asks for the purchase page:
    when the token request, the playlist request, the import and the
    searches have gone through, it ends with the [KeyError] of the variable
    after exactly these requests.  In any playlist pull the request for the
    purchase page, if it is sent, is the last one, after the token request,
    the playlist request and the searches of a resolver pass that ran to
    its end. *)
Theorem missing_variable_raises (w : World) :
  (missing w spotify_variables →
     (∀ p, ∃ name,
         get_spotify_auth_token w p = (p, Raise (KeyError name))
         ∧ environ w !! name = None)
     ∧ ∀ args file a url,
         cli_args.playlist args = Some (String a url) →
         fails_fast w args file ∧ (main w args file).1.1.1 = file)
  ∧ (missing w bandcamp_variables →
       (∀ p, ∃ name,
           get_bandcamp_purchases w p = (p, Raise (KeyError name))
           ∧ environ w !! name = None)
       ∧ (∀ args file,
           cli_args.playlist args = None →
           cli_args.stats args = false →
           cli_args.refresh_purchased args = true →
           fails_fast w args file ∧ (main w args file).1.1.1 = file)
       ∧ ∀ playlist_url p,
           (∃ requests e p',
               pull_spotify_playlist w playlist_url p = (p', Raise e)
               ∧ sent p' = sent p ++ requests
               ∧ ∀ username identity,
                   CollectionRequest username identity ∉ requests)
           ∧ ∀ app_id app_secret token link playlist state1 n state2 calls,
               environ w !! "SPOTIFY_APP_ID" = Some app_id →
               environ w !! "SPOTIFY_APP_SECRET" = Some app_secret →
               spotify_token w (length (sent p)) app_id app_secret
               = Ok token →
               urllib.urlparse (valid_netloc w) playlist_url = Ok link →
               spotify_playlist w (S (length (sent p))) token
                 (path_tail (urllib.path link)) = Ok playlist →
               register playlist (doc p) = (state1, Ok n) →
               resolve (search_bandcamp_album_url w) (length (sent p) + 2)
                 state1 = (state2, calls, Ok tt) →
               ∃ name,
                 name ∈ bandcamp_variables ∧ environ w !! name = None
                 ∧ pull_spotify_playlist w playlist_url p
                   = ({| doc := state2;
                         sent :=
                           sent p
                           ++ TokenRequest app_id app_secret
                              :: PlaylistRequest token
                                   (path_tail (urllib.path link))
                              :: (request_of_call <$> calls);
                         printed :=
                           printed p ++ [RegisteredFromSpotify n] |},
                      Raise (KeyError name)))
  ∧ (∀ playlist_url p,
       ∃ requests,
         sent (pull_spotify_playlist w playlist_url p).1 = sent p ++ requests
         ∧ ∀ username identity,
             CollectionRequest username identity ∈ requests →
             environ w !! "BANDCAMP_USERNAME" = Some username
             ∧ environ w !! "BANDCAMP_TOKEN" = Some identity
             ∧ ∃ app_id app_secret token id playlist state1 n state2 calls,
                 requests
                 = TokenRequest app_id app_secret
                     :: PlaylistRequest token id
                     :: (request_of_call <$> calls)
                     ++ [CollectionRequest username identity]
                 ∧ register playlist (doc p) = (state1, Ok n)
                 ∧ resolve (search_bandcamp_album_url w)
                     (length (sent p) + 2) state1
                   = (state2, calls, Ok tt)).
Proof.
  split_and!.
  - intros Hmissing. split; [intros p|].
    { by apply get_spotify_auth_token_missing. }
    intros args file a url Hplaylist. unfold fails_fast, main.
    destruct (load_state file) as [state lines].
    set (p := {| doc := state; sent := []; printed := lines |}).
    destruct (pull_spotify_playlist_missing w (String a url) p Hmissing)
      as (name & Hpull & Hname).
    unfold script, mbind, prog_bind. rewrite Hplaylist, Hpull. simpl.
    split; [|done]. split; [done|]. by exists name.
  - intros Hmissing. split_and!; [intros p| |].
    { by apply get_bandcamp_purchases_missing. }
    { intros args file Hplaylist Hstats Hrefresh. unfold fails_fast, main.
      destruct (load_state file) as [state lines].
      unfold script, when, mbind, prog_bind, mret, prog_ret, print.
      rewrite Hplaylist, Hstats, Hrefresh. simpl.
      destruct (cli_args.unpurchased args); simpl;
        match goal with
        | |- context [bandcamp_refresh_purchased w ?p] =>
            destruct (bandcamp_refresh_purchased_missing w p Hmissing)
              as (name & -> & Hname)
        end;
        simpl; (split; [|done]); (split; [done|]); by exists name. }
    intros playlist_url p.
    assert (∀ app_id app_secret token link playlist state1 n state2 calls,
              environ w !! "SPOTIFY_APP_ID" = Some app_id →
              environ w !! "SPOTIFY_APP_SECRET" = Some app_secret →
              spotify_token w (length (sent p)) app_id app_secret
              = Ok token →
              urllib.urlparse (valid_netloc w) playlist_url = Ok link →
              spotify_playlist w (S (length (sent p))) token
                (path_tail (urllib.path link)) = Ok playlist →
              register playlist (doc p) = (state1, Ok n) →
              resolve (search_bandcamp_album_url w) (length (sent p) + 2)
                state1 = (state2, calls, Ok tt) →
              ∃ name,
                name ∈ bandcamp_variables ∧ environ w !! name = None
                ∧ pull_spotify_playlist w playlist_url p
                  = ({| doc := state2;
                        sent :=
                          sent p
                          ++ TokenRequest app_id app_secret
                             :: PlaylistRequest token
                                  (path_tail (urllib.path link))
                             :: (request_of_call <$> calls);
                        printed :=
                          printed p ++ [RegisteredFromSpotify n] |},
                     Raise (KeyError name))) as Hreaches.
    { intros app_id app_secret token link playlist state1 n state2 calls
        Hid Hsecret Htoken Hlink Hplaylist Hregister Hresolve.
      rewrite (pull_spotify_playlist_reaches _ _ _ _ _ _ _ _ _ _ _ _
                 Hid Hsecret Htoken Hlink Hplaylist Hregister Hresolve).
      match goal with
      | |- context [bandcamp_refresh_purchased w ?q] =>
          destruct (bandcamp_refresh_purchased_cases w q)
            as [(name & Hin & Hnone & Hrun)
               |(username & identity & Hu & Hi & _)]
      end.
      - by exists name.
      - destruct Hmissing as (name & Hin & Hnone).
        apply elem_of_cons in Hin as [->|Hin]; [congruence|].
        apply list_elem_of_singleton in Hin as ->. congruence. }
    split; [|exact Hreaches].
    destruct (pull_spotify_playlist_cases w playlist_url p)
      as [Hfails|(app_id & app_secret & token & link & playlist & state1 & n
                  & state2 & calls & Hid & Hsecret & Htoken & Hlink
                  & Hplaylist & Hregister & Hresolve)]; [done|].
    destruct (Hreaches _ _ _ _ _ _ _ _ _ Hid Hsecret Htoken Hlink Hplaylist
                Hregister Hresolve) as (name & _ & _ & Hrun).
    eexists _, _, _. split_and!; [exact Hrun|reflexivity|no_collection].
  - intros playlist_url p.
    destruct (pull_spotify_playlist_cases w playlist_url p)
      as [(requests & e & p' & Hrun & Hsent & Hnone)
         |(app_id & app_secret & token & link & playlist & state1 & n
           & state2 & calls & Hid & Hsecret & Htoken & Hlink
           & Hplaylist & Hregister & Hresolve)].
    { exists requests. rewrite Hrun. split; [done|].
      intros username identity Hin. by apply Hnone in Hin. }
    rewrite (pull_spotify_playlist_reaches _ _ _ _ _ _ _ _ _ _ _ _
               Hid Hsecret Htoken Hlink Hplaylist Hregister Hresolve).
    match goal with
    | |- context [bandcamp_refresh_purchased w ?q] =>
        destruct (bandcamp_refresh_purchased_cases w q)
          as [(name & Hin & Hnone & ->)
             |(username & identity & Hu & Hi & ->)]
    end.
    + eexists. split; [reflexivity|]. no_collection.
    + cbn [sent]. eexists. split; [by rewrite <- app_assoc|].
      intros username' identity' Hin. simpl in Hin.
      repeat (apply elem_of_cons in Hin as [Hin|Hin]; [done|]).
      apply elem_of_app in Hin as [Hin|Hin];
        [by apply collection_not_search in Hin|].
      apply list_elem_of_singleton in Hin. injection Hin as -> ->.
      split_and!; [done..|].
      by exists app_id, app_secret, token, (path_tail (urllib.path link)),
           playlist, state1, n, state2, calls.
Qed.

Lemma missing_variable_raises_witness :
  let w :=
    {| environ := <["BANDCAMP_USERNAME" := "me"]> ∅;
       valid_netloc := fun _ => true;
       spotify_token := fun _ _ _ => Ok "token";
       spotify_playlist := fun _ _ _ => Ok [];
       bandcamp_search := fun _ _ => Ok [];
       bandcamp_collection := fun _ _ _ => Ok [] |} in
  let w' :=
    {| environ := <["SPOTIFY_APP_ID" := "id"]>
                    (<["SPOTIFY_APP_SECRET" := "secret"]>
                       (<["BANDCAMP_USERNAME" := "me"]> ∅));
       valid_netloc := fun _ => true;
       spotify_token := fun _ _ _ => Ok "token";
       spotify_playlist := fun _ _ _ =>
         Ok [{| track_artists := ["A"]; track_album_id := "1";
                track_album_name := "X" |}];
       bandcamp_search := fun _ _ => Ok [];
       bandcamp_collection := fun _ _ _ => Ok [] |} in
  let pull :=
    {| cli_args.playlist := Some "https://open.spotify.com/playlist/p";
       cli_args.unpurchased := false; cli_args.stats := false;
       cli_args.refresh_purchased := false |} in
  let refresh_only :=
    {| cli_args.playlist := None;
       cli_args.unpurchased := false; cli_args.stats := false;
       cli_args.refresh_purchased := true |} in
  let p := {| doc := new_state; sent := []; printed := [] |} in
  fails_fast w pull None ∧ fails_fast w refresh_only None
  ∧ ∃ name state2,
      environ w' !! name = None
      ∧ pull_spotify_playlist w' "https://open.spotify.com/playlist/p" p
        = ({| doc := state2;
              sent := [TokenRequest "id" "secret";
                       PlaylistRequest "token" "p"; SearchRequest "A X"];
              printed := [RegisteredFromSpotify 1] |},
           Raise (KeyError name)).
Proof.
  intros w w' pull refresh_only p.
  destruct (missing_variable_raises w) as (Hspotify & Hbandcamp & _).
  destruct (missing_variable_raises w') as (_ & Hbandcamp' & _).
  split_and!.
  - destruct Hspotify as [_ Hrun].
    + exists "SPOTIFY_APP_ID". split; [|vm_compute; reflexivity].
      repeat constructor.
    + apply (Hrun pull None "h"%char "ttps://open.spotify.com/playlist/p").
      reflexivity.
  - destruct Hbandcamp as (_ & Hrun & _).
    + exists "BANDCAMP_TOKEN". split; [|vm_compute; reflexivity].
      repeat constructor.
    + apply (Hrun refresh_only None); reflexivity.
  - destruct Hbandcamp' as (_ & _ & Hpull).
    + exists "BANDCAMP_TOKEN". split; [|vm_compute; reflexivity].
      repeat constructor.
    + destruct (Hpull "https://open.spotify.com/playlist/p" p)
        as [_ Hreaches].
      destruct (Hreaches "id" "secret" "token"
                  (urllib.Build_ParseResult "https" "open.spotify.com"
                     "/playlist/p" "" "" "")
                  [{| track_artists := ["A"]; track_album_id := "1";
                      track_album_name := "X" |}]
                  (register [{| track_artists := ["A"];
                                track_album_id := "1";
                                track_album_name := "X" |}] new_state).1
                  1
                  (resolve (search_bandcamp_album_url w') 2
                     (register [{| track_artists := ["A"];
                                   track_album_id := "1";
                                   track_album_name := "X" |}]
                        new_state).1).1.1
                  [{| call_key := "X:1"; call_artist := "A";
                      call_album := "X"; call_answer := Ok "" |}])
        as (name & _ & Hnone & Hrun); [vm_compute; reflexivity..|].
      exists name. eexists. split; [exact Hnone|exact Hrun].
Defined.

(** ** Properties of whole runs *)

Lemma count_where_app p l l' :
  count_where p (l ++ l') = count_where p l + count_where p l'.
Proof. induction l as [|a l IH]; simpl; [done|]. rewrite IH. lia. Qed.

Lemma count_where_same_keys (p : Album.t → bool) d :
  ∀ d',
    NoDup (Dict.keys d) → Dict.keys d' = Dict.keys d →
    (∀ k a, Dict.get k d = Some a →
            ∃ a', Dict.get k d' = Some a' ∧ p a' = p a) →
    count_where p (Dict.values d') = count_where p (Dict.values d).
Proof.
  unfold Dict.keys, Dict.values.
  induction d as [|[k a] d IH]; intros [|[k' a'] d']; try done.
  rewrite !fmap_cons. cbn [fst snd count_where].
  intros [Hk Hnd]%NoDup_cons [= -> Hkeys] Hrecords.
  destruct (Hrecords k a) as (a'' & Hget & Hp).
  { simpl. by rewrite String.eqb_refl. }
  simpl in Hget. rewrite String.eqb_refl in Hget. injection Hget as <-.
  rewrite Hp. f_equal. apply IH; [done..|].
  intros k0 a0 Hget0.
  assert (k ≠ k0) as Hne.
  { intros ->. apply get_Some_elem_of in Hget0.
    apply Hk, list_elem_of_fmap. by exists (k0, a0). }
  destruct (Hrecords k0 a0) as (a0' & Hget0' & Hp0).
  { simpl. by destruct (String.eqb_spec k k0). }
  simpl in Hget0'. destruct (String.eqb_spec k k0); [done|]. eauto.
Qed.

Lemma register_count playlist state n :
  (register playlist state).2 = Ok n →
  length (albums (register playlist state).1) = length (albums state) + n
  ∧ count_where Album.purchased (Dict.values (albums (register playlist state).1))
    = count_where Album.purchased (Dict.values (albums state)).
Proof.
  unfold register. intros Hn.
  destruct (register_albums_extends playlist state 0)
    as (added & -> & _ & Hnew & Hcount).
  rewrite (Hcount n Hn), length_app. split; [done|].
  unfold Dict.values. rewrite fmap_app, count_where_app.
  assert (count_where Album.purchased added.*2 = 0) as ->; [|lia].
  clear -Hnew.
  induction Hnew as [|[k a] l (t & a0 & o & _ & _ & _ & Hx & _) _ IH];
    [done|].
  simpl in Hx. subst a. rewrite fmap_cons. simpl. exact IH.
Qed.

Lemma resolve_count search clock state :
  invariant state →
  length (albums (resolve search clock state).1.1) = length (albums state)
  ∧ count_where Album.purchased
      (Dict.values (albums (resolve search clock state).1.1))
    = count_where Album.purchased (Dict.values (albums state)).
Proof.
  intros Hinv.
  pose proof (resolve_albums_effect search (length (albums state)) 0 clock
                state Hinv ltac:(lia)) as Heffect.
  unfold resolve.
  destruct (resolve_albums search (length (albums state)) 0 clock state)
    as [[state' calls] r].
  destruct Heffect as (Hkeys & _ & _ & Hrecords & _). simpl. split.
  - apply (f_equal length) in Hkeys. unfold Dict.keys in Hkeys.
    by rewrite !length_fmap in Hkeys.
  - apply count_where_same_keys; [apply (inv_nodup _ Hinv)|done|].
    intros k a Hget.
    destruct (Hrecords k a Hget) as (a' & Ha' & [Heq|(_ & url & Heq & _)]);
      exists a'; (split; [done|]); rewrite Heq; [done|].
    unfold resolved. by destruct (String.eqb url "").
Qed.

Lemma refresh_count bandcamp_purchases state state' m :
  refresh bandcamp_purchases state = (state', Ok m) →
  length (albums state') = length (albums state)
  ∧ count_where Album.purchased (Dict.values (albums state'))
    = count_where Album.purchased (Dict.values (albums state)) + m.
Proof.
  unfold refresh. intros Hrun.
  destruct (mark_purchases_count _ _ _ _ _ Hrun) as (_ & _ & Hcount).
  destruct (mark_purchases_frame bandcamp_purchases state 0) as [_ Hframe].
  rewrite Hrun in Hframe. simpl in Hframe.
  split; [symmetry; by eapply Forall2_length|lia].
Qed.

Lemma bandcamp_refresh_purchased_ok w p p' :
  bandcamp_refresh_purchased w p = (p', Ok tt) →
  ∃ username identity items n,
    environ w !! "BANDCAMP_USERNAME" = Some username
    ∧ environ w !! "BANDCAMP_TOKEN" = Some identity
    ∧ bandcamp_collection w (length (sent p)) username identity = Ok items
    ∧ refresh (omap (fun href : option string => href) items) (doc p)
      = (doc p', Ok n)
    ∧ sent p' = sent p ++ [CollectionRequest username identity]
    ∧ printed p' = printed p ++ [NewlyPurchased n].
Proof.
  unfold bandcamp_refresh_purchased, get_bandcamp_purchases, getenv, lift,
    request, on_doc, print, mbind, prog_bind, mret, prog_ret.
  destruct (environ w !! "BANDCAMP_USERNAME") as [username|]; [|done].
  destruct (environ w !! "BANDCAMP_TOKEN") as [identity|]; [|done].
  destruct (bandcamp_collection w (length (sent p)) username identity)
    as [items|e] eqn:Hitems; [|done].
  cbn [doc sent printed].
  destruct (refresh _ (doc p)) as [state [n|e]] eqn:Hrefresh; [|done].
  intros [= <-]. exists username, identity, items, n.
  by rewrite Hrefresh.
Qed.

Lemma pull_spotify_playlist_ok w playlist_url p p' :
  pull_spotify_playlist w playlist_url p = (p', Ok tt) →
  ∃ app_id app_secret token link playlist state1 n state2 calls
    username identity items m,
    environ w !! "SPOTIFY_APP_ID" = Some app_id
    ∧ environ w !! "SPOTIFY_APP_SECRET" = Some app_secret
    ∧ spotify_token w (length (sent p)) app_id app_secret = Ok token
    ∧ urllib.urlparse (valid_netloc w) playlist_url = Ok link
    ∧ spotify_playlist w (S (length (sent p))) token
        (path_tail (urllib.path link)) = Ok playlist
    ∧ register playlist (doc p) = (state1, Ok n)
    ∧ resolve (search_bandcamp_album_url w) (length (sent p) + 2) state1
      = (state2, calls, Ok tt)
    ∧ bandcamp_collection w (length (sent p) + 2 + length calls)
        username identity = Ok items
    ∧ refresh (omap (fun href : option string => href) items) state2
      = (doc p', Ok m)
    ∧ sent p'
      = sent p ++ TokenRequest app_id app_secret
          :: PlaylistRequest token (path_tail (urllib.path link))
          :: (request_of_call <$> calls)
          ++ [CollectionRequest username identity]
    ∧ printed p' = printed p ++ [RegisteredFromSpotify n; NewlyPurchased m].
Proof.
  intros Hpull.
  destruct (pull_spotify_playlist_cases w playlist_url p)
    as [(requests & e & p1 & Hfails & _)
       |(app_id & app_secret & token & link & playlist & state1 & n
         & state2 & calls & Hid & Hsecret & Htoken & Hlink
         & Hplaylist & Hregister & Hresolve)]; [congruence|].
  rewrite (pull_spotify_playlist_reaches _ _ _ _ _ _ _ _ _ _ _ _
             Hid Hsecret Htoken Hlink Hplaylist Hregister Hresolve) in Hpull.
  apply bandcamp_refresh_purchased_ok in Hpull
    as (username & identity & items & m & _ & _ & Hitems & Hrefresh
        & Hsent & Hprinted).
  cbn [doc sent printed] in Hitems, Hrefresh, Hsent, Hprinted.
  exists app_id, app_secret, token, link, playlist, state1, n, state2, calls,
    username, identity, items, m.
  split_and!; [done..| |done| |].
  - rewrite <- Hitems. f_equal. rewrite length_app. cbn [length].
    rewrite length_fmap. lia.
  - rewrite Hsent. by rewrite <- app_assoc.
  - rewrite Hprinted. by rewrite <- app_assoc.
Qed.

(** X14: a playlist pull that returns, from a reachable document, leaves a
    reachable document in which every album is searched, so that the
    statistics report 0 albums not searched.  It has printed two lines:
    the count the importer reached for the playlist the endpoint answered
    with, which is the number of albums the document has gained, and then
    the count the purchase pass reached for the links of the purchase
    page, which is the number of albums that have become purchased. *)
Theorem completed_pull (w : World) (playlist_url : string) (p p' : Process) :
  reachable (doc p) →
  pull_spotify_playlist w playlist_url p = (p', Ok tt) →
  reachable (doc p')
  ∧ (∀ k a, (k, a) ∈ albums (doc p') →
            Album.bandcamp_url_searched a = true)
  ∧ NotSearched 0 ∈ (print_stats (doc p')).1
  ∧ ∃ token link playlist state1 n state2 calls username identity items m,
      urllib.urlparse (valid_netloc w) playlist_url = Ok link
      ∧ spotify_playlist w (S (length (sent p))) token
          (path_tail (urllib.path link)) = Ok playlist
      ∧ register playlist (doc p) = (state1, Ok n)
      ∧ resolve (search_bandcamp_album_url w) (length (sent p) + 2) state1
        = (state2, calls, Ok tt)
      ∧ bandcamp_collection w (length (sent p) + 2 + length calls)
          username identity = Ok items
      ∧ refresh (omap (fun href : option string => href) items) state2
        = (doc p', Ok m)
      ∧ printed p'
        = printed p ++ [RegisteredFromSpotify n; NewlyPurchased m]
      ∧ length (albums (doc p')) = length (albums (doc p)) + n
      ∧ count_where Album.purchased (Dict.values (albums (doc p')))
        = count_where Album.purchased (Dict.values (albums (doc p))) + m.
Proof.
  intros Hreach Hpull.
  destruct (pull_spotify_playlist_ok _ _ _ _ Hpull)
    as (app_id & app_secret & token & link & playlist & state1 & n & state2
        & calls & username & identity & items & m & _ & _ & _ & Hlink
        & Hplaylist & Hreg & Hres & Hitems & Href & _ & Hprinted).
  set (clock := length (sent p) + 2) in *.
  set (ps := omap (fun href : option string => href) items) in *.
  assert (reachable state1) as Hreach1.
  { eapply reachable_step; [done|].
    replace state1 with (register playlist (doc p)).1 by (by rewrite Hreg).
    constructor. }
  assert (reachable state2) as Hreach2.
  { eapply reachable_step; [exact Hreach1|].
    replace state2 with
      (resolve (search_bandcamp_album_url w) clock state1).1.1
      by (by rewrite Hres).
    constructor. }
  assert (reachable (doc p')) as Hreach'.
  { eapply reachable_step; [exact Hreach2|].
    replace (doc p') with (refresh ps state2).1 by (by rewrite Href).
    constructor. }
  destruct (resolve_completed _ _ _ _ _ (reachable_invariant _ Hreach1) Hres)
    as [Hall2 _].
  assert (∀ k a, (k, a) ∈ albums (doc p') →
                 Album.bandcamp_url_searched a = true) as Hall.
  { eapply only_purchased_raised_searched; [|exact Hall2].
    destruct (mark_purchases_frame ps state2 0) as [_ Hframe].
    unfold refresh in Href. by rewrite Href in Hframe. }
  split_and!; [done..| |].
  { rewrite print_stats_counts. cbn [fst].
    rewrite (count_where_all Album.bandcamp_url_searched)
      by by apply all_searched_values.
    rewrite Nat.sub_diag. set_solver. }
  exists token, link, playlist, state1, n, state2, calls, username, identity,
    items, m.
  split_and!; [done..| |].
  - destruct (register_count playlist (doc p) n) as [Hlen1 _];
      [by rewrite Hreg|].
    destruct (resolve_count (search_bandcamp_album_url w) clock state1
                (reachable_invariant _ Hreach1)) as [Hlen2 _].
    destruct (refresh_count _ _ _ _ Href) as [Hlen3 _].
    rewrite Hreg in Hlen1. rewrite Hres in Hlen2. simpl in Hlen1, Hlen2. lia.
  - destruct (register_count playlist (doc p) n) as [_ Hp1];
      [by rewrite Hreg|].
    destruct (resolve_count (search_bandcamp_album_url w) clock state1
                (reachable_invariant _ Hreach1)) as [_ Hp2].
    destruct (refresh_count _ _ _ _ Href) as [_ Hp3].
    rewrite Hreg in Hp1. rewrite Hres in Hp2. simpl in Hp1, Hp2. lia.
Qed.



(** ** The properties on a small library

    One playlist with an album by A and an album by B; a search that finds
    an address for everything, one that finds nothing and one that fails. *)

Lemma resolve_completed_searches_all_witness :
  let playlist := [{| track_artists := ["A"]; track_album_id := "1";
                      track_album_name := "X" |};
                   {| track_artists := ["B"]; track_album_id := "2";
                      track_album_name := "Y" |}] in
  let search := fun (_ : nat) (_ _ : string) => Ok "" in
  let state := (register playlist new_state).1 in
  length (resolve search 0 state).1.2 = 2
  ∧ unsearched_count state = 2
  ∧ unsearched_count (resolve search 0 state).1.1 = 0.
Proof.
  intros playlist search state.
  destruct (resolve_completed_searches_all search 0 state
              (resolve search 0 state).1.1 (resolve search 0 state).1.2)
    as (_ & Hcalls & Hnone).
  - apply reachable_register, evolves_refl.
  - vm_compute. reflexivity.
  - split_and!; [vm_compute; reflexivity..|exact Hnone].
Defined.

Lemma resolve_fails_only_with_search_witness :
  let playlist := [{| track_artists := ["A"]; track_album_id := "1";
                      track_album_name := "X" |};
                   {| track_artists := ["B"]; track_album_id := "2";
                      track_album_name := "Y" |}] in
  let search := fun (clock : nat) (_ _ : string) =>
                  match clock with
                  | 0 => Ok "https://a.bandcamp.com/album/x"
                  | _ => Raise RequestException
                  end in
  let state := (register playlist new_state).1 in
  (resolve search 0 state).2 = Raise RequestException
  ∧ ∃ c, c ∈ (resolve search 0 state).1.2
         ∧ call_answer c = Raise RequestException.
Proof.
  intros playlist search state.
  destruct (resolve_fails_only_with_search search 0 state) as [_ Hfail].
  - apply reachable_register, evolves_refl.
  - split; [vm_compute; reflexivity|]. exact Hfail.
Defined.

Lemma resolve_frame_witness :
  let playlist := [{| track_artists := ["A"]; track_album_id := "1";
                      track_album_name := "X" |}] in
  let search := fun (_ : nat) (_ _ : string) =>
                  Ok "https://a.bandcamp.com/album/x" in
  let state := (register playlist new_state).1 in
  Dict.keys (albums (resolve search 0 state).1.1) = ["X:1"]
  ∧ ∃ a', Dict.get "X:1" (albums (resolve search 0 state).1.1) = Some a'
          ∧ Album.purchased a' = false.
Proof.
  intros playlist search state.
  destruct (resolve_frame search 0 state) as (Hkeys & _ & Hrecords).
  - apply reachable_register, evolves_refl.
  - split; [exact Hkeys|].
    destruct (Hrecords "X:1" (new_album
                                {| track_artists := ["A"];
                                   track_album_id := "1";
                                   track_album_name := "X" |} "A"))
      as (a' & Hget & _ & Hp & _); [vm_compute; reflexivity|].
    exists a'. split; [exact Hget|exact Hp].
Defined.

Lemma search_query_is_search_term_witness :
  let playlist := [{| track_artists := ["A"; "C"]; track_album_id := "1";
                      track_album_name := "X" |}] in
  let search := fun (_ : nat) (_ _ : string) => Ok "" in
  let state := (register playlist new_state).1 in
  let c := {| call_key := "X:1"; call_artist := "A"; call_album := "X";
              call_answer := Ok "" |} in
  ∃ a, Dict.get "X:1" (albums state) = Some a
       ∧ request_of_call c = SearchRequest (Album.bandcamp_search_term a).
Proof.
  intros playlist search state c.
  destruct (search_query_is_search_term search 0 state c)
    as (a & Hget & _ & Hquery).
  - apply reachable_register, evolves_refl.
  - vm_compute. constructor.
  - exists a. split; [exact Hget|exact Hquery].
Defined.

Lemma register_extends_witness :
  let track := {| track_artists := ["A"]; track_album_id := "1";
                  track_album_name := "X" |} in
  let other := {| track_artists := ["B"]; track_album_id := "2";
                  track_album_name := "Y" |} in
  let state := (register [track] new_state).1 in
  Dict.get "X:1" (albums (register [other; track] state).1)
  = Some (new_album track "A").
Proof.
  intros track other state.
  destruct (register_extends [other; track] state)
    as (_ & added & _ & _ & _ & Hkept).
  apply Hkept. vm_compute. reflexivity.
Defined.

Lemma register_again_witness :
  let playlist := [{| track_artists := ["A"]; track_album_id := "1";
                      track_album_name := "X" |};
                   {| track_artists := ["B"]; track_album_id := "1";
                      track_album_name := "X" |}] in
  let state' := (register playlist new_state).1 in
  register playlist new_state = (state', Ok 1)
  ∧ register playlist state' = (state', Ok 0).
Proof.
  intros playlist state'.
  assert (register playlist new_state = (state', Ok 1)) as Hrun
    by (vm_compute; reflexivity).
  split; [exact Hrun|].
  destruct (register_again playlist new_state state' 1 Hrun) as (_ & _ & H).
  exact H.
Defined.

Lemma refresh_marks_purchases_witness :
  let playlist := [{| track_artists := ["A"]; track_album_id := "1";
                      track_album_name := "X" |};
                   {| track_artists := ["B"]; track_album_id := "2";
                      track_album_name := "Y" |}] in
  let search := fun (_ : nat) (artist _ : string) =>
                  Ok ("https://" +:+ artist +:+ ".bandcamp.com/album") in
  let state := (resolve search 0 (register playlist new_state).1).1.1 in
  let bandcamp_purchases :=
    ["https://B.bandcamp.com/album"; "https://elsewhere"] in
  let state' := (refresh bandcamp_purchases state).1 in
  ∃ a, Dict.get "Y:2" (albums state') = Some a ∧ Album.purchased a = true.
Proof.
  intros playlist search state bandcamp_purchases state'.
  destruct (refresh_marks_purchases bandcamp_purchases state state' 1)
    as (Hmarked & _ & _ & _);
    [apply reachable_resolve, reachable_register, evolves_refl
    |vm_compute; reflexivity|].
  apply (Hmarked "https://B.bandcamp.com/album" "Y:2");
    [constructor|vm_compute; reflexivity].
Defined.

Lemma refresh_raises_on_dangling_witness :
  let dangling := {| albums := [];
                     bandcamp_url_to_album_key := <["u" := "k"]> ∅ |} in
  let state := (register [{| track_artists := ["A"]; track_album_id := "1";
                             track_album_name := "X" |}] new_state).1 in
  (∃ url k, bandcamp_url_to_album_key dangling !! url = Some k
            ∧ Dict.get k (albums dangling) = None)
  ∧ ∃ n, (refresh ["u"] state).2 = Ok n.
Proof.
  intros dangling state. split.
  - destruct (refresh_raises_on_dangling ["u"] dangling) as [Hraise _].
    destruct (Hraise dangling (KeyError "k"))
      as (url & k & _ & Hindex & Hget & _); [vm_compute; reflexivity|].
    exists url, k. split; [exact Hindex|exact Hget].
  - destruct (refresh_raises_on_dangling ["u"] state) as [_ Hruns].
    apply Hruns. apply reachable_register, evolves_refl.
Defined.

Lemma albums_persist_witness :
  let track := {| track_artists := ["A"]; track_album_id := "1";
                  track_album_name := "X" |} in
  let other := {| track_artists := ["B"]; track_album_id := "2";
                  track_album_name := "Y" |} in
  let search := fun (_ : nat) (_ _ : string) =>
                  Ok "https://a.bandcamp.com/album/x" in
  let state := (register [track] new_state).1 in
  let state' :=
    (register [other]
       (refresh ["https://a.bandcamp.com/album/x"]
          (resolve search 0 state).1.1).1).1 in
  ∃ a', Dict.get "X:1" (albums state') = Some a'
        ∧ carried (new_album track "A") a'.
Proof.
  intros track other search state state'.
  destruct (albums_persist state state') as [_ Hkept].
  - apply reachable_register, evolves_refl.
  - eapply evolves_step; [eapply evolves_step; [eapply evolves_step|]|].
    + apply evolves_refl.
    + apply (step_resolve search 0).
    + apply (step_refresh ["https://a.bandcamp.com/album/x"]).
    + apply (step_register [other]).
  - apply Hkept. vm_compute. reflexivity.
Defined.

Lemma print_unpurchased_lines_witness :
  let track := {| track_artists := ["A"]; track_album_id := "1";
                  track_album_name := "X" |} in
  let search := fun (_ : nat) (_ _ : string) =>
                  Ok "https://a.bandcamp.com/album/x" in
  let state := (resolve search 0 (register [track] new_state).1).1.1 in
  ∃ k a, (k, a) ∈ albums state
         ∧ Album.bandcamp_url a = "https://a.bandcamp.com/album/x"
         ∧ Album.purchased a = false
         ∧ is_Some (bandcamp_url_to_album_key state !! Album.bandcamp_url a).
Proof.
  intros track search state.
  destruct (print_unpurchased_lines state
              (UnpurchasedUrl "https://a.bandcamp.com/album/x"))
    as (k & a & Hin & Hline & Hp & _ & Hindex).
  - apply reachable_resolve, reachable_register, evolves_refl.
  - vm_compute. constructor.
  - exists k, a. injection Hline as Hurl. by split_and!.
Defined.

Lemma stored_record_shape_witness :
  let track := {| track_artists := ["A"; "C"]; track_album_id := "1";
                  track_album_name := "X" |} in
  let state := (register [track] new_state).1 in
  Album.bandcamp_search_term (new_album track "A") = "A X"
  ∧ (Album.bandcamp_url_found (new_album track "A") = true
     ↔ Album.bandcamp_url (new_album track "A") ≠ "").
Proof.
  intros track state.
  destruct (stored_record_shape state "X:1" (new_album track "A"))
    as (_ & _ & _ & Hfound & _).
  - apply reachable_register, evolves_refl.
  - vm_compute. constructor.
  - split; [reflexivity|exact Hfound].
Defined.

Lemma stats_counts_ordered_witness :
  let playlist := [{| track_artists := ["A"]; track_album_id := "1";
                      track_album_name := "X" |};
                   {| track_artists := ["B"]; track_album_id := "2";
                      track_album_name := "Y" |}] in
  let search := fun (clock : nat) (_ _ : string) =>
                  match clock with
                  | 0 => Ok "https://a.bandcamp.com/album/x"
                  | _ => Ok ""
                  end in
  let state :=
    (refresh ["https://a.bandcamp.com/album/x"]
       (resolve search 0 (register playlist new_state).1).1.1).1 in
  take 4 (print_stats state).1
  = [AlbumsRegistered 2; AlbumsPurchased 1; AlbumsFound 1 1; NotSearched 0].
Proof.
  intros playlist search state.
  destruct (stats_counts_ordered state) as (_ & _ & _ & Hlines).
  - apply reachable_refresh, reachable_resolve, reachable_register,
      evolves_refl.
  - rewrite Hlines. vm_compute. reflexivity.
Defined.

Lemma completed_pull_witness :
  let w :=
    {| environ :=
         <["SPOTIFY_APP_ID" := "id"]>
           (<["SPOTIFY_APP_SECRET" := "secret"]>
              (<["BANDCAMP_USERNAME" := "me"]>
                 (<["BANDCAMP_TOKEN" := "cookie"]> ∅)));
       valid_netloc := fun _ => true;
       spotify_token := fun _ _ _ => Ok "token";
       spotify_playlist := fun _ _ _ =>
         Ok [{| track_artists := ["A"]; track_album_id := "1";
                track_album_name := "X" |};
             {| track_artists := ["B"]; track_album_id := "2";
                track_album_name := "Y" |}];
       bandcamp_search := fun _ q =>
         if String.eqb q "A X"
         then Ok [["https://a.bandcamp.com/album/x?from=search"]]
         else Ok [];
       bandcamp_collection := fun _ _ _ =>
         Ok [Some "https://a.bandcamp.com/album/x"; None] |} in
  let p := {| doc := new_state; sent := []; printed := [] |} in
  let p' := (pull_spotify_playlist w "https://open.spotify.com/playlist/p" p).1 in
  printed p' = [RegisteredFromSpotify 2; NewlyPurchased 1]
  ∧ NotSearched 0 ∈ (print_stats (doc p')).1.
Proof.
  intros w p p'.
  destruct (completed_pull w "https://open.spotify.com/playlist/p" p p')
    as (_ & _ & Hstats & _).
  - apply evolves_refl.
  - vm_compute. reflexivity.
  - split; [vm_compute; reflexivity|exact Hstats].
Defined.


Lemma stored_url_no_query_witness :
  let w :=
    {| environ := ∅;
       valid_netloc := fun _ => true;
       spotify_token := fun _ _ _ => Ok "token";
       spotify_playlist := fun _ _ _ => Ok [];
       bandcamp_search := fun _ _ =>
         Ok [["//artist.bandcamp.com/album/x;v=2?from=search#top"]];
       bandcamp_collection := fun _ _ _ => Ok [] |} in
  ∃ netloc path,
    "https://artist.bandcamp.com/album/x" = "https://" +:+ netloc +:+ path
    ∧ Str.contains "?" (netloc +:+ path) = false
    ∧ Str.contains "#" (netloc +:+ path) = false.
Proof.
  intros w.
  destruct (stored_url_no_query w 0 "A" "X"
              "https://artist.bandcamp.com/album/x")
    as (netloc & path & Hurl & Hq & Hf & _).
  - vm_compute. reflexivity.
  - discriminate.
  - exists netloc, path. by split_and!.
Defined.

Lemma pull_requests_playlist_id_witness :
  let w :=
    {| environ :=
         <["SPOTIFY_APP_ID" := "id"]> (<["SPOTIFY_APP_SECRET" := "secret"]> ∅);
       valid_netloc := fun _ => true;
       spotify_token := fun _ _ _ => Ok "token";
       spotify_playlist := fun _ _ _ => Ok [];
       bandcamp_search := fun _ _ => Ok [];
       bandcamp_collection := fun _ _ _ => Ok [] |} in
  let p := {| doc := new_state; sent := []; printed := [] |} in
  [TokenRequest "id" "secret"; PlaylistRequest "token" "37i9dQZF1DX"]
    `prefix_of`
    sent (pull_spotify_playlist w
            "https://open.spotify.com/playlist/37i9dQZF1DX?si=abc" p).1.
Proof.
  intros w p.
  apply (pull_requests_playlist_id w p "id" "secret" "token"
           "open.spotify.com" "/playlist" "37i9dQZF1DX");
    [vm_compute; reflexivity..|].
  right. exists "si=abc". reflexivity.
Defined.
